(** * Container decoders of caf_research: an embedding of the TypeScript sources

    Two programs are embedded: [parseOgg.ts] (the paged scanner with its
    checksum and the Opus header decoders) and the chunked-container
    traversal.  JavaScript numbers are modelled as [Z] with the 32-bit
    conversions of the bit operators written out, a [Uint8Array] as a
    [list Z] of values below 256, and exceptions as the [Throw] branch of
    a result type. *)

From Stdlib Require Import ZArith List Bool Lia.
Import ListNotations.
Open Scope Z_scope.

(** ** JavaScript primitives *)

Module Js.

(** [ToInt32] and [ToUint32] of ECMAScript, on integral numbers. *)
Definition ToUint32 (x : Z) : Z := x mod 2 ^ 32.

Definition ToInt32 (x : Z) : Z :=
  let u := x mod 2 ^ 32 in
  if u <? 2 ^ 31 then u else u - 2 ^ 32.

(** [a & b], [a | b], [a ^ b]: both operands through [ToInt32], signed
    result. *)
Definition band (a b : Z) : Z := Z.land (ToInt32 a) (ToInt32 b).
Definition bor (a b : Z) : Z := Z.lor (ToInt32 a) (ToInt32 b).
Definition bxor (a b : Z) : Z := Z.lxor (ToInt32 a) (ToInt32 b).

(** [a << n]: signed 32-bit result; [a >>> n]: unsigned 32-bit result. *)
Definition shl (a n : Z) : Z :=
  ToInt32 (Z.shiftl (ToInt32 a) (Z.land (ToUint32 n) 31)).
Definition shru (a n : Z) : Z :=
  Z.shiftr (ToUint32 a) (Z.land (ToUint32 n) 31).

(** Truthiness of a number. *)
Definition truthy (x : Z) : bool := negb (x =? 0).

(** [a[i]] in a numeric context where [undefined] converts to 0. *)
Definition at0 (a : list Z) (i : Z) : Z :=
  if i <? 0 then 0 else nth (Z.to_nat i) a 0.

Definition len {A} (a : list A) : Z := Z.of_nat (length a).

(** What an uncaught exception can be.  The four [Error] values are told
    apart by their message; the last two are raised by the runtime. *)
Inductive error : Type :=
| FileStreamFinished     (* Error("File stream finished parsing") *)
| InvalidArrayLength     (* Error("Invalid array length. Expected multiple of ...") *)
| InvalidMagicSignature  (* Error("Invalid magic signature.") *)
| Stop                   (* Error("Stop") *)
| RangeError
| TypeError.

(** Result of a pure function. *)
Inductive result (A : Type) : Type :=
| Ok (a : A)
| Throw (e : error).
Arguments Ok {A} a.
Arguments Throw {A} e.

Definition rbind {A B} (r : result A) (k : A -> result B) : result B :=
  match r with
  | Ok a => k a
  | Throw e => Throw e
  end.

(** Result of a computation on a state [S]: the state is kept when an
    exception escapes, so that what was printed and consumed before it
    stays observable.  [OutOfFuel] is not a JavaScript outcome: a bounded
    loop of the model used up its bound. *)
Inductive outcome (S A : Type) : Type :=
| Done (a : A) (s : S)
| Raise (e : error) (s : S)
| OutOfFuel.
Arguments Done {S A} a s.
Arguments Raise {S A} e s.
Arguments OutOfFuel {S A}.

Definition M (S A : Type) : Type := S -> outcome S A.

Definition ret {S A} (a : A) : M S A := fun s => Done a s.

Definition bind {S A B} (c : M S A) (k : A -> M S B) : M S B :=
  fun s =>
    match c s with
    | Done a s' => k a s'
    | Raise e s' => Raise e s'
    | OutOfFuel => OutOfFuel
    end.

Definition lift {S A} (r : result A) : M S A :=
  fun s =>
    match r with
    | Ok a => Done a s
    | Throw e => Raise e s
    end.

Definition liftFuel {S A} (r : option (result A)) : M S A :=
  fun s =>
    match r with
    | Some (Ok a) => Done a s
    | Some (Throw e) => Raise e s
    | None => OutOfFuel
    end.

(** [Array.prototype.slice] and [TypedArray.prototype.slice] on integral
    arguments: negative positions count from the end, both are clamped. *)
Definition relIndex (n i : Z) : Z :=
  if i <? 0 then Z.max (n + i) 0 else Z.min i n.

Definition slice (a : list Z) (start stop : Z) : list Z :=
  let k := relIndex (len a) start in
  let final := relIndex (len a) stop in
  firstn (Z.to_nat (final - k)) (skipn (Z.to_nat k) a).

Definition sliceFrom (a : list Z) (start : Z) : list Z :=
  slice a start (len a).

(** The largest length [ToIndex] accepts; storage below it is assumed to
    be available. *)
Definition maxIndex : Z := 2 ^ 53 - 1.

(** [new Uint8Array(n)] for an integral [n]: zero filled. *)
Definition Uint8Array (n : Z) : result (list Z) :=
  if (n <? 0) || (maxIndex <? n) then Throw RangeError
  else Ok (repeat 0 (Z.to_nat n)).

(** [DataView] accessors over the whole buffer of an array. *)
Definition inView (buf : list Z) (off width : Z) : bool :=
  (0 <=? off) && (off + width <=? len buf).

Definition getUint8 (buf : list Z) (off : Z) : result Z :=
  if inView buf off 1 then Ok (at0 buf off) else Throw RangeError.

Definition getUint16LE (buf : list Z) (off : Z) : result Z :=
  if inView buf off 2
  then Ok (at0 buf off + 2 ^ 8 * at0 buf (off + 1))
  else Throw RangeError.

Definition getUint32LE (buf : list Z) (off : Z) : result Z :=
  if inView buf off 4
  then Ok (at0 buf off + 2 ^ 8 * at0 buf (off + 1)
           + 2 ^ 16 * at0 buf (off + 2) + 2 ^ 24 * at0 buf (off + 3))
  else Throw RangeError.

Definition getInt32LE (buf : list Z) (off : Z) : result Z :=
  rbind (getUint32LE buf off) (fun u => Ok (ToInt32 u)).

(** Big-endian value of a byte sequence. *)
Definition bigEndian (bytes : list Z) : Z :=
  fold_left (fun acc b => 2 ^ 8 * acc + b) bytes 0.

Definition getInt32BE (buf : list Z) (off : Z) : result Z :=
  if inView buf off 4
  then Ok (ToInt32 (bigEndian (firstn 4 (skipn (Z.to_nat off) buf))))
  else Throw RangeError.

Definition ToBigInt64 (x : Z) : Z :=
  let u := x mod 2 ^ 64 in
  if u <? 2 ^ 63 then u else u - 2 ^ 64.

Definition getBigInt64BE (buf : list Z) (off : Z) : result Z :=
  if inView buf off 8
  then Ok (ToBigInt64 (bigEndian (firstn 8 (skipn (Z.to_nat off) buf))))
  else Throw RangeError.

(** [Number(b)] for a BigInt [b]: the nearest double, ties to even. *)
Definition Number (b : Z) : Z :=
  let a := Z.abs b in
  if a <? 2 ^ 53 then b
  else
    let e := Z.log2 a - 52 in
    let q := Z.shiftr a e in
    let r := a - Z.shiftl q e in
    let half := Z.shiftl 1 (e - 1) in
    let q' := if (half <? r) || ((half =? r) && Z.odd q) then q + 1 else q in
    Z.sgn b * Z.shiftl q' e.

Fixpoint mapR {A B} (f : A -> result B) (l : list A) : result (list B) :=
  match l with
  | [] => Ok []
  | x :: l' =>
      match f x with
      | Throw e => Throw e
      | Ok y =>
          match mapR f l' with
          | Throw e => Throw e
          | Ok ys => Ok (y :: ys)
          end
      end
  end.

(** [TextDecoder.decode]: text is kept as the bytes it was decoded from.
    A four-byte tag decodes to a given four-letter ASCII word exactly
    when its bytes are that word's, so tag comparisons are unaffected. *)
Definition text : Type := list Z.
Definition decode (bytes : list Z) : text := bytes.

End Js.

Declare Scope js_scope.
Notation "x <- c ;; k" := (Js.bind c (fun x => k))
  (at level 61, c at next level, right associativity) : js_scope.
Notation "c ;;; k" := (Js.bind c (fun _ => k))
  (at level 61, right associativity) : js_scope.
Notation "x <-- r ;; k" := (Js.rbind r (fun x => k))
  (at level 61, r at next level, right associativity) : js_scope.

(** [Deno.FsFile] over a regular file, as the bytes not yet read.
    [read p] fills a prefix of [p] and resolves to the number of bytes
    read, to 0 for an empty [p], and to [null] when nothing is left. *)
Module FsFile.
Import Js.

Definition t : Type := list Z.

Definition read (f : t) (p : list Z) : option Z * list Z * t :=
  match p, f with
  | [], _ => (Some 0, p, f)
  | _, [] => (None, p, f)
  | _, _ =>
      let got := firstn (length p) f in
      (Some (len got), got ++ skipn (length got) p, skipn (length p) f)
  end.

End FsFile.

(** ** parseOgg.ts *)

Module ParseOgg.
Import Js.
Local Open Scope js_scope.

Record IOpusChannelMapping : Type := {
  streamCount : Z;
  coupledCount : Z;
  channelMapping : list Z
}.

(** What [parseOpusHeader] returns (its [channelMapping] field is
    [mapping] here, [None] for [null]). *)
Record OpusHeader : Type := {
  version : Z;
  channelCount : Z;
  preSkip : Z;
  inputSampleRate : Z;
  outputGain : Z;
  mappingFamily : Z;
  mapping : option IOpusChannelMapping
}.

(** What [parseOpusTags] returns. *)
Record OpusTags : Type := {
  vendorString : text;
  userCommentString : list text
}.

Record Report : Type := {
  structureVersion : Z;
  headerType : Z;
  isFreshPacket : bool;
  isBos : bool;
  isBoe : bool;
  absoluteGranulePosition : Z;
  streamSerialNumber : Z;
  pageSequenceNumber : Z;
  pageChecksum : Z;
  pageRealChecksum : Z;
  checksumPassed : bool;
  pageSegments : Z;
  segmentTable : list Z
}.

(** What [console.log] is called with. *)
Inductive event : Type :=
| LogReport (r : Report)
| LogHeaderPage                  (* "This is a header page" *)
| LogOpusHeader (h : OpusHeader)
| LogTagsPage                    (* "This is a tags page" *)
| LogOpusTags (t : OpusTags).

(** The module's variables: [cache], the open file, and the console. *)
Record state : Type := {
  cache : list (list Z);
  oggFile : FsFile.t;
  console : list event
}.

Definition throw {A} (e : error) : M state A := fun s => Raise e s.

Definition fileRead (p : list Z) : M state (option Z * list Z) :=
  fun s =>
    let '(result, p', f') := FsFile.read (oggFile s) p in
    Done (result, p')
         {| cache := cache s; oggFile := f'; console := console s |}.

Definition cachePush (a : list Z) : M state unit :=
  fun s =>
    Done tt {| cache := cache s ++ [a]; oggFile := oggFile s;
               console := console s |}.

Definition cacheReset : M state unit :=
  fun s =>
    Done tt {| cache := []; oggFile := oggFile s; console := console s |}.

Definition log (e : event) : M state unit :=
  fun s =>
    Done tt {| cache := cache s; oggFile := oggFile s;
               console := console s ++ [e] |}.

Definition read : M state Z :=
  byte <- lift (Uint8Array 1) ;;
  r <- fileRead byte ;;
  let (result, byte) := r in
  match result with
  | None => throw FileStreamFinished
  | Some _ => cachePush byte ;;; ret (at0 byte 0)
  end.

Definition readMultiple (n : Z) : M state (list Z) :=
  byte <- lift (Uint8Array n) ;;
  r <- fileRead byte ;;
  let (result, byte) := r in
  match result with
  | None => throw FileStreamFinished
  | Some _ => cachePush byte ;;; ret byte
  end.

(** One round of the inner loop of [makeCRCTable]:
    [c = c & 1 ? 0x04c11db7 ^ (c >>> 1) : c >>> 1]. *)
Definition crcRound (c : Z) : Z :=
  if truthy (band c 1) then bxor 0x04c11db7 (shru c 1) else shru c 1.

Definition makeCRCTable : list Z :=
  map (fun n => Nat.iter 8 crcRound (Z.of_nat n)) (seq 0 256).

Definition crcTable : list Z := makeCRCTable.

(** [crc = (crc >>> 8) ^ crcTable[(crc ^ x[i]) & 0xff]] *)
Definition crcUpdate (crc xi : Z) : Z :=
  bxor (shru crc 8) (at0 crcTable (band (bxor crc xi) 0xff)).

Definition crc32 (x : list Z) : Z :=
  let crc := fold_left crcUpdate x (bxor 0 (-1)) in
  shru (bxor crc (-1)) 0.

(** [getMergedCache] concatenates the arrays of [cache]. *)
Definition getMergedCache : M state (list Z) :=
  fun s => Done (concat (cache s)) s.

Definition uInt32Le (array : list Z) : result Z :=
  if negb (len array =? 4) then Throw InvalidArrayLength
  else getUint32LE array 0.

(** Reads the low four bytes only, as the source does. *)
Definition uInt64Le (array : list Z) : result Z :=
  if negb (len array =? 8) then Throw InvalidArrayLength
  else getUint32LE array 0.

Definition opusHeadMagicSignature : list Z :=
  [0x4f; 0x70; 0x75; 0x73; 0x48; 0x65; 0x61; 0x64].

Definition opusCommentMagicSignature : list Z :=
  [0x4f; 0x70; 0x75; 0x73; 0x54; 0x61; 0x67; 0x73].

(** The signature loop: [array[i] !== signature[i]] for some [i] throws;
    an index past the end of [array] reads [undefined] and differs. *)
Definition signatureMatches (array signature : list Z) : bool :=
  forallb
    (fun i =>
       match nth_error array i, nth_error signature i with
       | Some a, Some b => a =? b
       | _, _ => false
       end)
    (seq 0 (length signature)).

(** [array] is [None] when the caller passes [undefined]; reading its
    [buffer] then throws a [TypeError]. *)
Definition parseOpusHeader (array : option (list Z)) : result OpusHeader :=
  match array with
  | None => Throw TypeError
  | Some array =>
      if negb (signatureMatches array opusHeadMagicSignature)
      then Throw InvalidMagicSignature
      else
        version <-- getUint8 array 8 ;;
        channelCount <-- getUint8 array 9 ;;
        preSkip <-- getUint16LE array 10 ;;
        inputSampleRate <-- getUint32LE array 12 ;;
        outputGain <-- getUint16LE array 16 ;;
        mappingFamily <-- getUint8 array 18 ;;
        channelMapping <--
          (if 19 <? len array then
             streamCount <-- getUint8 array 19 ;;
             coupledCount <-- getUint8 array 20 ;;
             channelMappings <--
               mapR (fun i => getUint8 array (21 + Z.of_nat i))
                    (seq 0 (Z.to_nat channelCount)) ;;
             Ok (Some {| streamCount := streamCount;
                         coupledCount := coupledCount;
                         channelMapping := channelMappings |})
           else Ok None) ;;
        Ok {| version := version; channelCount := channelCount;
              preSkip := preSkip; inputSampleRate := inputSampleRate;
              outputGain := outputGain; mappingFamily := mappingFamily;
              mapping := channelMapping |}
  end.

(** The [while (commentListLengthLeft > 0)] loop of [parseOpusTags], at
    most [fuel] rounds; [None] when the bound is used up. *)
Fixpoint commentLoop (fuel : nat) (array : list Z)
    (vendorStringLength userCommentListLength commentListLengthLeft : Z)
    (userCommentStrings : list text) : option (result (list text)) :=
  if 0 <? commentListLengthLeft then
    match fuel with
    | O => None
    | S fuel' =>
        let offset := userCommentListLength - commentListLengthLeft in
        match getInt32LE array (12 + vendorStringLength + 4 + offset) with
        | Throw e => Some (Throw e)
        | Ok userCommentStringLength =>
            let userCommentString :=
              decode
                (slice array
                   (12 + vendorStringLength + 8 + offset)
                   (12 + vendorStringLength + 8 + offset
                    + userCommentStringLength)) in
            commentLoop fuel' array vendorStringLength userCommentListLength
              (commentListLengthLeft - (userCommentStringLength + 4))
              (userCommentStrings ++ [userCommentString])
        end
    end
  else Some (Ok userCommentStrings).

Definition parseOpusTags (fuel : nat) (array : option (list Z))
  : option (result OpusTags) :=
  match array with
  | None => Some (Throw TypeError)
  | Some array =>
      if negb (signatureMatches array opusCommentMagicSignature)
      then Some (Throw InvalidMagicSignature)
      else
        match getInt32LE array 8 with
        | Throw e => Some (Throw e)
        | Ok vendorStringLength =>
            let vendorString :=
              decode (slice array 12 (12 + vendorStringLength)) in
            match getInt32LE array (12 + vendorStringLength) with
            | Throw e => Some (Throw e)
            | Ok userCommentListLength =>
                match commentLoop fuel array vendorStringLength
                        userCommentListLength userCommentListLength [] with
                | None => None
                | Some (Throw e) => Some (Throw e)
                | Some (Ok userCommentStrings) =>
                    Some (Ok {| vendorString := vendorString;
                                userCommentString := userCommentStrings |})
                end
            end
        end
  end.

(** The segment loop: [segments.push(await readMultiple(oggFile,
    segmentTable[i]))] for [i] from 0 below [pageSegments]. *)
Fixpoint readSegments (segmentTable : list Z) (count : nat) (i : Z)
  : M state (list (list Z)) :=
  match count with
  | O => ret []
  | S count' =>
      segment <- readMultiple (at0 segmentTable i) ;;
      segments <- readSegments segmentTable count' (i + 1) ;;
      ret (segment :: segments)
  end.

(** The fixed fields read after the capture pattern, up to [pageChecksum]
    (already decoded by [uInt32Le]); the three byte fields are decoded
    when the report is built. *)
Record FixedFields : Type := {
  fStructureVersion : Z;
  fHeaderType : Z;
  fAbsoluteGranulePosition : list Z;
  fStreamSerialNumber : list Z;
  fPageSequenceNumber : list Z;
  fPageChecksum : Z
}.

Definition readFixedFields : M state FixedFields :=
  structureVersion <- read ;;
  headerType <- read ;;
  absoluteGranulePosition <- readMultiple 8 ;;
  streamSerialNumber <- readMultiple 4 ;;
  pageSequenceNumber <- readMultiple 4 ;;
  checksumBytes <- readMultiple 4 ;;
  pageChecksum <- lift (uInt32Le checksumBytes) ;;
  ret {| fStructureVersion := structureVersion;
         fHeaderType := headerType;
         fAbsoluteGranulePosition := absoluteGranulePosition;
         fStreamSerialNumber := streamSerialNumber;
         fPageSequenceNumber := pageSequenceNumber;
         fPageChecksum := pageChecksum |}.

(** The codec-header dispatch on the page sequence number, the stop at
    page 3, and the reset of [cache] that ends the round. *)
Definition dispatch (fuel : nat) (sequence : Z) (segments : list (list Z))
  : M state unit :=
  (if sequence =? 0 then
     log LogHeaderPage ;;;
     h <- lift (parseOpusHeader (nth_error segments 0)) ;;
     log (LogOpusHeader h)
   else ret tt) ;;;
  (if sequence =? 1 then
     log LogTagsPage ;;;
     t <- liftFuel (parseOpusTags fuel (nth_error segments 0)) ;;
     log (LogOpusTags t)
   else ret tt) ;;;
  (if sequence =? 3 then throw Stop else ret tt) ;;;
  cacheReset.

(** The part of the loop body after the capture pattern has matched. *)
Definition readPage (fuel : nat) : M state unit :=
  f <- readFixedFields ;;
  let isFreshPacket := negb (truthy (band (fHeaderType f) 0x1)) in
  let isBos := truthy (shru (band (fHeaderType f) 0x2) 1) in
  let isBoe := truthy (shru (band (fHeaderType f) 0x4) 2) in
  merged <- getMergedCache ;;
  let pageRealChecksum := crc32 merged in
  let checksumPassed := fPageChecksum f =? pageRealChecksum in
  pageSegments <- read ;;
  segmentTable <- readMultiple pageSegments ;;
  segments <- readSegments segmentTable (Z.to_nat pageSegments) 0 ;;
  granule <- lift (uInt64Le (fAbsoluteGranulePosition f)) ;;
  serial <- lift (uInt32Le (fStreamSerialNumber f)) ;;
  sequence <- lift (uInt32Le (fPageSequenceNumber f)) ;;
  let report :=
    {| structureVersion := fStructureVersion f;
       headerType := fHeaderType f;
       isFreshPacket := isFreshPacket;
       isBos := isBos;
       isBoe := isBoe;
       absoluteGranulePosition := granule;
       streamSerialNumber := serial;
       pageSequenceNumber := sequence;
       pageChecksum := fPageChecksum f;
       pageRealChecksum := pageRealChecksum;
       checksumPassed := checksumPassed;
       pageSegments := pageSegments;
       segmentTable := segmentTable |} in
  log (LogReport report) ;;;
  dispatch fuel sequence segments.

(** The body of [while (true)]; each [continue] ends the round at once,
    leaving [cache] as it is. *)
Definition loopBody (fuel : nat) : M state unit :=
  header0 <- read ;;
  if negb (header0 =? 0x4f) then ret tt else
  header1 <- read ;;
  if negb (header1 =? 0x67) then ret tt else
  header2 <- read ;;
  if negb (header2 =? 0x67) then ret tt else
  header3 <- read ;;
  if negb (header3 =? 0x53) then ret tt else
  readPage fuel.

(** [while (true)], at most [rounds] rounds. *)
Fixpoint mainLoop (fuel rounds : nat) : M state unit :=
  match rounds with
  | O => fun _ => OutOfFuel
  | S rounds' => loopBody fuel ;;; mainLoop fuel rounds'
  end.

(** The program on a file holding [bytes]. *)
Definition main (fuel rounds : nat) (bytes : list Z) : outcome state unit :=
  mainLoop fuel rounds {| cache := []; oggFile := bytes; console := [] |}.

End ParseOgg.

(** ** The chunked-container program *)

Module ParseCaf.
Import Js.
Local Open Scope js_scope.

(** A double is kept as the 64 bits it was read from. *)
Inductive double : Type :=
| Float64 (bits : Z).

(** [result = (result << 8) + uint8Array[i]] over the array. *)
Definition uint (uint8Array : list Z) : Z :=
  fold_left (fun result b => shl result 8 + b) uint8Array 0.

Definition float64 (array : list Z) : result double :=
  if negb (len array =? 8) then Throw InvalidArrayLength
  else Ok (Float64 (bigEndian array)).

Definition int64 (array : list Z) : result Z :=
  if negb (len array =? 8) then Throw InvalidArrayLength
  else b <-- getBigInt64BE array 0 ;; Ok (Number b).

Definition int32 (array : list Z) : result Z :=
  if negb (len array =? 4) then Throw InvalidArrayLength
  else getInt32BE array 0.

(** The loop of [packetsTable] from byte [i] on:
    [currentNumber = (currentNumber << 7) | (byte & 0x7f)], pushed and
    reset when [(byte & 0x80) === 0]. *)
Fixpoint packetsLoop (data : list Z) (currentNumber : Z) : list Z :=
  match data with
  | [] => []
  | byte :: data' =>
      let currentNumber := bor (shl currentNumber 7) (band byte 0x7f) in
      if band byte 0x80 =? 0
      then currentNumber :: packetsLoop data' 0
      else packetsLoop data' currentNumber
  end.

Definition packetsTable (data : list Z) : list Z := packetsLoop data 0.

Definition str (array : list Z) : text := decode array.

Record ICAFFileHeader : Type := {
  fileType : text;
  fileVersion : Z;
  fileFlags : Z
}.

Record ICAFChunkHeader : Type := {
  chunkType : text;
  chunkSize : Z
}.

Record ICAFAudioFormat : Type := {
  sampleRate : double;
  formatID : text;
  formatFlags : Z;
  bytesPerPacket : Z;
  framesPerPacket : Z;
  channelsPerFrame : Z;
  bitsPerChannel : Z
}.

Record ICAFChannelDescription : Type := {
  channelLabel : Z;
  channelFlags : Z;
  coordinates : double * double * double
}.

Record ICAFChannelLayout : Type := {
  channelLayoutTag : Z;
  channelBitmap : Z;
  numberChannelDescriptions : Z;
  channelDescriptions : list ICAFChannelDescription
}.

Record ICAFData : Type := {
  editCount : Z;
  data : list Z
}.

Record ICAFPacketTableHeader : Type := {
  numberPackets : Z;
  numberValidFrames : Z;
  primingFrames : Z;
  remainderFrames : Z
}.

Record PacketTable : Type := {
  header : ICAFPacketTableHeader;
  body : list Z
}.

Definition parseAudioFormat (uint8Array : list Z) : result ICAFAudioFormat :=
  let mSampleRate := slice uint8Array 0 8 in
  let mFormatID := slice uint8Array 8 12 in
  let mFormatFlags := slice uint8Array 12 16 in
  let mBytesPerPacket := slice uint8Array 16 20 in
  let mFramesPerPacket := slice uint8Array 20 24 in
  let mChannelsPerFrame := slice uint8Array 24 28 in
  let mBitsPerChannel := slice uint8Array 28 32 in
  sampleRate <-- float64 mSampleRate ;;
  Ok {| sampleRate := sampleRate;
        formatID := str mFormatID;
        formatFlags := uint mFormatFlags;
        bytesPerPacket := uint mBytesPerPacket;
        framesPerPacket := uint mFramesPerPacket;
        channelsPerFrame := uint mChannelsPerFrame;
        bitsPerChannel := uint mBitsPerChannel |}.

Definition parseChannelDescription (uint8Array : list Z)
  : result ICAFChannelDescription :=
  let mChannelLabel := slice uint8Array 0 4 in
  let mChannelFlags := slice uint8Array 4 8 in
  let mCoordinates1 := slice uint8Array 8 16 in
  let mCoordinates2 := slice uint8Array 16 24 in
  let mCoordinates3 := slice uint8Array 24 32 in
  c1 <-- float64 mCoordinates1 ;;
  c2 <-- float64 mCoordinates2 ;;
  c3 <-- float64 mCoordinates3 ;;
  Ok {| channelLabel := uint mChannelLabel;
        channelFlags := uint mChannelFlags;
        coordinates := (c1, c2, c3) |}.

(** [Array(n).fill(0)] for an integral [n], as the list of its indices.
    [Array(n)] throws a RangeError unless [n] is an array length, that
    is unless 0 <= n < 2^32.  [fill] then stores [n] elements, and
    throws a RangeError ("Invalid array length") when the engine cannot
    hold that many: [maxFill] is the largest number of elements [fill]
    can store, which depends on the engine and is left as a parameter;
    the statements hold for each of its values. *)
Definition ArrayFill (maxFill n : Z) : result (list Z) :=
  if (n <? 0) || (2 ^ 32 - 1 <? n) then Throw RangeError
  else if maxFill <? n then Throw RangeError
  else Ok (map Z.of_nat (seq 0 (Z.to_nat n))).

Definition parseChannelLayout (maxFill : Z) (uint8Array : list Z)
  : result ICAFChannelLayout :=
  let mChannelLayoutTag := slice uint8Array 0 4 in
  let mChannelBitmap := slice uint8Array 4 8 in
  let mNumberChannelDescriptions := slice uint8Array 8 12 in
  let numberChannelDescriptions := uint mNumberChannelDescriptions in
  indices <-- ArrayFill maxFill numberChannelDescriptions ;;
  channelDescriptions <--
    mapR (fun i =>
            let slicedArray :=
              slice uint8Array (12 + i * 32) (12 + (i + 1) * 32) in
            parseChannelDescription slicedArray)
         indices ;;
  Ok {| channelLayoutTag := uint mChannelLayoutTag;
        channelBitmap := uint mChannelBitmap;
        numberChannelDescriptions := numberChannelDescriptions;
        channelDescriptions := channelDescriptions |}.

Definition parseData (uint8Array : list Z) : ICAFData :=
  let mEditCount := slice uint8Array 0 4 in
  let mData := sliceFrom uint8Array 4 in
  {| editCount := uint mEditCount; data := mData |}.

Definition parsePacketTableHeader (uint8Array : list Z)
  : result ICAFPacketTableHeader :=
  let mNumberPackets := slice uint8Array 0 8 in
  let mNumberValidFrames := slice uint8Array 8 16 in
  let mPrimingFrames := slice uint8Array 16 20 in
  let mRemainderFrames := slice uint8Array 20 24 in
  numberPackets <-- int64 mNumberPackets ;;
  numberValidFrames <-- int64 mNumberValidFrames ;;
  primingFrames <-- int32 mPrimingFrames ;;
  remainderFrames <-- int32 mRemainderFrames ;;
  Ok {| numberPackets := numberPackets;
        numberValidFrames := numberValidFrames;
        primingFrames := primingFrames;
        remainderFrames := remainderFrames |}.

Definition parsePacketTable (uint8Array : list Z) : result PacketTable :=
  let header := slice uint8Array 0 24 in
  let body := sliceFrom uint8Array 24 in
  h <-- parsePacketTableHeader header ;;
  Ok {| header := h; body := packetsTable body |}.

(** What [console.log] is called with. *)
Inductive event : Type :=
| LogFileHeader (h : ICAFFileHeader)
| LogChunkHeader (h : ICAFChunkHeader)
| LogAudioFormat (d : ICAFAudioFormat)
| LogChannelLayout (c : ICAFChannelLayout)
| LogData (d : ICAFData)
| LogPacketTable (p : PacketTable).

Record state : Type := {
  cafFile : FsFile.t;
  console : list event
}.

(** [await file.read(p)] with the resolved value dropped: only the bytes
    written into [p] are seen. *)
Definition fileRead (p : list Z) : M state (list Z) :=
  fun s =>
    let '(_, p', f') := FsFile.read (cafFile s) p in
    Done p' {| cafFile := f'; console := console s |}.

Definition log (e : event) : M state unit :=
  fun s => Done tt {| cafFile := cafFile s; console := console s ++ [e] |}.

Definition readCafHeader : M state ICAFFileHeader :=
  mFileType <- lift (Uint8Array 4) ;;
  mFileVersion <- lift (Uint8Array 2) ;;
  mFileFlags <- lift (Uint8Array 2) ;;
  mFileType <- fileRead mFileType ;;
  mFileVersion <- fileRead mFileVersion ;;
  mFileFlags <- fileRead mFileFlags ;;
  ret {| fileType := str mFileType;
         fileVersion := uint mFileVersion;
         fileFlags := uint mFileFlags |}.

Definition readChunkHeader : M state ICAFChunkHeader :=
  mChunkType <- lift (Uint8Array 4) ;;
  mChunkSize <- lift (Uint8Array 8) ;;
  mChunkType <- fileRead mChunkType ;;
  mChunkSize <- fileRead mChunkSize ;;
  chunkSize <- lift (int64 mChunkSize) ;;
  ret {| chunkType := str mChunkType; chunkSize := chunkSize |}.

(** [readChunk] is only called with a number; [header / 8] is integral
    for every argument the loop passes. *)
Definition readChunk (header : Z) : M state (list Z) :=
  mChunk <- lift (Uint8Array (Z.quot header 8)) ;;
  fileRead mChunk.

Definition tag_desc : text := [0x64; 0x65; 0x73; 0x63].
Definition tag_chan : text := [0x63; 0x68; 0x61; 0x6e].
Definition tag_data : text := [0x64; 0x61; 0x74; 0x61].
Definition tag_pakt : text := [0x70; 0x61; 0x6b; 0x74].

(** [===] on strings. *)
Definition textEq (a b : text) : bool :=
  if list_eq_dec Z.eq_dec a b then true else false.

(** [while (true)], at most [rounds] rounds; [break] returns.  [maxFill]
    is the engine's constant of [ArrayFill]. *)
Fixpoint chunkLoop (maxFill : Z) (rounds : nat) : M state unit :=
  match rounds with
  | O => fun _ => OutOfFuel
  | S rounds' =>
      chunkHeader <- readChunkHeader ;;
      chunkContent <- readChunk (chunkSize chunkHeader * 8) ;;
      if chunkSize chunkHeader =? 0 then ret tt else
      log (LogChunkHeader chunkHeader) ;;;
      (if textEq (chunkType chunkHeader) tag_desc then
         descChunk <- lift (parseAudioFormat chunkContent) ;;
         log (LogAudioFormat descChunk)
       else ret tt) ;;;
      (if textEq (chunkType chunkHeader) tag_chan then
         chanChunk <- lift (parseChannelLayout maxFill chunkContent) ;;
         log (LogChannelLayout chanChunk)
       else ret tt) ;;;
      (if textEq (chunkType chunkHeader) tag_data then
         log (LogData (parseData chunkContent))
       else ret tt) ;;;
      (if textEq (chunkType chunkHeader) tag_pakt then
         paktChunk <- lift (parsePacketTable chunkContent) ;;
         log (LogPacketTable paktChunk)
       else ret tt) ;;;
      chunkLoop maxFill rounds'
  end.

(** The program on a file holding [bytes]. *)
Definition main (maxFill : Z) (rounds : nat) (bytes : list Z)
  : outcome state unit :=
  (cafHeader <- readCafHeader ;;
   log (LogFileHeader cafHeader) ;;;
   chunkLoop maxFill rounds)
    {| cafFile := bytes; console := [] |}.

End ParseCaf.

(** ** What the specification names *)

Module Spec.
Import Js.

(** The four kinds of fatal error of the specification. *)
Inductive kind : Type :=
| InvalidFieldLength
| InvalidMagic
| TruncatedRecord
| UnexpectedEndOfStream.

(** The kind an exception of the programs falls under, by what raises
    it: a fixed-width decoder given the wrong number of bytes, a
    signature loop, a read at the end of the file.  The stop at page 3
    and the runtime's own errors are none of the four. *)
Definition classify (e : error) : option kind :=
  match e with
  | FileStreamFinished => Some UnexpectedEndOfStream
  | InvalidArrayLength => Some InvalidFieldLength
  | InvalidMagicSignature => Some InvalidMagic
  | Stop => None
  | RangeError => None
  | TypeError => None
  end.

(** The capture pattern, ASCII "OggS". *)
Definition capturePattern : list Z := [0x4f; 0x67; 0x67; 0x53].

(** The checksum the specification describes: CRC-32 as in zlib, bit by
    bit, with the reflected form 0xEDB88320 of the polynomial. *)
Definition crcRound (c : Z) : Z :=
  if Z.odd c then Z.lxor 0xEDB88320 (Z.shiftr c 1) else Z.shiftr c 1.

Definition crcByte (crc b : Z) : Z := Nat.iter 8 crcRound (Z.lxor crc b).

Definition crc32 (x : list Z) : Z :=
  Z.lxor (fold_left crcByte x 0xFFFFFFFF) 0xFFFFFFFF.

(** ASCII "123456789". *)
Definition checkInput : list Z :=
  [0x31; 0x32; 0x33; 0x34; 0x35; 0x36; 0x37; 0x38; 0x39].

(** A value as big-endian base-128 digits, every byte but the last with
    bit 0x80 set; [n] bounds the number of leading digits. *)
Fixpoint leadingDigits (n : nat) (v : Z) : list Z :=
  match n with
  | O => []
  | S n' =>
      if v =? 0 then []
      else leadingDigits n' (v / 128) ++ [v mod 128 + 128]
  end.

Definition encodeValue (v : Z) : list Z :=
  leadingDigits (Z.to_nat (Z.log2_up (v + 1))) (v / 128) ++ [v mod 128].

End Spec.

(** ** Pages, for the statements about parseOgg.ts *)

Module OggPages.
Import Js ParseOgg.

Definition mk (c : list (list Z)) (f : list Z) (out : list event) : state :=
  {| cache := c; oggFile := f; console := out |}.

(** Little-endian value of four bytes. *)
Definition le32 (k : list Z) : Z :=
  at0 k 0 + 2 ^ 8 * at0 k 1 + 2 ^ 16 * at0 k 2 + 2 ^ 24 * at0 k 3.

Definition singles (bs : list Z) : list (list Z) := map (fun b => [b]) bs.

(** The report printed for a page, given the contents of [cache] when the
    round began looking at its fixed fields. *)
Definition reportOf (c : list (list Z)) (v t : Z) (g s q k : list Z)
    (segs : list (list Z)) : Report :=
  {| structureVersion := v;
     headerType := t;
     isFreshPacket := negb (truthy (band t 0x1));
     isBos := truthy (shru (band t 0x2) 1);
     isBoe := truthy (shru (band t 0x4) 2);
     absoluteGranulePosition := le32 g;
     streamSerialNumber := le32 s;
     pageSequenceNumber := le32 q;
     pageChecksum := le32 k;
     pageRealChecksum := crc32 (concat c ++ v :: t :: g ++ s ++ q ++ k);
     checksumPassed :=
       le32 k =? crc32 (concat c ++ v :: t :: g ++ s ++ q ++ k);
     pageSegments := len segs;
     segmentTable := map len segs |}.

(** The bytes of a page after its capture pattern. *)
Definition pageBody (v t : Z) (g s q k : list Z) (segs : list (list Z))
  : list Z :=
  v :: t :: g ++ s ++ q ++ k ++ len segs :: map len segs ++ concat segs.

Definition wellSized (g s q k : list Z) (segs : list (list Z)) : Prop :=
  length g = 8%nat /\ length s = 4%nat /\ length q = 4%nat /\
  length k = 4%nat /\ len segs <= 255 /\
  Forall (fun seg => len seg <= 255) segs.

(** [Skipped n l]: [n] rounds that each fail to match the capture pattern
    consume exactly the bytes [l].  A round fails on its first byte, or
    after 0x4f on its second, after 0x4f 0x67 on its third, or after
    0x4f 0x67 0x67 on its fourth. *)
Inductive Skipped : nat -> list Z -> Prop :=
| Skipped_none : Skipped 0 []
| Skipped_first b n l :
    b <> 0x4f -> Skipped n l -> Skipped (S n) (b :: l)
| Skipped_second b n l :
    b <> 0x67 -> Skipped n l -> Skipped (S n) (0x4f :: b :: l)
| Skipped_third b n l :
    b <> 0x67 -> Skipped n l -> Skipped (S n) (0x4f :: 0x67 :: b :: l)
| Skipped_fourth b n l :
    b <> 0x53 -> Skipped n l -> Skipped (S n) (0x4f :: 0x67 :: 0x67 :: b :: l).

(** A step that never puts bytes back into the file. *)
Definition forward {A} (m : M state A) : Prop :=
  forall s a s',
    m s = Done a s' -> (length (oggFile s') <= length (oggFile s))%nat.

(** A page without segments: version 0, header type 2, granule position
    0, serial number 1, the given sequence number, checksum bytes 9. *)
Definition examplePage (sequence : Z) : list Z :=
  Spec.capturePattern
  ++ pageBody 0 2 (repeat 0 8) [1; 0; 0; 0] [sequence; 0; 0; 0] [9; 9; 9; 9] [].

(** The 26 bytes of [examplePage] from its capture pattern through its
    checksum field. *)
Definition exampleHeader (sequence : Z) : list Z :=
  Spec.capturePattern
  ++ 0 :: 2 :: repeat 0 8 ++ [1; 0; 0; 0] ++ [sequence; 0; 0; 0] ++ [9; 9; 9; 9].

(** A comment header: vendor string of the given declared length, a
    comment list of length 1, one comment of declared length 100, and
    only the three bytes "abc" after it. *)
Definition shortTags (vendorLength : Z) : list Z :=
  opusCommentMagicSignature
  ++ [vendorLength; 0; 0; 0] ++ [1; 0; 0; 0] ++ [100; 0; 0; 0]
  ++ [0x61; 0x62; 0x63].

End OggPages.

(** ** Streams, for the statements about the chunked-container program *)

Module CafStreams.
Import Js ParseCaf.

Definition mk (f : list Z) (out : list event) : state :=
  {| cafFile := f; console := out |}.

(** Every element is a byte. *)
Definition bytes (a : list Z) : Prop := Forall (fun b => 0 <= b < 256) a.



(** An engine for the examples: its arrays hold up to 2^27 elements. *)
Definition exampleMaxFill : Z := 2 ^ 27.




(** A 32-byte audio format: 44100 Hz, "lpcm", flags 2, 4 bytes and 1
    frame per packet, 2 channels, 16 bits. *)
Definition descBody : list Z :=
  [0x40; 0xe5; 0x88; 0x80; 0; 0; 0; 0] ++ [0x6c; 0x70; 0x63; 0x6d]
  ++ [0; 0; 0; 2] ++ [0; 0; 0; 4] ++ [0; 0; 0; 1] ++ [0; 0; 0; 2]
  ++ [0; 0; 0; 16].


(** A channel layout that declares two descriptions and holds one and a
    half: 12 + 48 bytes. *)
Definition shortLayout : list Z :=
  [0; 0; 0; 0] ++ [0; 0; 0; 0] ++ [0; 0; 0; 2] ++ repeat 0 48.

End CafStreams.

(** ** Encodings, for the statements about the decoders *)

Module Encodings.
Import Js.

(** The [n] little-endian bytes of [v], and the value of little-endian
    bytes. *)
Fixpoint leBytes (n : nat) (v : Z) : list Z :=
  match n with
  | O => []
  | S n' => v mod 256 :: leBytes n' (v / 256)
  end.

Fixpoint leValue (l : list Z) : Z :=
  match l with
  | [] => 0
  | b :: l' => b + 256 * leValue l'
  end.

(** The [n] big-endian bytes of [v]. *)
Definition beBytes (n : nat) (v : Z) : list Z := rev (leBytes n v).

End Encodings.

(** ** Headers and pages, for more statements about parseOgg.ts *)

Module OggMore.
Import Js ParseOgg OggPages Encodings.

(** Little-endian value of two bytes. *)
Definition le16 (k : list Z) : Z := at0 k 0 + 2 ^ 8 * at0 k 1.

(** The 19 fixed bytes of an identification header: the signature,
    version, channel count, pre-skip (2 bytes), input sample rate (4),
    output gain (2) and mapping family. *)
Definition headBytes (ver cc : Z) (ps sr og : list Z) (mf : Z) : list Z :=
  opusHeadMagicSignature ++ ver :: cc :: ps ++ sr ++ og ++ [mf].

Definition headOf (ver cc : Z) (ps sr og : list Z) (mf : Z)
    (m : option IOpusChannelMapping) : OpusHeader :=
  {| version := ver; channelCount := cc; preSkip := le16 ps;
     inputSampleRate := le32 sr; outputGain := le16 og;
     mappingFamily := mf; mapping := m |}.

(** A comment header as [parseOpusTags] reads it: the signature, the
    length of the vendor string, the vendor string, the comment-list
    length, then each comment after its own length.  [budget] is the
    number of bytes the comments take with their length fields. *)
Definition commentBytes (c : list Z) : list Z := leBytes 4 (len c) ++ c.

Definition budget (cs : list (list Z)) : Z :=
  fold_right (fun c acc => len c + 4 + acc) 0 cs.

Definition tagsPrefix (vendor : list Z) (listLength : Z) : list Z :=
  opusCommentMagicSignature ++ leBytes 4 (len vendor) ++ vendor
  ++ leBytes 4 listLength.

Definition tagsBytes (vendor : list Z) (cs : list (list Z)) : list Z :=
  tagsPrefix vendor (budget cs) ++ concat (map commentBytes cs).

(** A page by its fields, the bytes it takes in the file, and the report
    printed for it when [cache] was empty before its capture pattern. *)
Record Page : Type := {
  pVersion : Z;
  pType : Z;
  pGranule : list Z;
  pSerial : list Z;
  pSequence : list Z;
  pChecksum : list Z;
  pSegments : list (list Z)
}.

Definition pageBytes (p : Page) : list Z :=
  Spec.capturePattern
  ++ pageBody (pVersion p) (pType p) (pGranule p) (pSerial p) (pSequence p)
       (pChecksum p) (pSegments p).

Definition pageReport (p : Page) : Report :=
  reportOf (singles Spec.capturePattern)
    (pVersion p) (pType p) (pGranule p) (pSerial p) (pSequence p)
    (pChecksum p) (pSegments p).

(** A whole page that is neither a codec-header page nor page 3. *)
Definition plainPage (p : Page) : Prop :=
  wellSized (pGranule p) (pSerial p) (pSequence p) (pChecksum p) (pSegments p)
  /\ le32 (pSequence p) <> 0 /\ le32 (pSequence p) <> 1
  /\ le32 (pSequence p) <> 3.

(** The checksum computed bit by bit, eight rounds per byte, right
    shifting, for a polynomial constant [P]. *)
Definition bitRound (P c : Z) : Z :=
  if Z.odd c then Z.lxor P (Z.shiftr c 1) else Z.shiftr c 1.

Definition bitByte (P crc b : Z) : Z := Nat.iter 8 (bitRound P) (Z.lxor crc b).

Definition bitwiseCrc (P : Z) (x : list Z) : Z :=
  Z.lxor (fold_left (bitByte P) x 0xFFFFFFFF) 0xFFFFFFFF.

(** What a run of the scanner can end with: the end-of-file error, the
    stop at page 3, or an error that one of the two codec-header
    decoders throws on some first segment. *)
Definition decoderError (fuel : nat) (e : error) : Prop :=
  exists segment,
    parseOpusHeader segment = Throw e
    \/ parseOpusTags fuel segment = Some (Throw e).

Definition ending (fuel : nat) (e : error) : Prop :=
  e = FileStreamFinished \/ e = Stop \/ decoderError fuel e.

(** A step that, on a file of bytes, leaves a file of bytes and a result
    satisfying [post] when it returns, and throws nothing but an
    [ending]. *)
Definition sound (fuel : nat) {A} (m : M state A) (post : A -> Prop) : Prop :=
  forall s,
    CafStreams.bytes (oggFile s) ->
    match m s with
    | Done a s' => CafStreams.bytes (oggFile s') /\ post a
    | Raise e _ => ending fuel e
    | OutOfFuel => True
    end.

(** A segment that the file ends inside of, as it is read: the bytes
    there are, then zeros up to the declared length. *)
Definition padded (got : list Z) (declared : nat) : list Z :=
  got ++ repeat 0 (declared - length got).

End OggMore.

(** ** The rest of the chunked-container program *)

Module CafMore.
Import Js ParseCaf CafStreams Encodings.

(** [x.toString(2)] for an integer [x], as UTF-16 code units: "0" is
    0x30, "1" is 0x31, "-" is 0x2d. *)
Fixpoint binaryDigits (p : positive) (acc : text) : text :=
  match p with
  | xH => 0x31 :: acc
  | xO p' => binaryDigits p' (0x30 :: acc)
  | xI p' => binaryDigits p' (0x31 :: acc)
  end.

Definition toString2 (x : Z) : text :=
  match x with
  | Z0 => [0x30]
  | Zpos p => binaryDigits p []
  | Zneg p => 0x2d :: binaryDigits p []
  end.

(** [s.padStart(targetLength, fill)] for a one-character [fill]. *)
Definition padStart (s : text) (targetLength : Z) (fill : Z) : text :=
  repeat fill (Z.to_nat (targetLength - len s)) ++ s.

(** [[...array].map((x) => x.toString(2).padStart(8, "0")).join("")]. *)
Definition inspectBinary (array : list Z) : text :=
  concat (map (fun x => padStart (toString2 x) 8 0x30) array).

(** Reading a binary numeral, and cutting a text into [n] groups of
    eight characters. *)
Definition readBinary (s : text) : Z :=
  fold_left (fun acc c => 2 * acc + (c - 0x30)) s 0.

Fixpoint groups (n : nat) (s : text) : list text :=
  match n with
  | O => []
  | S n' => firstn 8 s :: groups n' (skipn 8 s)
  end.

(** A whole chunk: its type, its size as 8 big-endian bytes, its body. *)
Definition chunkBytes (tag body : list Z) : list Z :=
  tag ++ beBytes 8 (len body) ++ body.

Definition chunkHeaderOf (tag body : list Z) : ICAFChunkHeader :=
  {| chunkType := str tag; chunkSize := len body |}.

(** A chunk type the loop has no decoder for. *)
Definition otherTag (tag : list Z) : Prop :=
  tag <> tag_desc /\ tag <> tag_chan /\ tag <> tag_data /\ tag <> tag_pakt.

(** A channel description by its five fields. *)
Definition descriptionBytes (label flags c1 c2 c3 : list Z) : list Z :=
  label ++ flags ++ c1 ++ c2 ++ c3.

Definition descriptionOf (label flags c1 c2 c3 : list Z)
  : ICAFChannelDescription :=
  {| channelLabel := uint label;
     channelFlags := uint flags;
     coordinates :=
       (Float64 (bigEndian c1), Float64 (bigEndian c2),
        Float64 (bigEndian c3)) |}.

End CafMore.

(** ** Facts about the primitives *)

Module JsFacts.
Import Js.

Lemma len_app {A} (a b : list A) : len (a ++ b) = len a + len b.
Proof. unfold len. rewrite length_app. lia. Qed.

Lemma len_nonneg {A} (a : list A) : 0 <= len a.
Proof. unfold len. lia. Qed.

(** A read that finds as many bytes as the buffer holds fills it. *)
Lemma FsFile_read_full (p bs rest : list Z) :
  length p = length bs ->
  FsFile.read (bs ++ rest) p = (Some (len bs), bs, rest).
Proof.
  intros Hlen.
  assert (Hf : firstn (length p) (bs ++ rest) = bs).
  { rewrite Hlen, firstn_app, firstn_all, Nat.sub_diag. apply app_nil_r. }
  assert (Hs : skipn (length p) (bs ++ rest) = rest).
  { rewrite Hlen, skipn_app, skipn_all, Nat.sub_diag. reflexivity. }
  assert (Hp : skipn (length bs) p = []).
  { rewrite <- Hlen. apply skipn_all. }
  unfold FsFile.read.
  destruct p as [|p0 p'].
  - destruct bs; [reflexivity | discriminate].
  - destruct (bs ++ rest) as [|x f] eqn:E.
    + destruct bs; discriminate.
    + rewrite Hf, Hs, Hp, app_nil_r. reflexivity.
Qed.

Lemma Uint8Array_small (n : nat) :
  Z.of_nat n <= maxIndex ->
  Uint8Array (Z.of_nat n) = Ok (repeat 0 n).
Proof.
  intros H. unfold Uint8Array.
  replace (Z.of_nat n <? 0) with false by (symmetry; apply Z.ltb_ge; lia).
  replace (maxIndex <? Z.of_nat n) with false by (symmetry; apply Z.ltb_ge; lia).
  cbn [orb]. now rewrite Nat2Z.id.
Qed.

(** The length of a slice between two non-negative positions. *)
Lemma slice_len (a : list Z) (start stop : Z) :
  0 <= start <= stop ->
  len (slice a start stop) = Z.min stop (len a) - Z.min start (len a).
Proof.
  intros H. unfold slice, relIndex.
  replace (start <? 0) with false by (symmetry; apply Z.ltb_ge; lia).
  replace (stop <? 0) with false by (symmetry; apply Z.ltb_ge; lia).
  unfold len. rewrite length_firstn, length_skipn. lia.
Qed.

Lemma mapR_error {A B} (f : A -> result B) (l : list A) (e : error) :
  mapR f l = Throw e -> exists x, In x l /\ f x = Throw e.
Proof.
  induction l as [|x l IH]; cbn; [discriminate|].
  destruct (f x) as [y|e'] eqn:E.
  - destruct (mapR f l) as [ys|e'']; [discriminate|].
    intros H. destruct (IH H) as (x' & Hin & Hx'). eauto.
  - intros H. inversion H; subst. eauto.
Qed.

(** When [f] can only throw [e] and throws on some element, so does the
    map. *)
Lemma mapR_throws {A B} (f : A -> result B) (l : list A) (e : error) :
  (forall x e', f x = Throw e' -> e' = e) ->
  (exists x, In x l /\ f x = Throw e) ->
  mapR f l = Throw e.
Proof.
  intros Honly (x & Hin & Hx).
  destruct (mapR f l) as [ys|e'] eqn:E.
  - exfalso. revert ys E. induction l as [|x0 l IH]; [destruct Hin|].
    cbn. intros ys. destruct (f x0) as [y|] eqn:E0; [|discriminate].
    destruct (mapR f l) as [ys'|] eqn:E1; [|discriminate].
    destruct Hin as [->|Hin]; [congruence|]. intros _. eapply IH; eauto.
  - apply mapR_error in E. destruct E as (x' & _ & Hx').
    f_equal. eapply Honly; eauto.
Qed.


Lemma ToInt32_small (x : Z) : 0 <= x < 2 ^ 31 -> ToInt32 x = x.
Proof.
  intros H. unfold ToInt32. rewrite Z.mod_small by lia.
  replace (x <? 2 ^ 31) with true by (symmetry; apply Z.ltb_lt; lia).
  reflexivity.
Qed.

End JsFacts.

(** ** Facts about parseOgg.ts *)

Module OggFacts.
Import Js JsFacts ParseOgg OggPages.
Local Open Scope js_scope.

Lemma read_cons c b f out :
  read (mk c (b :: f) out) = Done b (mk (c ++ [[b]]) f out).
Proof. reflexivity. Qed.

Lemma read_nil c out :
  read (mk c [] out) = Raise FileStreamFinished (mk c [] out).
Proof. reflexivity. Qed.

Lemma readMultiple_full (n : nat) c bs rest out :
  length bs = n -> Z.of_nat n <= maxIndex ->
  readMultiple (Z.of_nat n) (mk c (bs ++ rest) out)
  = Done bs (mk (c ++ [bs]) rest out).
Proof.
  intros Hlen Hmax. unfold readMultiple, bind, lift.
  rewrite (Uint8Array_small n Hmax).
  unfold fileRead. cbn [oggFile mk].
  rewrite (FsFile_read_full (repeat 0 n) bs rest)
    by (rewrite repeat_length; congruence).
  reflexivity.
Qed.

Lemma uInt32Le_four k : length k = 4%nat -> uInt32Le k = Ok (le32 k).
Proof.
  intros H. unfold uInt32Le, getUint32LE, inView, len. rewrite H. reflexivity.
Qed.

Lemma uInt64Le_eight g : length g = 8%nat -> uInt64Le g = Ok (le32 g).
Proof.
  intros H. unfold uInt64Le, getUint32LE, inView, len. rewrite H. reflexivity.
Qed.

Lemma concat_singles bs : concat (singles bs) = bs.
Proof.
  induction bs as [|b bs IH]; cbn; [reflexivity | f_equal; exact IH].
Qed.

(** A round that fails to match the capture pattern ends, with the bytes
    it read left in [cache]. *)
Lemma loopBody_skip fuel c b f out :
  b <> 0x4f ->
  loopBody fuel (mk c (b :: f) out) = Done tt (mk (c ++ [[b]]) f out).
Proof.
  intros Hb. unfold loopBody, bind at 1. rewrite read_cons.
  apply Z.eqb_neq in Hb. rewrite Hb. reflexivity.
Qed.

Lemma loopBody_skip_second fuel c b f out :
  b <> 0x67 ->
  loopBody fuel (mk c (0x4f :: b :: f) out)
  = Done tt (mk (c ++ [[0x4f]; [b]]) f out).
Proof.
  intros Hb. unfold loopBody.
  unfold bind at 1. rewrite read_cons. cbn [Z.eqb Pos.eqb negb].
  unfold bind at 1. rewrite read_cons.
  apply Z.eqb_neq in Hb. rewrite Hb.
  unfold ret. now rewrite <- app_assoc.
Qed.

Lemma loopBody_skip_third fuel c b f out :
  b <> 0x67 ->
  loopBody fuel (mk c (0x4f :: 0x67 :: b :: f) out)
  = Done tt (mk (c ++ [[0x4f]; [0x67]; [b]]) f out).
Proof.
  intros Hb. unfold loopBody.
  unfold bind at 1. rewrite read_cons. cbn [Z.eqb Pos.eqb negb].
  unfold bind at 1. rewrite read_cons. cbn [Z.eqb Pos.eqb negb].
  unfold bind at 1. rewrite read_cons.
  apply Z.eqb_neq in Hb. rewrite Hb.
  unfold ret. now rewrite <- !app_assoc.
Qed.

Lemma loopBody_skip_fourth fuel c b f out :
  b <> 0x53 ->
  loopBody fuel (mk c (0x4f :: 0x67 :: 0x67 :: b :: f) out)
  = Done tt (mk (c ++ [[0x4f]; [0x67]; [0x67]; [b]]) f out).
Proof.
  intros Hb. unfold loopBody.
  unfold bind at 1. rewrite read_cons. cbn [Z.eqb Pos.eqb negb].
  unfold bind at 1. rewrite read_cons. cbn [Z.eqb Pos.eqb negb].
  unfold bind at 1. rewrite read_cons. cbn [Z.eqb Pos.eqb negb].
  unfold bind at 1. rewrite read_cons.
  apply Z.eqb_neq in Hb. rewrite Hb.
  unfold ret. now rewrite <- !app_assoc.
Qed.

(** Failed rounds leave everything they consumed in [cache]. *)
Lemma mainLoop_skip fuel r n skipped :
  Skipped n skipped ->
  forall c f out,
    mainLoop fuel (n + r) (mk c (skipped ++ f) out)
    = mainLoop fuel r (mk (c ++ singles skipped) f out).
Proof.
  induction 1 as [|b n l Hb _ IH|b n l Hb _ IH|b n l Hb _ IH|b n l Hb _ IH];
    intros c f out.
  - cbn. now rewrite app_nil_r.
  - cbn [Nat.add mainLoop app]. unfold bind at 1.
    rewrite (loopBody_skip fuel c b (l ++ f) out Hb).
    rewrite IH. cbn [singles map]. now rewrite <- app_assoc.
  - cbn [Nat.add mainLoop app]. unfold bind at 1.
    rewrite (loopBody_skip_second fuel c b (l ++ f) out Hb).
    rewrite IH. cbn [singles map]. now rewrite <- app_assoc.
  - cbn [Nat.add mainLoop app]. unfold bind at 1.
    rewrite (loopBody_skip_third fuel c b (l ++ f) out Hb).
    rewrite IH. cbn [singles map]. now rewrite <- app_assoc.
  - cbn [Nat.add mainLoop app]. unfold bind at 1.
    rewrite (loopBody_skip_fourth fuel c b (l ++ f) out Hb).
    rewrite IH. cbn [singles map]. now rewrite <- app_assoc.
Qed.

(** Bytes other than 0x4f are skipped one per round. *)
Lemma Skipped_no_0x4f l :
  Forall (fun b => b <> 0x4f) l -> Skipped (length l) l.
Proof.
  induction 1 as [|b l Hb _ IH]; [constructor|].
  cbn [length]. now apply Skipped_first.
Qed.

(** The capture pattern where it is looked for starts the page read. *)
Lemma loopBody_sync fuel c f out :
  loopBody fuel (mk c (Spec.capturePattern ++ f) out)
  = readPage fuel (mk (c ++ singles Spec.capturePattern) f out).
Proof.
  unfold loopBody, Spec.capturePattern. cbn [app].
  unfold bind at 1. rewrite read_cons. cbn [Z.eqb Pos.eqb negb].
  unfold bind at 1. rewrite read_cons. cbn [Z.eqb Pos.eqb negb].
  unfold bind at 1. rewrite read_cons. cbn [Z.eqb Pos.eqb negb].
  unfold bind at 1. rewrite read_cons. cbn [Z.eqb Pos.eqb negb].
  cbn [singles map]. repeat rewrite <- app_assoc. reflexivity.
Qed.

Lemma maxIndex_small : 255 <= maxIndex.
Proof. unfold maxIndex. lia. Qed.

(** The fixed fields of a page whose 22 bytes are there. *)
Lemma readFixedFields_full c v t g s q k rest out :
  length g = 8%nat -> length s = 4%nat ->
  length q = 4%nat -> length k = 4%nat ->
  readFixedFields (mk c (v :: t :: g ++ s ++ q ++ k ++ rest) out)
  = Done {| fStructureVersion := v; fHeaderType := t;
            fAbsoluteGranulePosition := g; fStreamSerialNumber := s;
            fPageSequenceNumber := q; fPageChecksum := le32 k |}
         (mk (c ++ [[v]; [t]; g; s; q; k]) rest out).
Proof.
  intros Hg Hs Hq Hk. pose proof maxIndex_small as Hm.
  unfold readFixedFields.
  unfold bind at 1. rewrite read_cons.
  unfold bind at 1. rewrite read_cons.
  unfold bind at 1.
  rewrite (readMultiple_full 8 _ g _ out Hg) by lia.
  unfold bind at 1.
  rewrite (readMultiple_full 4 _ s _ out Hs) by lia.
  unfold bind at 1.
  rewrite (readMultiple_full 4 _ q _ out Hq) by lia.
  unfold bind at 1.
  rewrite (readMultiple_full 4 _ k _ out Hk) by lia.
  unfold bind at 1, lift. rewrite (uInt32Le_four k Hk). unfold ret.
  repeat rewrite <- app_assoc. reflexivity.
Qed.

(** The segments of a page whose bytes are all there. *)
Lemma readSegments_full segs :
  Forall (fun seg => len seg <= maxIndex) segs ->
  forall pre c rest out,
    readSegments (pre ++ map len segs) (length segs) (len pre)
                 (mk c (concat segs ++ rest) out)
    = Done segs (mk (c ++ segs) rest out).
Proof.
  induction 1 as [|seg segs Hseg _ IH]; intros pre c rest out.
  - cbn. now rewrite app_nil_r.
  - cbn [length readSegments map concat].
    assert (Hat : at0 (pre ++ len seg :: map len segs) (len pre) = len seg).
    { unfold at0, len.
      replace (Z.of_nat (length pre) <? 0) with false
        by (symmetry; apply Z.ltb_ge; lia).
      rewrite Nat2Z.id, app_nth2, Nat.sub_diag by lia. reflexivity. }
    unfold bind at 1. rewrite Hat. unfold len at 1.
    rewrite <- app_assoc.
    rewrite (readMultiple_full (length seg) c seg _ out eq_refl Hseg).
    unfold bind at 1.
    replace (pre ++ len seg :: map len segs)
      with ((pre ++ [len seg]) ++ map len segs)
      by (now rewrite <- app_assoc).
    replace (len pre + 1) with (len (pre ++ [len seg]))
      by (rewrite len_app; reflexivity).
    rewrite IH. unfold ret. now rewrite <- app_assoc.
Qed.

(** Reading a page whose bytes are all there: the report is printed and
    the dispatch runs on its sequence number and segments. *)
Lemma readPage_full fuel c v t g s q k segs rest out :
  wellSized g s q k segs ->
  readPage fuel (mk c (pageBody v t g s q k segs ++ rest) out)
  = dispatch fuel (le32 q) segs
      (mk (c ++ [[v]; [t]; g; s; q; k; [len segs]; map len segs] ++ segs)
          rest (out ++ [LogReport (reportOf c v t g s q k segs)])).
Proof.
  intros (Hg & Hs & Hq & Hk & Hn & Hsegs).
  pose proof maxIndex_small as Hm.
  unfold readPage, pageBody. cbn [app]. repeat rewrite <- app_assoc.
  cbn [app]. repeat rewrite <- app_assoc.
  unfold bind at 1.
  rewrite (readFixedFields_full c v t g s q k _ out Hg Hs Hq Hk).
  unfold bind at 1, getMergedCache. cbn [cache mk].
  cbn [fStructureVersion fHeaderType fAbsoluteGranulePosition
       fStreamSerialNumber fPageSequenceNumber fPageChecksum].
  unfold bind at 1. rewrite read_cons.
  unfold bind at 1. unfold len at 1.
  rewrite (readMultiple_full (length segs) _ (map len segs) _ out)
    by (rewrite ?length_map; fold (len segs); (reflexivity || lia)).
  replace (Z.to_nat (len segs)) with (length segs)
    by (unfold len; now rewrite Nat2Z.id).
  unfold bind at 1.
  assert (Hsegs' : Forall (fun seg => len seg <= maxIndex) segs).
  { eapply Forall_impl; [|exact Hsegs]. cbn. intros; lia. }
  pose proof (readSegments_full segs Hsegs' [] ) as Hrs. cbn [app len length] in Hrs.
  change (Z.of_nat 0) with 0 in Hrs. rewrite Hrs.
  unfold bind at 1, lift. rewrite (uInt64Le_eight g Hg).
  unfold bind at 1. rewrite (uInt32Le_four s Hs).
  unfold bind at 1. rewrite (uInt32Le_four q Hq).
  unfold bind at 1, log. cbn [cache oggFile console mk].
  f_equal. unfold mk, reportOf. f_equal.
  - repeat rewrite <- app_assoc. reflexivity.
  - do 2 f_equal. f_equal.
    all: rewrite concat_app; cbn [concat app]; repeat rewrite <- app_assoc;
      cbn [app]; rewrite ?app_nil_r; reflexivity.
Qed.

(** The dispatch on a sequence number other than 0, 1 and 3 only resets
    [cache]. *)
Lemma dispatch_other fuel sequence segs c f out :
  sequence <> 0 -> sequence <> 1 -> sequence <> 3 ->
  dispatch fuel sequence segs (mk c f out) = Done tt (mk [] f out).
Proof.
  intros H0 H1 H3. unfold dispatch.
  apply Z.eqb_neq in H0, H1, H3. rewrite H0, H1, H3. reflexivity.
Qed.


Lemma dispatch_header_no_segment fuel c f out :
  dispatch fuel 0 [] (mk c f out)
  = Raise TypeError (mk c f (out ++ [LogHeaderPage])).
Proof. reflexivity. Qed.

Lemma dispatch_tags_no_segment fuel c f out :
  dispatch fuel 1 [] (mk c f out)
  = Raise TypeError (mk c f (out ++ [LogTagsPage])).
Proof. reflexivity. Qed.

(** A round that throws ends the loop. *)
Lemma mainLoop_raise fuel rounds st e st' :
  loopBody fuel st = Raise e st' ->
  mainLoop fuel (S rounds) st = Raise e st'.
Proof. intros H. cbn [mainLoop]. unfold bind. now rewrite H. Qed.

Lemma mainLoop_next fuel rounds st st' :
  loopBody fuel st = Done tt st' ->
  mainLoop fuel (S rounds) st = mainLoop fuel rounds st'.
Proof. intros H. cbn [mainLoop]. unfold bind. now rewrite H. Qed.

(** A whole page whose sequence number is none of 0, 1 and 3 is reported
    and the next round starts after it with [cache] empty. *)
Lemma mainLoop_page fuel rounds c out v t g s q k segs rest :
  wellSized g s q k segs ->
  le32 q <> 0 -> le32 q <> 1 -> le32 q <> 3 ->
  mainLoop fuel (S rounds)
    (mk c (Spec.capturePattern ++ pageBody v t g s q k segs ++ rest) out)
  = mainLoop fuel rounds
      (mk [] rest
          (out ++ [LogReport
                     (reportOf (c ++ singles Spec.capturePattern)
                        v t g s q k segs)])).
Proof.
  intros Hw H0 H1 H3. apply mainLoop_next.
  rewrite loopBody_sync, readPage_full by assumption.
  now apply dispatch_other.
Qed.


(** *** Progress *)

Lemma forward_bind {A B} (c : M state A) (k : A -> M state B) :
  forward c -> (forall a, forward (k a)) -> forward (x <- c ;; k x).
Proof.
  intros Hc Hk s b s'. unfold bind.
  destruct (c s) as [a s1| |] eqn:E; try discriminate.
  intros H. apply Hc in E. apply Hk in H. lia.
Qed.

Lemma forward_same {A} (m : M state A) :
  (forall s a s', m s = Done a s' -> oggFile s' = oggFile s) -> forward m.
Proof. intros H s a s' E. apply H in E. rewrite E. lia. Qed.

Lemma forward_ret {A} (a : A) : forward (ret a).
Proof. apply forward_same. intros s b s' H. inversion H. reflexivity. Qed.

Lemma forward_lift {A} (r : result A) : forward (lift r).
Proof.
  apply forward_same. intros s b s'. unfold lift.
  destruct r; intros H; inversion H. reflexivity.
Qed.

Lemma forward_liftFuel {A} (r : option (result A)) : forward (liftFuel r).
Proof.
  apply forward_same. intros s b s'. unfold liftFuel.
  destruct r as [[|]|]; intros H; inversion H. reflexivity.
Qed.

Lemma forward_throw {A} e : forward (@throw A e).
Proof. intros s a s' H. discriminate. Qed.

Lemma forward_log e : forward (log e).
Proof. apply forward_same. intros s b s' H. inversion H. reflexivity. Qed.

Lemma forward_cachePush a : forward (cachePush a).
Proof. apply forward_same. intros s b s' H. inversion H. reflexivity. Qed.

Lemma forward_cacheReset : forward cacheReset.
Proof. apply forward_same. intros s b s' H. inversion H. reflexivity. Qed.

Lemma forward_getMergedCache : forward getMergedCache.
Proof. apply forward_same. intros s b s' H. inversion H. reflexivity. Qed.

Lemma forward_fileRead p : forward (fileRead p).
Proof.
  intros [c f out] a s'. unfold fileRead, FsFile.read. cbn [oggFile].
  destruct p as [|p0 p]; [|destruct f as [|b f]].
  - intros H. inversion H. cbn. lia.
  - intros H. inversion H. cbn. lia.
  - intros H. inversion H. cbn [oggFile]. rewrite length_skipn. cbn [length]. lia.
Qed.

Lemma forward_readMultiple n : forward (readMultiple n).
Proof.
  unfold readMultiple.
  apply forward_bind; [apply forward_lift|]. intros byte.
  apply forward_bind; [apply forward_fileRead|]. intros [[r|] b].
  - apply forward_bind; [apply forward_cachePush|]. intros _. apply forward_ret.
  - apply forward_throw.
Qed.

(** A [read] that returns has consumed a byte. *)
Lemma read_consumes s b s' :
  read s = Done b s' -> (length (oggFile s') < length (oggFile s))%nat.
Proof.
  destruct s as [c f out]. destruct f as [|x f]; [discriminate|].
  intros H. pose proof (read_cons c x f out) as R. unfold mk in R.
  rewrite R in H. inversion H. cbn. lia.
Qed.

Lemma forward_read : forward read.
Proof. intros s a s' H. apply read_consumes in H. lia. Qed.

Lemma forward_readSegments table count :
  forall i, forward (readSegments table count i).
Proof.
  induction count as [|count IH]; intros i; cbn [readSegments].
  - apply forward_ret.
  - apply forward_bind; [apply forward_readMultiple|]. intros seg.
    apply forward_bind; [apply IH|]. intros segs. apply forward_ret.
Qed.

Lemma forward_if {A} (b : bool) (m1 m2 : M state A) :
  forward m1 -> forward m2 -> forward (if b then m1 else m2).
Proof. destruct b; auto. Qed.

Create HintDb forward.
#[local] Hint Resolve forward_ret forward_lift forward_liftFuel forward_throw
  forward_log forward_cacheReset forward_getMergedCache forward_read
  forward_readMultiple forward_readSegments : forward.

Ltac forward_steps :=
  repeat (cbv zeta;
          first [ solve [auto with forward]
                | apply forward_bind; [|intros ?]
                | apply forward_if ]).

Lemma forward_dispatch fuel sequence segments :
  forward (dispatch fuel sequence segments).
Proof. unfold dispatch. forward_steps. Qed.

#[local] Hint Resolve forward_dispatch : forward.




(** *** The checksum *)

(** C1.  On the ASCII bytes "123456789" [crc32] returns 0xFC4F2BE9, not
    the reference value 0xCBF43926 of the standard CRC-32, which the bit
    by bit definition with the reflected polynomial does return: the
    table is built with 0x04c11db7 where the right-shifting rounds need
    its reflected form 0xEDB88320. *)
Theorem crc32_check_value_differs :
  crc32 Spec.checkInput = 0xFC4F2BE9
  /\ crc32 Spec.checkInput <> 0xCBF43926
  /\ Spec.crc32 Spec.checkInput = 0xCBF43926.
Proof. repeat split; vm_compute; congruence. Qed.

(** *** The buffer the checksum is computed over *)

(** C2, as stated, fails: with three bytes before the capture pattern the
    buffer handed to [crc32] starts with those three bytes, and the
    checksum printed in the report is theirs too. *)
Lemma skipped_bytes_are_checksummed :
  (exists st,
      (loopBody 0 ;;; loopBody 0 ;;; loopBody 0 ;;;
       read ;;; read ;;; read ;;; read ;;;
       readFixedFields ;;; getMergedCache)
        (mk [] ([1; 2; 3] ++ examplePage 2) [])
      = Done ([1; 2; 3] ++ exampleHeader 2) st)
  /\ [1; 2; 3] ++ exampleHeader 2 <> exampleHeader 2
  /\ main 0 5 ([1; 2; 3] ++ examplePage 2)
     = Raise FileStreamFinished
         (mk [] []
            [LogReport
               (reportOf (singles ([1; 2; 3] ++ Spec.capturePattern))
                  0 2 (repeat 0 8) [1; 0; 0; 0] [2; 0; 0; 0] [9; 9; 9; 9] [])])
  /\ crc32 ([1; 2; 3] ++ exampleHeader 2) <> crc32 (exampleHeader 2).
Proof.
  split; [eexists; vm_compute; reflexivity|].
  repeat split; vm_compute; congruence.
Qed.

(** *** Synchronization *)

(** After rounds that failed, a capture pattern at the start of a round
    is found and the page after it is read. *)
Lemma mainLoop_finds_pattern fuel rounds c out n skipped f :
  Skipped n skipped ->
  mainLoop fuel (n + S rounds)
    (mk c (skipped ++ Spec.capturePattern ++ f) out)
  = (readPage fuel ;;; mainLoop fuel rounds)
      (mk (c ++ singles (skipped ++ Spec.capturePattern)) f out).
Proof.
  intros Hsk. rewrite (mainLoop_skip _ _ _ _ Hsk).
  cbn [mainLoop]. unfold bind at 1. rewrite loopBody_sync.
  unfold bind. unfold singles. rewrite map_app, (app_assoc c). reflexivity.
Qed.

(** C3.  A capture pattern that follows a byte 0x4f is not found: the
    round that read the 0x4f reads the pattern's first byte as its second
    byte and gives up, and the rest of the pattern is skipped byte by
    byte.  With the three bytes 0, 0, 0x4f before a page without
    segments, no page is reported and the run ends at the end of the
    file.  When none of the bytes before the pattern is 0x4f the pattern
    is found and the page read begins at the next byte; with the three
    bytes 1, 2, 3 before the same page exactly one page is reported. *)
Theorem capture_pattern_after_0x4f_is_missed :
  (forall fuel rounds c f out,
      mainLoop fuel (4 + rounds)
        (mk c (0x4f :: Spec.capturePattern ++ f) out)
      = mainLoop fuel rounds
          (mk (c ++ singles (0x4f :: Spec.capturePattern)) f out))
  /\ main 0 30 ([0; 0; 0x4f] ++ examplePage 2)
     = Raise FileStreamFinished
         (mk (singles ([0; 0; 0x4f] ++ examplePage 2)) [] [])
  /\ (forall fuel rounds c out garbage f,
        Forall (fun b => b <> 0x4f) garbage ->
        mainLoop fuel (length garbage + S rounds)
          (mk c (garbage ++ Spec.capturePattern ++ f) out)
        = (readPage fuel ;;; mainLoop fuel rounds)
            (mk (c ++ singles (garbage ++ Spec.capturePattern)) f out))
  /\ main 0 5 ([1; 2; 3] ++ examplePage 2)
     = Raise FileStreamFinished
         (mk [] []
            [LogReport
               (reportOf (singles ([1; 2; 3] ++ Spec.capturePattern))
                  0 2 (repeat 0 8) [1; 0; 0; 0] [2; 0; 0; 0] [9; 9; 9; 9] [])]).
Proof.
  split; [|split; [vm_compute; reflexivity|split; [|vm_compute; reflexivity]]].
  - intros fuel rounds c f out.
    apply (mainLoop_skip fuel rounds 4 (0x4f :: Spec.capturePattern)).
    unfold Spec.capturePattern.
    apply Skipped_second; [lia|].
    repeat (apply Skipped_first; [lia|]). apply Skipped_none.
  - intros fuel rounds c out garbage f Hg.
    apply mainLoop_finds_pattern. now apply Skipped_no_0x4f.
Qed.

Lemma capture_pattern_after_0x4f_is_missed_witness :
  mainLoop 0 (3 + 2) (mk [] ([1; 2; 3] ++ examplePage 2) [])
  = (readPage 0 ;;; mainLoop 0 1)
      (mk (singles ([1; 2; 3] ++ Spec.capturePattern))
          (pageBody 0 2 (repeat 0 8) [1; 0; 0; 0] [2; 0; 0; 0] [9; 9; 9; 9] [])
          []).
Proof.
  refine (proj1 (proj2 (proj2 capture_pattern_after_0x4f_is_missed))
            0%nat 1%nat [] [] [1; 2; 3]
            (pageBody 0 2 (repeat 0 8) [1; 0; 0; 0] [2; 0; 0; 0] [9; 9; 9; 9] [])
            _).
  repeat (apply Forall_cons; [lia|]). apply Forall_nil.
Defined.

(** *** How a run ends *)


(** *** The codec-header dispatch *)

(** C10.  A page without segments whose sequence number is 0 or 1 is
    reported, the dispatch announces the header or tags page, and the
    decoder called on the missing first segment throws a [TypeError],
    which is none of the four kinds of error of the specification; the
    run ends there. *)
Theorem header_dispatch_needs_a_segment :
  forall fuel rounds c out v t g s q k rest,
    length g = 8%nat -> length s = 4%nat ->
    length q = 4%nat -> length k = 4%nat ->
    le32 q = 0 \/ le32 q = 1 ->
    mainLoop fuel (S rounds)
      (mk c (Spec.capturePattern ++ pageBody v t g s q k [] ++ rest) out)
    = Raise TypeError
        (mk ((c ++ singles Spec.capturePattern)
             ++ [[v]; [t]; g; s; q; k; [0]; []])
            rest
            (out ++ [LogReport
                       (reportOf (c ++ singles Spec.capturePattern)
                          v t g s q k []);
                     if le32 q =? 0 then LogHeaderPage else LogTagsPage]))
    /\ Spec.classify TypeError = None.
Proof.
  intros fuel rounds c out v t g s q k rest Hg Hs Hq Hk Hseq.
  split; [|reflexivity].
  apply mainLoop_raise. rewrite loopBody_sync.
  rewrite readPage_full
    by (unfold wellSized, len; cbn; repeat split; auto; lia).
  destruct Hseq as [H|H]; rewrite H; cbn [Z.eqb].
  - rewrite dispatch_header_no_segment.
    rewrite app_nil_r, <- (app_assoc out). reflexivity.
  - rewrite dispatch_tags_no_segment.
    rewrite app_nil_r, <- (app_assoc out). reflexivity.
Qed.

Lemma header_dispatch_needs_a_segment_witness :
  mainLoop 0 1 (mk [] (examplePage 0 ++ [5]) [])
  = Raise TypeError
      (mk (singles Spec.capturePattern
           ++ [[0]; [2]; repeat 0 8; [1; 0; 0; 0]; [0; 0; 0; 0]; [9; 9; 9; 9];
               [0]; []])
          [5]
          [LogReport
             (reportOf (singles Spec.capturePattern)
                0 2 (repeat 0 8) [1; 0; 0; 0] [0; 0; 0; 0] [9; 9; 9; 9] []);
           LogHeaderPage]).
Proof.
  refine (proj1 (header_dispatch_needs_a_segment 0 0 [] [] 0 2 (repeat 0 8)
                   [1; 0; 0; 0] [0; 0; 0; 0] [9; 9; 9; 9] [5]
                   eq_refl eq_refl eq_refl eq_refl _)).
  left. reflexivity.
Defined.

(** *** The comment header *)

Lemma getInt32LE_outside buf off :
  len buf < off + 4 -> getInt32LE buf off = Throw RangeError.
Proof.
  intros H. unfold getInt32LE, getUint32LE, inView.
  replace (off + 4 <=? len buf) with false by (symmetry; apply Z.leb_gt; lia).
  rewrite andb_false_r. reflexivity.
Qed.

(** C9, as stated, fails: a comment whose declared length of 100 runs
    past the end of the payload is returned, cut off at the end, in a
    record; and a vendor length that runs past the end makes the read of
    the next length field throw a [RangeError], which is none of the four
    kinds of error. *)
Lemma truncated_comment_is_returned :
  parseOpusTags 1 (Some (shortTags 0))
  = Some (Ok {| vendorString := [];
                userCommentString := [[0x61; 0x62; 0x63]] |})
  /\ parseOpusTags 1 (Some (shortTags 200)) = Some (Throw RangeError)
  /\ Spec.classify RangeError <> Some Spec.TruncatedRecord.
Proof. repeat split; vm_compute; congruence. Qed.

End OggFacts.

(** ** Facts about the chunked-container program *)

Module CafFacts.
Import Js JsFacts ParseCaf CafStreams.
Local Open Scope js_scope.

(** [file.read] never fails; it fills the buffer when the bytes are
    there. *)
Lemma fileRead_full p bs rest out :
  length p = length bs ->
  fileRead p (mk (bs ++ rest) out) = Done bs (mk rest out).
Proof.
  intros H. unfold fileRead. cbn [cafFile mk].
  now rewrite (FsFile_read_full p bs rest H).
Qed.

Lemma readChunkHeader_full tag size rest out :
  length tag = 4%nat -> length size = 8%nat ->
  readChunkHeader (mk (tag ++ size ++ rest) out)
  = lift (chunkSize <-- int64 size ;;
          Ok {| chunkType := str tag; chunkSize := chunkSize |})
      (mk rest out).
Proof.
  intros Ht Hs. unfold readChunkHeader.
  unfold bind at 1, lift at 1. cbn [Uint8Array orb Z.ltb Z.compare].
  unfold bind at 1, lift at 1. cbn.
  unfold bind at 1.
  rewrite (fileRead_full _ tag (size ++ rest) out) by (rewrite Ht; reflexivity).
  unfold bind at 1.
  rewrite (fileRead_full _ size rest out) by (rewrite Hs; reflexivity).
  unfold bind, lift, rbind. destruct (int64 size); reflexivity.
Qed.

Lemma readCafHeader_full ft fv ff rest out :
  length ft = 4%nat -> length fv = 2%nat -> length ff = 2%nat ->
  readCafHeader (mk (ft ++ fv ++ ff ++ rest) out)
  = Done {| fileType := str ft; fileVersion := uint fv; fileFlags := uint ff |}
         (mk rest out).
Proof.
  intros H4 H2 H2'.
  assert (U4 : Uint8Array 4 = Ok (repeat 0 4)) by reflexivity.
  assert (U2 : Uint8Array 2 = Ok (repeat 0 2)) by reflexivity.
  unfold readCafHeader, bind, lift. rewrite U4, U2. cbv beta iota.
  rewrite (fileRead_full _ ft _ out) by (rewrite H4; reflexivity).
  rewrite (fileRead_full _ fv _ out) by (rewrite H2; reflexivity).
  rewrite (fileRead_full _ ff _ out) by (rewrite H2'; reflexivity).
  reflexivity.
Qed.


Lemma readChunk_full (n : nat) body rest out :
  length body = n -> Z.of_nat n <= maxIndex ->
  readChunk (Z.of_nat n * 8) (mk (body ++ rest) out) = Done body (mk rest out).
Proof.
  intros Hn Hmax. unfold readChunk.
  rewrite Z.quot_mul by lia.
  unfold bind, lift. rewrite (Uint8Array_small n Hmax).
  apply fileRead_full. rewrite repeat_length. congruence.
Qed.


Lemma float64_eight a : len a = 8 -> float64 a = Ok (Float64 (bigEndian a)).
Proof. intros H. unfold float64. rewrite H. reflexivity. Qed.



(** *** The terminal chunk *)




(** *** The end of the file *)


Lemma int64_error a e : int64 a = Throw e -> e = InvalidArrayLength.
Proof.
  unfold int64. destruct (len a =? 8) eqn:E; cbn [negb]; [|congruence].
  apply Z.eqb_eq in E. unfold getBigInt64BE, inView. rewrite E. cbn. discriminate.
Qed.

Lemma int32_error a e : int32 a = Throw e -> e = InvalidArrayLength.
Proof.
  unfold int32. destruct (len a =? 4) eqn:E; cbn [negb]; [|congruence].
  apply Z.eqb_eq in E. unfold getInt32BE, inView. rewrite E. cbn. discriminate.
Qed.

Lemma float64_error a e : float64 a = Throw e -> e = InvalidArrayLength.
Proof. unfold float64. destruct (negb _); congruence. Qed.


Lemma parseChannelDescription_error a e :
  parseChannelDescription a = Throw e -> e = InvalidArrayLength.
Proof.
  unfold parseChannelDescription, rbind.
  destruct (float64 (slice a 8 16)) eqn:E1.
  - destruct (float64 (slice a 16 24)) eqn:E2.
    + destruct (float64 (slice a 24 32)) eqn:E3; [discriminate|].
      intros H; inversion H; subst. eapply float64_error; eauto.
    + intros H; inversion H; subst. eapply float64_error; eauto.
  - intros H; inversion H; subst. eapply float64_error; eauto.
Qed.


Lemma parsePacketTable_error a e :
  parsePacketTable a = Throw e -> e = InvalidArrayLength.
Proof.
  unfold parsePacketTable, parsePacketTableHeader, rbind.
  destruct (int64 (slice (slice a 0 24) 0 8)) eqn:E1.
  - destruct (int64 (slice (slice a 0 24) 8 16)) eqn:E2.
    + destruct (int32 (slice (slice a 0 24) 16 20)) eqn:E3.
      * destruct (int32 (slice (slice a 0 24) 20 24)) eqn:E4; [discriminate|].
        intros H; inversion H; subst. eapply int32_error; eauto.
      * intros H; inversion H; subst. eapply int32_error; eauto.
    + intros H; inversion H; subst. eapply int64_error; eauto.
  - intros H; inversion H; subst. eapply int64_error; eauto.
Qed.

Lemma int64_eight a :
  length a = 8%nat -> int64 a = Ok (Number (ToBigInt64 (bigEndian a))).
Proof.
  intros H. unfold int64, getBigInt64BE, inView, len. rewrite H.
  cbn [Z.of_nat Pos.of_succ_nat Pos.succ Z.eqb Pos.eqb negb Z.leb Z.compare
       Z.add Pos.add Pos.compare Pos.compare_cont andb rbind Z.to_nat skipn].
  rewrite <- H, firstn_all. reflexivity.
Qed.

















(** *** The channel layout *)

Lemma bytes_slice a start stop : bytes a -> bytes (slice a start stop).
Proof.
  intros H. unfold slice, bytes.
  set (k := Z.to_nat (relIndex (len a) start)).
  set (n := Z.to_nat (relIndex (len a) stop - relIndex (len a) start)).
  assert (Hs : Forall (fun b => 0 <= b < 256) (skipn k a)).
  { unfold bytes in H. rewrite <- (firstn_skipn k a) in H.
    apply Forall_app in H. tauto. }
  rewrite <- (firstn_skipn n (skipn k a)) in Hs.
  apply Forall_app in Hs. tauto.
Qed.

Lemma shl_8 x : shl x 8 = ToInt32 (ToInt32 x * 256).
Proof.
  unfold shl. change (Z.land (ToUint32 8) 31) with 8.
  rewrite Z.shiftl_mul_pow2 by lia. reflexivity.
Qed.

Lemma bytes_four b0 b1 b2 b3 :
  bytes [b0; b1; b2; b3] ->
  0 <= b0 < 256 /\ 0 <= b1 < 256 /\ 0 <= b2 < 256 /\ 0 <= b3 < 256.
Proof.
  unfold bytes. intros H.
  inversion H as [|? ? H0 Ha]; subst. inversion Ha as [|? ? H1 Hb]; subst.
  inversion Hb as [|? ? H2 Hc]; subst. inversion Hc as [|? ? H3 _]; subst.
  auto.
Qed.

(** On four bytes [uint] is the big-endian value read as a signed
    32-bit number. *)
Lemma uint_four b0 b1 b2 b3 :
  bytes [b0; b1; b2; b3] ->
  uint [b0; b1; b2; b3] = ToInt32 (bigEndian [b0; b1; b2; b3]).
Proof.
  intros H. apply bytes_four in H. destruct H as (H0 & H1 & H2 & H3).
  unfold uint, bigEndian. cbn [fold_left].
  rewrite !shl_8. change (ToInt32 0 * 256) with 0. change (ToInt32 0) with 0.
  rewrite (ToInt32_small (0 + b0)) by lia.
  rewrite (ToInt32_small ((0 + b0) * 256)) by lia.
  rewrite (ToInt32_small ((0 + b0) * 256 + b1)) by lia.
  rewrite (ToInt32_small (((0 + b0) * 256 + b1) * 256)) by lia.
  rewrite (ToInt32_small (((0 + b0) * 256 + b1) * 256 + b2)) by lia.
  set (x := ((0 + b0) * 256 + b1) * 256 + b2).
  replace (2 ^ 8 * (2 ^ 8 * (2 ^ 8 * (2 ^ 8 * 0 + b0) + b1) + b2) + b3)
    with (x * 256 + b3) by (unfold x; lia).
  assert (Hx : 0 <= x < 2 ^ 24) by (unfold x; lia).
  unfold ToInt32. rewrite !Z.mod_small by lia.
  destruct (x * 256 <? 2 ^ 31) eqn:E1; destruct (x * 256 + b3 <? 2 ^ 31) eqn:E2;
    try apply Z.ltb_lt in E1; try apply Z.ltb_ge in E1;
    try apply Z.ltb_lt in E2; try apply Z.ltb_ge in E2; lia.
Qed.

Lemma bigEndian_four_range b0 b1 b2 b3 :
  bytes [b0; b1; b2; b3] -> 0 <= bigEndian [b0; b1; b2; b3] < 2 ^ 32.
Proof.
  intros H. apply bytes_four in H. destruct H as (H0 & H1 & H2 & H3).
  unfold bigEndian. cbn [fold_left]. lia.
Qed.

Lemma float64_ok_len a d : float64 a = Ok d -> len a = 8.
Proof.
  unfold float64. destruct (len a =? 8) eqn:E; cbn [negb]; [|discriminate].
  intros _. now apply Z.eqb_eq.
Qed.

(** A description record of fewer than 32 bytes is refused by a
    [float64]. *)
Lemma parseChannelDescription_short a :
  len a < 32 -> parseChannelDescription a = Throw InvalidArrayLength.
Proof.
  intros H. destruct (parseChannelDescription a) as [d|e] eqn:E.
  - exfalso. unfold parseChannelDescription, rbind in E.
    destruct (float64 (slice a 8 16)); [|discriminate].
    destruct (float64 (slice a 16 24)); [|discriminate].
    destruct (float64 (slice a 24 32)) eqn:E3; [|discriminate].
    apply float64_ok_len in E3. rewrite slice_len in E3 by lia.
    pose proof (len_nonneg a). lia.
  - f_equal. eapply parseChannelDescription_error; eauto.
Qed.

(** C8, as stated, fails: with two descriptions declared and one and a
    half present, decoding fails, but with the invalid-length error of
    [float64], which is the specification's [InvalidFieldLength], not
    [TruncatedRecord]. *)
Lemma truncated_layout_error_kind :
  parseChannelLayout exampleMaxFill shortLayout = Throw InvalidArrayLength
  /\ Spec.classify InvalidArrayLength = Some Spec.InvalidFieldLength
  /\ Spec.classify InvalidArrayLength <> Some Spec.TruncatedRecord.
Proof. repeat split; vm_compute; congruence. Qed.

(** C8, amended.  For an input of at least 12 bytes that is shorter than
    12 + 32 * count, where count is the unsigned 32-bit value at offset
    8, decoding fails, and never with [TruncatedRecord].  When count is
    2^31 or more (the program reads it as a signed number, so as a
    negative one), or more than the engine can hold in an array,
    [Array(count).fill(0)] throws a [RangeError] before any description
    is read; a [RangeError] is none of the four kinds of error.
    Otherwise the invalid-length error of [float64] is thrown for a
    description that is not all there, which is [InvalidFieldLength].
    So a count of 2^31 - 1 gives a [RangeError] on every engine that
    cannot hold that many elements. *)
Theorem channel_layout_truncated :
  (forall maxFill a,
      bytes a -> 12 <= len a ->
      let count := bigEndian (slice a 8 12) in
      len a < 12 + 32 * count ->
      parseChannelLayout maxFill a
      = Throw (if (count <? 2 ^ 31) && (count <=? maxFill)
               then InvalidArrayLength else RangeError))
  /\ (forall maxFill a,
        bytes a -> 12 <= len a ->
        let count := bigEndian (slice a 8 12) in
        len a < 12 + 32 * count -> maxFill < count ->
        parseChannelLayout maxFill a = Throw RangeError)
  /\ Spec.classify InvalidArrayLength = Some Spec.InvalidFieldLength
  /\ Spec.classify RangeError = None.
Proof.
  assert (G : forall maxFill a,
             bytes a -> 12 <= len a ->
             let count := bigEndian (slice a 8 12) in
             len a < 12 + 32 * count ->
             parseChannelLayout maxFill a
             = Throw (if (count <? 2 ^ 31) && (count <=? maxFill)
                      then InvalidArrayLength else RangeError)).
  { intros maxFill a Hb Hlen count Hshort.
    assert (Hl4 : len (slice a 8 12) = 4) by (rewrite slice_len; lia).
    pose proof (bytes_slice a 8 12 Hb) as Hb4.
    subst count. unfold parseChannelLayout.
    destruct (slice a 8 12) as [|b0 [|b1 [|b2 [|b3 [|? ?]]]]] eqn:Es;
      try (unfold len in Hl4; cbn in Hl4; lia).
    rewrite (uint_four b0 b1 b2 b3 Hb4).
    pose proof (bigEndian_four_range b0 b1 b2 b3 Hb4) as Hr.
    set (count := bigEndian [b0; b1; b2; b3]) in *.
    destruct (count <? 2 ^ 31) eqn:E.
    - apply Z.ltb_lt in E. rewrite ToInt32_small by lia.
      unfold ArrayFill.
      replace ((count <? 0) || (2 ^ 32 - 1 <? count)) with false
        by (symmetry; apply orb_false_iff; split; apply Z.ltb_ge; lia).
      cbn [andb]. rewrite Z.ltb_antisym.
      destruct (count <=? maxFill); cbn [negb]; [|reflexivity].
      cbn [rbind].
      rewrite (mapR_throws _ _ InvalidArrayLength); [reflexivity| |].
      + intros x e' H. eapply parseChannelDescription_error; eauto.
      + exists (count - 1). split.
        * apply in_map_iff. exists (Z.to_nat (count - 1)). split; [lia|].
          apply in_seq. lia.
        * apply parseChannelDescription_short. rewrite slice_len by lia. lia.
    - apply Z.ltb_ge in E. unfold ArrayFill.
      assert (Hn : ToInt32 count < 0).
      { unfold ToInt32. rewrite Z.mod_small by lia.
        replace (count <? 2 ^ 31) with false
          by (symmetry; apply Z.ltb_ge; lia).
        lia. }
      replace (ToInt32 count <? 0) with true
        by (symmetry; apply Z.ltb_lt; lia).
      reflexivity. }
  split; [exact G|]. split; [|split; reflexivity].
  intros maxFill a Hb Hlen count Hshort Hmax.
  rewrite (G maxFill a Hb Hlen Hshort). fold count.
  replace (count <=? maxFill) with false by (symmetry; apply Z.leb_gt; lia).
  now rewrite andb_false_r.
Qed.

Lemma channel_layout_truncated_witness :
  parseChannelLayout exampleMaxFill
    ([0; 0; 0; 0] ++ [0; 0; 0; 0] ++ [0x7f; 0xff; 0xff; 0xff])
  = Throw RangeError.
Proof.
  refine (proj1 (proj2 channel_layout_truncated) exampleMaxFill
            ([0; 0; 0; 0] ++ [0; 0; 0; 0] ++ [0x7f; 0xff; 0xff; 0xff])
            _ _ _ _).
  - unfold bytes. cbn [app].
    repeat (apply Forall_cons; [lia|]). apply Forall_nil.
  - vm_compute. discriminate.
  - vm_compute. reflexivity.
  - vm_compute. reflexivity.
Defined.

(** *** The packet table *)

(** The two bit tests of [packetsTable] on a base-128 digit, with and
    without the continuation bit: checked on the 128 digits. *)
Lemma digit_bits d :
  0 <= d < 128 ->
  band d 0x80 = 0 /\ band d 0x7f = d
  /\ band (d + 128) 0x80 <> 0 /\ band (d + 128) 0x7f = d.
Proof.
  intros H.
  assert (A : forallb
                (fun d => (band d 0x80 =? 0) && (band d 0x7f =? d)
                          && negb (band (d + 128) 0x80 =? 0)
                          && (band (d + 128) 0x7f =? d))
                (map Z.of_nat (seq 0 128)) = true) by (vm_compute; reflexivity).
  rewrite forallb_forall in A.
  specialize (A d).
  assert (Hin : In d (map Z.of_nat (seq 0 128))).
  { apply in_map_iff. exists (Z.to_nat d). split; [lia|]. apply in_seq. lia. }
  apply A in Hin. rewrite !andb_true_iff, negb_true_iff in Hin.
  destruct Hin as (((H1 & H2) & H3) & H4).
  apply Z.eqb_eq in H1, H2, H4. apply Z.eqb_neq in H3. auto.
Qed.

Lemma land_shifted_digit cur d :
  0 <= d < 128 -> Z.land (cur * 2 ^ 7) d = 0.
Proof.
  intros H. apply Z.bits_inj'. intros n Hn.
  rewrite Z.land_spec, Z.bits_0.
  destruct (Z.lt_ge_cases n 7) as [Hlt|Hge].
  - rewrite Z.mul_pow2_bits_low by lia. reflexivity.
  - destruct (Z.eq_dec d 0) as [->|Hd].
    + rewrite Z.bits_0. apply andb_false_r.
    + rewrite (Z.bits_above_log2 d n), andb_false_r; [reflexivity|lia|].
      assert (Z.log2 d < 7) by (apply Z.log2_lt_pow2; lia). lia.
Qed.

(** One step of the accumulator without overflow. *)
Lemma accumulate_digit cur d :
  0 <= cur < 2 ^ 24 -> 0 <= d < 128 -> bor (shl cur 7) d = cur * 128 + d.
Proof.
  intros Hc Hd. unfold bor, shl.
  change (Z.land (ToUint32 7) 31) with 7.
  rewrite (ToInt32_small cur) by lia.
  rewrite Z.shiftl_mul_pow2 by lia.
  rewrite (ToInt32_small (cur * 2 ^ 7)) by lia.
  rewrite (ToInt32_small (cur * 2 ^ 7)) by lia.
  rewrite (ToInt32_small d) by lia.
  pose proof (Z.add_lor_land (cur * 2 ^ 7) d) as A.
  rewrite land_shifted_digit in A by lia. lia.
Qed.

(** The leading digits of a value put it in the accumulator. *)
Lemma packetsLoop_leading n :
  forall w rest,
    0 <= w < 2 ^ 24 -> w < 2 ^ Z.of_nat n ->
    packetsLoop (Spec.leadingDigits n w ++ rest) 0 = packetsLoop rest w.
Proof.
  induction n as [|n IH]; intros w rest Hw Hn.
  - cbn in Hn. assert (w = 0) by lia. subst. reflexivity.
  - cbn [Spec.leadingDigits]. destruct (w =? 0) eqn:E.
    + apply Z.eqb_eq in E. subst. reflexivity.
    + rewrite Nat2Z.inj_succ, Z.pow_succ_r in Hn by lia.
      assert (Hq : 0 <= w / 128 < 2 ^ 24).
      { split; [apply Z.div_pos; lia|].
        apply Z.div_lt_upper_bound; lia. }
      assert (Hq' : w / 128 < 2 ^ Z.of_nat n).
      { apply Z.div_lt_upper_bound; lia. }
      assert (Hd : 0 <= w mod 128 < 128) by (apply Z.mod_pos_bound; lia).
      rewrite <- app_assoc, (IH (w / 128)) by assumption.
      destruct (digit_bits (w mod 128) Hd) as (_ & _ & Hc & Hl).
      cbn [app packetsLoop]. apply Z.eqb_neq in Hc. rewrite Hc, Hl.
      rewrite accumulate_digit by assumption.
      f_equal. pose proof (Z.div_mod w 128). lia.
Qed.

(** Decoding the encoding of a value below 2^31 gives the value back and
    goes on with an empty accumulator. *)
Lemma packetsLoop_encode v rest :
  0 <= v < 2 ^ 31 ->
  packetsLoop (Spec.encodeValue v ++ rest) 0 = v :: packetsLoop rest 0.
Proof.
  intros Hv. unfold Spec.encodeValue.
  assert (Hq : 0 <= v / 128 < 2 ^ 24).
  { split; [apply Z.div_pos; lia|]. apply Z.div_lt_upper_bound; lia. }
  assert (Hd : 0 <= v mod 128 < 128) by (apply Z.mod_pos_bound; lia).
  assert (Hn : v / 128 < 2 ^ Z.of_nat (Z.to_nat (Z.log2_up (v + 1)))).
  { rewrite Z2Nat.id by apply Z.log2_up_nonneg.
    assert (v + 1 <= 2 ^ Z.log2_up (v + 1)).
    { destruct (Z.eq_dec v 0) as [->|Hne]; [cbn; lia|].
      apply Z.log2_up_spec. lia. }
    assert (v / 128 <= v) by (apply Z.div_le_upper_bound; lia).
    lia. }
  rewrite <- app_assoc, packetsLoop_leading by assumption.
  destruct (digit_bits (v mod 128) Hd) as (Ht & Hl & _ & _).
  cbn [app packetsLoop]. rewrite Ht, Hl. cbn [Z.eqb].
  rewrite accumulate_digit by assumption.
  f_equal. pose proof (Z.div_mod v 128). lia.
Qed.

Lemma packetsLoop_encoded values :
  Forall (fun v => 0 <= v < 2 ^ 31) values ->
  forall rest,
    packetsLoop (concat (map Spec.encodeValue values) ++ rest) 0
    = values ++ packetsLoop rest 0.
Proof.
  induction 1 as [|v values Hv _ IH]; intros rest; [reflexivity|].
  cbn [map concat]. rewrite <- app_assoc, packetsLoop_encode by assumption.
  rewrite IH. reflexivity.
Qed.

(** Bytes that all have the continuation bit never complete a value. *)
Lemma packetsLoop_incomplete tail :
  Forall (fun b => band b 0x80 <> 0) tail ->
  forall cur, packetsLoop tail cur = [].
Proof.
  induction 1 as [|b tail Hb _ IH]; intros cur; [reflexivity|].
  cbn [packetsLoop]. apply Z.eqb_neq in Hb. rewrite Hb. apply IH.
Qed.

Lemma int32_four a :
  length a = 4%nat -> int32 a = Ok (ToInt32 (bigEndian a)).
Proof.
  intros H. unfold int32, getInt32BE, inView, len. rewrite H.
  cbn [Z.of_nat Pos.of_succ_nat Pos.succ Z.eqb Pos.eqb negb Z.leb Z.compare
       Z.add Pos.add Pos.compare Pos.compare_cont andb Z.to_nat skipn].
  rewrite <- H, firstn_all. reflexivity.
Qed.

Lemma slice_length (a : list Z) (start stop : Z) :
  0 <= start <= stop -> stop <= len a ->
  length (slice a start stop) = Z.to_nat (stop - start).
Proof.
  intros H1 H2. pose proof (slice_len a start stop H1) as H.
  unfold len in H, H2. lia.
Qed.

(** The packet table splits its input into the first 24 bytes and the
    region after them, which [packetsTable] decodes. *)
Lemma parsePacketTable_region hdr region :
  length hdr = 24%nat ->
  exists h,
    parsePacketTable (hdr ++ region)
    = Ok {| header := h; body := packetsTable region |}.
Proof.
  intros H.
  assert (Hh : slice (hdr ++ region) 0 24 = hdr).
  { unfold slice, relIndex. rewrite len_app. unfold len. rewrite H.
    cbn [Z.ltb Z.compare].
    rewrite Z.min_l, Z.min_l by lia. cbn [Z.sub Z.opp Z.add Z.to_nat skipn].
    change (Pos.to_nat 24) with (length (repeat 0 24)).
    rewrite repeat_length, <- H, firstn_app, firstn_all, Nat.sub_diag.
    apply app_nil_r. }
  assert (Hr : sliceFrom (hdr ++ region) 24 = region).
  { unfold sliceFrom, slice, relIndex. rewrite len_app. unfold len. rewrite H.
    cbn [Z.ltb Z.compare].
    replace (Z.of_nat 24 + Z.of_nat (length region) <? 0) with false
      by (symmetry; apply Z.ltb_ge; lia).
    rewrite Z.min_id.
    replace (Z.min 24 (Z.of_nat 24 + Z.of_nat (length region))) with 24 by lia.
    replace (Z.to_nat (Z.of_nat 24 + Z.of_nat (length region) - 24))
      with (length region) by lia.
    replace (Z.to_nat 24) with (length hdr) by lia.
    rewrite skipn_app, skipn_all, Nat.sub_diag. cbn [skipn app].
    apply firstn_all. }
  assert (Hl : len hdr = 24) by (unfold len; lia).
  unfold parsePacketTable, parsePacketTableHeader. rewrite Hh, Hr.
  rewrite (int64_eight (slice hdr 0 8)) by (rewrite slice_length; lia).
  rewrite (int64_eight (slice hdr 8 16)) by (rewrite slice_length; lia).
  rewrite (int32_four (slice hdr 16 20)) by (rewrite slice_length; lia).
  rewrite (int32_four (slice hdr 20 24)) by (rewrite slice_length; lia).
  cbn [rbind]. eexists. reflexivity.
Qed.

(** C7.  The packet table hands the region after its first 24 bytes to
    [packetsTable].  There each byte shifts the accumulator left by 7 and
    ORs in its low 7 bits; a byte with bit 0x80 clear completes a value
    and resets the accumulator, a byte with it set does not.  The
    back-to-back
    big-endian base-128 encodings of values below 2^31 decode to exactly
    those values, whatever incomplete value trails them: [0x82, 0x2c] is
    the encoding of 300 and decodes to 300, and the encodings of 1, 300
    and 16384 decode to [1, 300, 16384]. *)
Theorem packetsTable_decodes_values :
  (forall hdr region,
      length hdr = 24%nat ->
      exists h,
        parsePacketTable (hdr ++ region)
        = Ok {| header := h; body := packetsTable region |})
  /\ (forall byte rest cur,
      band byte 0x80 = 0 ->
      packetsLoop (byte :: rest) cur
      = bor (shl cur 7) (band byte 0x7f) :: packetsLoop rest 0)
  /\ (forall byte rest cur,
        band byte 0x80 <> 0 ->
        packetsLoop (byte :: rest) cur
        = packetsLoop rest (bor (shl cur 7) (band byte 0x7f)))
  /\ (forall values tail,
        Forall (fun v => 0 <= v < 2 ^ 31) values ->
        Forall (fun b => band b 0x80 <> 0) tail ->
        packetsTable (concat (map Spec.encodeValue values) ++ tail) = values)
  /\ Spec.encodeValue 300 = [0x82; 0x2c]
  /\ packetsTable [0x82; 0x2c] = [300]
  /\ packetsTable ([1] ++ [0x82; 0x2c] ++ [0x81; 0x80; 0]) = [1; 300; 16384]
  /\ packetsTable ([1] ++ [0x82; 0x2c] ++ [0x81; 0x80; 0] ++ [0x85; 0x80])
     = [1; 300; 16384].
Proof.
  split; [exact parsePacketTable_region|].
  split; [|split; [|split]].
  - intros byte rest cur H. cbn [packetsLoop]. now rewrite H.
  - intros byte rest cur H. cbn [packetsLoop].
    apply Z.eqb_neq in H. now rewrite H.
  - intros values tail Hv Ht. unfold packetsTable.
    rewrite packetsLoop_encoded by assumption.
    rewrite packetsLoop_incomplete by assumption. apply app_nil_r.
  - repeat split; vm_compute; reflexivity.
Qed.

Lemma packetsTable_decodes_values_witness :
  packetsTable (concat (map Spec.encodeValue [1; 300; 16384]) ++ [0x85; 0x80])
  = [1; 300; 16384].
Proof.
  refine (proj1 (proj2 (proj2 (proj2 packetsTable_decodes_values)))
            [1; 300; 16384] [0x85; 0x80] _ _).
  - repeat (apply Forall_cons; [lia|]). apply Forall_nil.
  - repeat (apply Forall_cons; [vm_compute; discriminate|]). apply Forall_nil.
Defined.

End CafFacts.

(** ** Facts about the encodings *)

Module EncodingFacts.
Import Js JsFacts Encodings CafStreams.

Lemma leBytes_length n : forall v, length (leBytes n v) = n.
Proof. induction n as [|n IH]; intros v; cbn; [reflexivity|now rewrite IH]. Qed.

Lemma leBytes_bytes n : forall v, bytes (leBytes n v).
Proof.
  induction n as [|n IH]; intros v; cbn; [apply Forall_nil|].
  apply Forall_cons; [apply Z.mod_pos_bound; lia|apply IH].
Qed.

Lemma leValue_leBytes n : forall v, leValue (leBytes n v) = v mod 256 ^ Z.of_nat n.
Proof.
  induction n as [|n IH]; intros v.
  - cbn. now rewrite Z.mod_1_r.
  - cbn [leBytes leValue]. rewrite IH, Nat2Z.inj_succ, Z.pow_succ_r by lia.
    rewrite Z.rem_mul_r by lia. reflexivity.
Qed.

Lemma leValue_range l : bytes l -> 0 <= leValue l < 256 ^ Z.of_nat (length l).
Proof.
  induction 1 as [|b l Hb _ IH]; [cbn; lia|].
  cbn [leValue length]. rewrite Nat2Z.inj_succ, Z.pow_succ_r by lia. lia.
Qed.

Lemma leBytes_leValue l : bytes l -> leBytes (length l) (leValue l) = l.
Proof.
  induction 1 as [|b l Hb Hl IH]; [reflexivity|].
  cbn [leValue length leBytes].
  assert (H1 : (b + 256 * leValue l) mod 256 = b).
  { replace (b + 256 * leValue l) with (b + leValue l * 256) by lia.
    rewrite Z.mod_add by lia. apply Z.mod_small; lia. }
  assert (H2 : (b + 256 * leValue l) / 256 = leValue l).
  { replace (b + 256 * leValue l) with (b + leValue l * 256) by lia.
    rewrite Z.div_add by lia. rewrite (Z.div_small b) by lia. lia. }
  rewrite H1, H2, IH. reflexivity.
Qed.

Lemma bytes_app a b : bytes (a ++ b) <-> bytes a /\ bytes b.
Proof. unfold bytes. apply Forall_app. Qed.

(** A slice that covers exactly one piece of a concatenation. *)
Lemma slice_middle array pre c rest start stop :
  array = pre ++ c ++ rest -> len pre = start -> stop = start + len c ->
  slice array start stop = c.
Proof.
  intros -> <- ->. unfold slice, relIndex.
  pose proof (len_nonneg pre). pose proof (len_nonneg c).
  pose proof (len_nonneg rest).
  replace (len pre <? 0) with false by (symmetry; apply Z.ltb_ge; lia).
  replace (len pre + len c <? 0) with false by (symmetry; apply Z.ltb_ge; lia).
  rewrite !len_app.
  rewrite (Z.min_l (len pre)), (Z.min_l (len pre + len c)) by lia.
  unfold len. rewrite Nat2Z.id.
  replace (Z.to_nat (Z.of_nat (length pre) + Z.of_nat (length c)
                     - Z.of_nat (length pre))) with (length c) by lia.
  rewrite skipn_app, skipn_all, Nat.sub_diag. cbn [app skipn].
  rewrite firstn_app, firstn_all, Nat.sub_diag. cbn [firstn].
  apply app_nil_r.
Qed.

End EncodingFacts.

(** ** More facts about parseOgg.ts *)

Module OggMoreFacts.
Import Js JsFacts ParseOgg OggPages OggFacts Encodings EncodingFacts OggMore.
Import CafStreams(bytes).
Local Open Scope js_scope.

(** *** The little-endian readers *)

Lemma le32_leValue a b c d : le32 [a; b; c; d] = leValue [a; b; c; d].
Proof.
  unfold le32, leValue.
  change (at0 [a; b; c; d] 0) with a. change (at0 [a; b; c; d] 1) with b.
  change (at0 [a; b; c; d] 2) with c. change (at0 [a; b; c; d] 3) with d.
  lia.
Qed.

(** [uInt32Le] and the four little-endian bytes of a value below 2^32
    are inverse to each other, and every other length is refused. *)
Theorem uInt32Le_little_endian :
  (forall v, 0 <= v < 2 ^ 32 -> uInt32Le (leBytes 4 v) = Ok v)
  /\ (forall a,
        bytes a -> length a = 4%nat ->
        exists v, uInt32Le a = Ok v /\ 0 <= v < 2 ^ 32 /\ leBytes 4 v = a)
  /\ (forall a, length a <> 4%nat -> uInt32Le a = Throw InvalidArrayLength).
Proof.
  split; [|split].
  - intros v Hv. rewrite uInt32Le_four by apply leBytes_length.
    f_equal. cbn [leBytes]. rewrite le32_leValue.
    change (leValue _) with (leValue (leBytes 4 v)).
    rewrite leValue_leBytes. apply Z.mod_small. cbn. lia.
  - intros a Hb Hl. exists (le32 a).
    destruct a as [|b0 [|b1 [|b2 [|b3 [|? ?]]]]]; try discriminate.
    rewrite uInt32Le_four by reflexivity. split; [reflexivity|].
    rewrite le32_leValue.
    pose proof (leValue_range _ Hb) as Hr. cbn [length] in Hr.
    split; [cbn in Hr |- *; lia|].
    exact (leBytes_leValue _ Hb).
  - intros a Hl. unfold uInt32Le.
    replace (len a =? 4) with false; [reflexivity|].
    symmetry. apply Z.eqb_neq. unfold len. lia.
Qed.

Lemma uInt32Le_little_endian_witness :
  uInt32Le (leBytes 4 151587081) = Ok 151587081.
Proof. apply (proj1 uInt32Le_little_endian). lia. Defined.

(** [uInt64Le] reads the low four bytes only: the high four bytes of the
    eight never matter, and of a value below 2^64 the low 32 bits are
    returned. *)
Theorem uInt64Le_low_half :
  (forall lo hi,
      length lo = 4%nat -> length hi = 4%nat ->
      uInt64Le (lo ++ hi) = uInt32Le lo)
  /\ (forall v, 0 <= v < 2 ^ 64 -> uInt64Le (leBytes 8 v) = Ok (v mod 2 ^ 32))
  /\ (forall a, length a <> 8%nat -> uInt64Le a = Throw InvalidArrayLength).
Proof.
  assert (A : forall lo hi,
             length lo = 4%nat -> length hi = 4%nat ->
             uInt64Le (lo ++ hi) = uInt32Le lo).
  { intros lo hi Hlo Hhi.
    destruct lo as [|b0 [|b1 [|b2 [|b3 [|? ?]]]]]; try discriminate.
    rewrite uInt64Le_eight by (rewrite length_app, Hhi; reflexivity).
    rewrite uInt32Le_four by reflexivity. reflexivity. }
  split; [exact A|split].
  - intros v Hv.
    change (leBytes 8 v) with (leBytes 4 v ++ leBytes 4 (v / 256 / 256 / 256 / 256)).
    rewrite A by apply leBytes_length.
    rewrite uInt32Le_four by apply leBytes_length.
    f_equal. cbn [leBytes]. rewrite le32_leValue.
    change (leValue _) with (leValue (leBytes 4 v)).
    rewrite leValue_leBytes. reflexivity.
  - intros a Hl. unfold uInt64Le.
    replace (len a =? 8) with false; [reflexivity|].
    symmetry. apply Z.eqb_neq. unfold len. lia.
Qed.

Lemma uInt64Le_low_half_witness :
  uInt64Le (leBytes 8 (2 ^ 32 + 5)) = Ok 5.
Proof. apply (proj1 (proj2 uInt64Le_low_half) (2 ^ 32 + 5)). lia. Defined.

(** *** The reads *)

(** [readMultiple] throws at the end of the file only when bytes are
    asked for; a read of no bytes succeeds there.  When fewer bytes are
    left than asked for, the bytes left are returned followed by zeros,
    without an error, and [cache] gets the padded array. *)
Theorem readMultiple_at_the_end :
  (forall c f out,
      readMultiple 0 (mk c f out) = Done [] (mk (c ++ [[]]) f out))
  /\ (forall n c out,
        0 < n <= maxIndex ->
        readMultiple n (mk c [] out) = Raise FileStreamFinished (mk c [] out))
  /\ (forall (n : nat) c bs out,
        (0 < length bs < n)%nat -> Z.of_nat n <= maxIndex ->
        let padded := bs ++ repeat 0 (n - length bs) in
        readMultiple (Z.of_nat n) (mk c bs out)
        = Done padded (mk (c ++ [padded]) [] out))
  /\ (forall n st, n < 0 -> readMultiple n st = Raise RangeError st).
Proof.
  split; [reflexivity|]. split; [|split].
  - intros n c out Hn. unfold readMultiple, bind, lift, Uint8Array.
    replace (n <? 0) with false by (symmetry; apply Z.ltb_ge; lia).
    replace (maxIndex <? n) with false by (symmetry; apply Z.ltb_ge; lia).
    cbn [orb]. unfold fileRead, FsFile.read. cbn [oggFile mk].
    destruct (Z.to_nat n) as [|k] eqn:E; [lia|]. reflexivity.
  - intros n c bs out Hn Hmax padded. subst padded.
    unfold readMultiple, bind, lift. rewrite (Uint8Array_small n Hmax).
    unfold fileRead, FsFile.read. cbn [oggFile mk].
    destruct n as [|k]; [lia|]. cbn [repeat].
    destruct bs as [|b bs]; [cbn in Hn; lia|].
    change (0 :: repeat 0 k) with (repeat 0 (S k)).
    rewrite repeat_length.
    rewrite firstn_all2 by lia.
    rewrite (skipn_all2 (b :: bs)) by lia.
    assert (G : forall m j, skipn j (repeat 0 m) = repeat 0 (m - j)).
    { induction m; destruct j; cbn; auto. }
    rewrite G. reflexivity.
  - intros n st Hn. unfold readMultiple, bind, lift, Uint8Array.
    replace (n <? 0) with true by (symmetry; apply Z.ltb_lt; lia).
    reflexivity.
Qed.

Lemma readMultiple_at_the_end_witness :
  readMultiple (Z.of_nat 4) (mk [] [7; 8] [])
  = Done ([7; 8] ++ repeat 0 (4 - length [7; 8]))
         (mk ([] ++ [[7; 8] ++ repeat 0 (4 - length [7; 8])]) [] []).
Proof.
  refine (proj1 (proj2 (proj2 readMultiple_at_the_end)) 4%nat [] [7; 8] [] _ _).
  - cbn. lia.
  - unfold maxIndex. lia.
Defined.

(** *** The identification header *)

Lemma forallb_map_S (f : nat -> bool) (l : list nat) :
  forallb f (map S l) = forallb (fun i => f (S i)) l.
Proof. induction l as [|x l IH]; cbn; [reflexivity|now rewrite IH]. Qed.

(** The signature loop accepts exactly the arrays that start with the
    signature. *)
Lemma signatureMatches_prefix signature :
  forall array,
    signatureMatches array signature = true
    <-> firstn (length signature) array = signature.
Proof.
  unfold signatureMatches.
  induction signature as [|s signature IH]; intros array.
  - cbn. tauto.
  - cbn [length]. rewrite <- cons_seq, <- seq_shift. cbn [forallb].
    rewrite forallb_map_S. destruct array as [|x array].
    + cbn. split; discriminate.
    + cbn [nth_error firstn]. rewrite andb_true_iff, IH, Z.eqb_eq.
      split; [intros [-> ->]; reflexivity|].
      intros H. injection H as H1 H2. split; assumption.
Qed.

Lemma getUint8_nth a off x :
  0 <= off -> nth_error a (Z.to_nat off) = Some x -> getUint8 a off = Ok x.
Proof.
  intros H0 Hn. unfold getUint8, inView, at0, len.
  assert (Hl : (Z.to_nat off < length a)%nat)
    by (apply nth_error_Some; congruence).
  replace (0 <=? off) with true by (symmetry; apply Z.leb_le; lia).
  replace (off + 1 <=? Z.of_nat (length a)) with true
    by (symmetry; apply Z.leb_le; lia).
  replace (off <? 0) with false by (symmetry; apply Z.ltb_ge; lia).
  cbn [andb]. f_equal. now apply nth_error_nth.
Qed.

Lemma at0_nth a off x :
  0 <= off -> nth_error a (Z.to_nat off) = Some x -> at0 a off = x.
Proof.
  intros H0 Hn. unfold at0.
  replace (off <? 0) with false by (symmetry; apply Z.ltb_ge; lia).
  now apply nth_error_nth.
Qed.

Lemma getUint16LE_nth a off x y :
  0 <= off ->
  nth_error a (Z.to_nat off) = Some x ->
  nth_error a (Z.to_nat (off + 1)) = Some y ->
  getUint16LE a off = Ok (x + 2 ^ 8 * y).
Proof.
  intros H0 Hx Hy. unfold getUint16LE, inView, len.
  assert (Hl : (Z.to_nat (off + 1) < length a)%nat)
    by (apply nth_error_Some; congruence).
  replace (0 <=? off) with true by (symmetry; apply Z.leb_le; lia).
  replace (off + 2 <=? Z.of_nat (length a)) with true
    by (symmetry; apply Z.leb_le; lia).
  cbn [andb]. rewrite (at0_nth a off x), (at0_nth a (off + 1) y) by (assumption || lia).
  reflexivity.
Qed.

Lemma getUint32LE_nth a off x y z w :
  0 <= off ->
  nth_error a (Z.to_nat off) = Some x ->
  nth_error a (Z.to_nat (off + 1)) = Some y ->
  nth_error a (Z.to_nat (off + 2)) = Some z ->
  nth_error a (Z.to_nat (off + 3)) = Some w ->
  getUint32LE a off = Ok (x + 2 ^ 8 * y + 2 ^ 16 * z + 2 ^ 24 * w).
Proof.
  intros H0 Hx Hy Hz Hw. unfold getUint32LE, inView, len.
  assert (Hl : (Z.to_nat (off + 3) < length a)%nat)
    by (apply nth_error_Some; congruence).
  replace (0 <=? off) with true by (symmetry; apply Z.leb_le; lia).
  replace (off + 4 <=? Z.of_nat (length a)) with true
    by (symmetry; apply Z.leb_le; lia).
  cbn [andb].
  rewrite (at0_nth a off x), (at0_nth a (off + 1) y),
    (at0_nth a (off + 2) z), (at0_nth a (off + 3) w) by (assumption || lia).
  reflexivity.
Qed.

Lemma getUint8_outside a off :
  len a <= off -> getUint8 a off = Throw RangeError.
Proof.
  intros H. unfold getUint8, inView.
  replace (off + 1 <=? len a) with false by (symmetry; apply Z.leb_gt; lia).
  now rewrite andb_false_r.
Qed.

Lemma getUint8_error a off e : getUint8 a off = Throw e -> e = RangeError.
Proof. unfold getUint8. destruct (inView _ _ _); congruence. Qed.

Lemma mapR_ext {A B} (f g : A -> result B) l :
  (forall x, In x l -> f x = g x) -> mapR f l = mapR g l.
Proof.
  induction l as [|x l IH]; intros H; [reflexivity|].
  cbn. rewrite (H x) by now left.
  rewrite IH by (intros y Hy; apply H; now right). reflexivity.
Qed.

Lemma mapR_seq_S {B} (f : nat -> result B) n :
  forall start, mapR f (seq (S start) n) = mapR (fun i => f (S i)) (seq start n).
Proof.
  induction n as [|n IH]; intros start; [reflexivity|].
  cbn [seq mapR]. now rewrite IH.
Qed.

(** Reading consecutive bytes one by one gives them back. *)
Lemma mapR_getUint8 m :
  forall pre extra,
    mapR (fun i => getUint8 (pre ++ m ++ extra) (len pre + Z.of_nat i))
         (seq 0 (length m))
    = Ok m.
Proof.
  induction m as [|x m IH]; intros pre extra; [reflexivity|].
  cbn [length seq mapR].
  rewrite (getUint8_nth _ _ x)
    by (try (pose proof (len_nonneg pre); lia);
        unfold len; rewrite Z.add_0_r, Nat2Z.id, nth_error_app2, Nat.sub_diag
          by lia; reflexivity).
  rewrite mapR_seq_S.
  rewrite (mapR_ext _
             (fun i => getUint8 ((pre ++ [x]) ++ m ++ extra)
                         (len (pre ++ [x]) + Z.of_nat i))).
  - now rewrite IH.
  - intros i _. rewrite <- app_assoc, len_app. cbn [app].
    f_equal. unfold len. cbn [length]. lia.
Qed.

(** An array that does not start with the eight signature bytes, short
    ones included, is refused with the signature error before anything
    else is looked at; one that starts with them but has fewer than 19
    bytes throws a [RangeError] at the first field outside it. *)
Theorem parseOpusHeader_refuses :
  (forall array,
      firstn 8 array <> opusHeadMagicSignature ->
      parseOpusHeader (Some array) = Throw InvalidMagicSignature)
  /\ (forall rest,
        (length rest < 11)%nat ->
        parseOpusHeader (Some (opusHeadMagicSignature ++ rest))
        = Throw RangeError).
Proof.
  split.
  - intros array H. unfold parseOpusHeader.
    destruct (signatureMatches array opusHeadMagicSignature) eqn:E;
      [|reflexivity].
    apply signatureMatches_prefix in E. contradiction.
  - intros rest H. unfold parseOpusHeader.
    assert (E : signatureMatches (opusHeadMagicSignature ++ rest)
                  opusHeadMagicSignature = true).
    { apply signatureMatches_prefix.
      rewrite firstn_app, firstn_all, Nat.sub_diag. apply app_nil_r. }
    rewrite E. cbn [negb].
    set (a := opusHeadMagicSignature ++ rest).
    assert (Hl : len a < 19).
    { unfold a. rewrite len_app. unfold len. cbn [length opusHeadMagicSignature]. lia. }
    assert (G8 : forall off, getUint8 a off = Throw RangeError
                             \/ exists x, getUint8 a off = Ok x).
    { intros off. destruct (getUint8 a off) as [x|e] eqn:Eg; [eauto|].
      apply getUint8_error in Eg. subst. now left. }
    assert (G16 : forall off, getUint16LE a off = Throw RangeError
                              \/ exists x, getUint16LE a off = Ok x).
    { intros off. unfold getUint16LE. destruct (inView _ _ _); eauto. }
    assert (G32 : forall off, getUint32LE a off = Throw RangeError
                              \/ exists x, getUint32LE a off = Ok x).
    { intros off. unfold getUint32LE. destruct (inView _ _ _); eauto. }
    unfold rbind.
    destruct (G8 8) as [->|[? ->]]; [reflexivity|].
    destruct (G8 9) as [->|[? ->]]; [reflexivity|].
    destruct (G16 10) as [->|[? ->]]; [reflexivity|].
    destruct (G32 12) as [->|[? ->]]; [reflexivity|].
    destruct (G16 16) as [->|[? ->]]; [reflexivity|].
    rewrite (getUint8_outside a 18) by lia. reflexivity.
Qed.

Lemma parseOpusHeader_refuses_witness :
  parseOpusHeader (Some (opusHeadMagicSignature ++ [1; 2])) = Throw RangeError.
Proof.
  refine (proj2 parseOpusHeader_refuses [1; 2] _). cbn. lia.
Defined.

Lemma le16_two a b : le16 [a; b] = a + 2 ^ 8 * b.
Proof. reflexivity. Qed.

Lemma le32_four a b c d :
  le32 [a; b; c; d] = a + 2 ^ 8 * b + 2 ^ 16 * c + 2 ^ 24 * d.
Proof. reflexivity. Qed.

(** The fixed fields of an identification header of at least 19 bytes,
    up to the test for the extension. *)
Lemma parseOpusHeader_fixed ver cc ps sr og mf ext :
  length ps = 2%nat -> length sr = 4%nat -> length og = 2%nat ->
  let array := headBytes ver cc ps sr og mf ++ ext in
  parseOpusHeader (Some array)
  = (channelMapping <--
       (if 19 <? 19 + len ext then
          streamCount <-- getUint8 array 19 ;;
          coupledCount <-- getUint8 array 20 ;;
          channelMappings <--
            mapR (fun i => getUint8 array (21 + Z.of_nat i))
                 (seq 0 (Z.to_nat cc)) ;;
          Ok (Some {| streamCount := streamCount;
                      coupledCount := coupledCount;
                      channelMapping := channelMappings |})
        else Ok None) ;;
     Ok (headOf ver cc ps sr og mf channelMapping)).
Proof.
  intros Hps Hsr Hog array.
  destruct ps as [|p0 [|p1 [|? ?]]]; try discriminate.
  destruct sr as [|s0 [|s1 [|s2 [|s3 [|? ?]]]]]; try discriminate.
  destruct og as [|o0 [|o1 [|? ?]]]; try discriminate.
  assert (E : signatureMatches array opusHeadMagicSignature = true).
  { apply signatureMatches_prefix. reflexivity. }
  assert (Hl : len array = 19 + len ext).
  { unfold array. rewrite len_app. reflexivity. }
  unfold parseOpusHeader. rewrite E, Hl. cbn [negb].
  rewrite (getUint8_nth array 8 ver) by (lia || reflexivity). cbn [rbind].
  rewrite (getUint8_nth array 9 cc) by (lia || reflexivity). cbn [rbind].
  rewrite (getUint16LE_nth array 10 p0 p1) by (lia || reflexivity).
  cbn [rbind].
  rewrite (getUint32LE_nth array 12 s0 s1 s2 s3) by (lia || reflexivity).
  cbn [rbind].
  rewrite (getUint16LE_nth array 16 o0 o1) by (lia || reflexivity).
  cbn [rbind].
  rewrite (getUint8_nth array 18 mf) by (lia || reflexivity). cbn [rbind].
  unfold headOf. rewrite !le16_two, le32_four. reflexivity.
Qed.

(** An identification header of exactly 19 bytes decodes to its fixed
    fields and no channel mapping.  A longer one must hold the stream
    count, the coupled count and one mapping byte per channel: then the
    mapping has exactly [channelCount] entries and whatever follows is
    ignored; with fewer bytes than that a [RangeError] is thrown. *)
Theorem parseOpusHeader_decodes :
  forall ver cc ps sr og mf,
    length ps = 2%nat -> length sr = 4%nat -> length og = 2%nat ->
    parseOpusHeader (Some (headBytes ver cc ps sr og mf))
    = Ok (headOf ver cc ps sr og mf None)
    /\ (forall sc cp m extra,
          length m = Z.to_nat cc ->
          parseOpusHeader
            (Some (headBytes ver cc ps sr og mf ++ sc :: cp :: m ++ extra))
          = Ok (headOf ver cc ps sr og mf
                  (Some {| streamCount := sc; coupledCount := cp;
                           channelMapping := m |})))
    /\ (forall ext,
          ext <> [] -> (length ext < 2 + Z.to_nat cc)%nat ->
          parseOpusHeader (Some (headBytes ver cc ps sr og mf ++ ext))
          = Throw RangeError).
Proof.
  intros ver cc ps sr og mf Hps Hsr Hog.
  assert (H19 : len (headBytes ver cc ps sr og mf) = 19).
  { unfold headBytes, len. rewrite length_app. cbn [length].
    rewrite !length_app, Hps, Hsr, Hog. reflexivity. }
  assert (N19 : length (headBytes ver cc ps sr og mf) = 19%nat).
  { unfold len in H19. lia. }
  split; [|split].
  - rewrite <- (app_nil_r (headBytes ver cc ps sr og mf)) at 1.
    rewrite (parseOpusHeader_fixed ver cc ps sr og mf [] Hps Hsr Hog).
    reflexivity.
  - intros sc cp m extra Hm.
    rewrite (parseOpusHeader_fixed ver cc ps sr og mf _ Hps Hsr Hog).
    replace (19 <? 19 + len (sc :: cp :: m ++ extra)) with true
      by (symmetry; apply Z.ltb_lt; unfold len; cbn [length]; lia).
    set (h := headBytes ver cc ps sr og mf) in *.
    rewrite (getUint8_nth _ 19 sc)
      by (try lia; rewrite nth_error_app2 by lia;
          change (Z.to_nat 19) with 19%nat; rewrite N19; reflexivity).
    cbn [rbind].
    rewrite (getUint8_nth _ 20 cp)
      by (try lia; rewrite nth_error_app2 by lia;
          change (Z.to_nat 20) with 20%nat; rewrite N19; reflexivity).
    cbn [rbind]. rewrite <- Hm.
    rewrite (mapR_ext _
               (fun i => getUint8 ((h ++ [sc; cp]) ++ m ++ extra)
                           (len (h ++ [sc; cp]) + Z.of_nat i))).
    + rewrite mapR_getUint8. reflexivity.
    + intros i _. rewrite <- app_assoc, len_app, H19. reflexivity.
  - intros ext Hne Hshort.
    rewrite (parseOpusHeader_fixed ver cc ps sr og mf _ Hps Hsr Hog).
    destruct ext as [|sc ext]; [congruence|].
    replace (19 <? 19 + len (sc :: ext)) with true
      by (symmetry; apply Z.ltb_lt; unfold len; cbn [length]; lia).
    set (h := headBytes ver cc ps sr og mf) in *.
    rewrite (getUint8_nth _ 19 sc)
      by (try lia; rewrite nth_error_app2 by lia;
          change (Z.to_nat 19) with 19%nat; rewrite N19; reflexivity).
    cbn [rbind].
    destruct ext as [|cp m].
    + rewrite getUint8_outside
        by (rewrite len_app, H19; unfold len; cbn [length]; lia).
      reflexivity.
    + rewrite (getUint8_nth _ 20 cp)
        by (try lia; rewrite nth_error_app2 by lia;
            change (Z.to_nat 20) with 20%nat; rewrite N19; reflexivity).
      cbn [rbind]. cbn [length] in Hshort.
      rewrite (mapR_throws _ _ RangeError); [reflexivity| |].
      * intros i e. apply getUint8_error.
      * exists (length m). split; [apply in_seq; lia|].
        apply getUint8_outside. rewrite len_app, H19. unfold len.
        cbn [length]. lia.
Qed.

Lemma parseOpusHeader_decodes_witness :
  parseOpusHeader
    (Some (headBytes 1 2 [0x38; 0x01] [0x80; 0xbb; 0; 0] [0; 0] 1
           ++ 1 :: 1 :: [0; 1] ++ [9]))
  = Ok (headOf 1 2 [0x38; 0x01] [0x80; 0xbb; 0; 0] [0; 0] 1
          (Some {| streamCount := 1; coupledCount := 1;
                   channelMapping := [0; 1] |})).
Proof.
  exact (proj1 (proj2 (parseOpusHeader_decodes 1 2 [0x38; 0x01]
                         [0x80; 0xbb; 0; 0] [0; 0] 1
                         eq_refl eq_refl eq_refl))
           1 1 [0; 1] [9] eq_refl).
Defined.

(** *** The comment header *)

Lemma ToInt32_mod v : - 2 ^ 31 <= v < 2 ^ 31 -> ToInt32 (v mod 2 ^ 32) = v.
Proof.
  intros H. unfold ToInt32. rewrite Z.mod_mod by lia.
  destruct (Z.ltb_spec (v mod 2 ^ 32) (2 ^ 31)) as [Hlt|Hge].
  - destruct (Z.lt_ge_cases v 0) as [Hn|Hp].
    + replace (v mod 2 ^ 32) with (v + 2 ^ 32) in Hlt; [lia|].
      apply (Z.mod_unique _ _ (-1)); [left|]; lia.
    + apply Z.mod_small. lia.
  - destruct (Z.lt_ge_cases v 0) as [Hn|Hp].
    + replace (v mod 2 ^ 32) with (v + 2 ^ 32); [lia|].
      apply (Z.mod_unique _ _ (-1)); [left|]; lia.
    + rewrite Z.mod_small in Hge by lia. lia.
Qed.

Lemma nth_error_after (pre l : list Z) k :
  0 <= k -> nth_error (pre ++ l) (Z.to_nat (len pre + k)) = nth_error l (Z.to_nat k).
Proof.
  intros H. unfold len. rewrite nth_error_app2 by lia. f_equal. lia.
Qed.

(** A 4-byte little-endian field is read back as the signed value it
    encodes. *)
Lemma getInt32LE_field pre v rest off :
  len pre = off -> - 2 ^ 31 <= v < 2 ^ 31 ->
  getInt32LE (pre ++ leBytes 4 v ++ rest) off = Ok v.
Proof.
  intros <- Hv. unfold getInt32LE.
  pose proof (len_nonneg pre) as Hp.
  pose proof (leValue_leBytes 4 v) as Hval.
  cbn [leBytes] in *. cbn [app].
  rewrite (getUint32LE_nth _ _ (v mod 256) (v / 256 mod 256)
             (v / 256 / 256 mod 256) (v / 256 / 256 / 256 mod 256)).
  - cbn [rbind]. f_equal. cbn [leValue] in Hval.
    change (256 ^ Z.of_nat 4) with (2 ^ 32) in Hval.
    transitivity (ToInt32 (v mod 2 ^ 32)); [|apply ToInt32_mod, Hv].
    f_equal. rewrite <- Hval.
    generalize (v mod 256) ((v / 256) mod 256) ((v / 256 / 256) mod 256)
      ((v / 256 / 256 / 256) mod 256).
    intros; lia.
  - lia.
  - rewrite <- (Z.add_0_r (len pre)), nth_error_after by lia. reflexivity.
  - rewrite nth_error_after by lia. reflexivity.
  - rewrite nth_error_after by lia. reflexivity.
  - rewrite nth_error_after by lia. reflexivity.
Qed.

Lemma budget_cons c cs : budget (c :: cs) = len c + 4 + budget cs.
Proof. reflexivity. Qed.

Lemma budget_nonneg cs : 0 <= budget cs.
Proof.
  induction cs as [|c cs IH]; [reflexivity|].
  rewrite budget_cons. pose proof (len_nonneg c). lia.
Qed.

Lemma budget_app a b : budget (a ++ b) = budget a + budget b.
Proof.
  induction a as [|c a IH]; [reflexivity|].
  cbn [app]. rewrite !budget_cons, IH. lia.
Qed.

Lemma len_commentBytes c : len (commentBytes c) = len c + 4.
Proof.
  unfold commentBytes. rewrite len_app. unfold len at 1.
  rewrite leBytes_length. lia.
Qed.

(** Up to the comment loop: on an array that starts with the signature,
    the vendor length and the vendor string, then the list length. *)
Lemma parseOpusTags_prefix fuel vendor L body :
  len vendor < 2 ^ 31 -> - 2 ^ 31 <= L < 2 ^ 31 ->
  parseOpusTags fuel (Some (tagsPrefix vendor L ++ body))
  = match commentLoop fuel (tagsPrefix vendor L ++ body) (len vendor) L L []
    with
    | None => None
    | Some (Throw e) => Some (Throw e)
    | Some (Ok cs) =>
        Some (Ok {| vendorString := vendor; userCommentString := cs |})
    end.
Proof.
  intros Hv HL. pose proof (len_nonneg vendor) as Hv0.
  set (array := tagsPrefix vendor L ++ body).
  assert (E1 : array
               = opusCommentMagicSignature ++ leBytes 4 (len vendor)
                 ++ (vendor ++ leBytes 4 L ++ body)).
  { unfold array, tagsPrefix. rewrite <- !app_assoc. reflexivity. }
  assert (E2 : array
               = (opusCommentMagicSignature ++ leBytes 4 (len vendor))
                 ++ vendor ++ (leBytes 4 L ++ body)).
  { rewrite E1, <- !app_assoc. reflexivity. }
  assert (E3 : array
               = (opusCommentMagicSignature ++ leBytes 4 (len vendor)
                  ++ vendor) ++ leBytes 4 L ++ body).
  { rewrite E1, <- !app_assoc. reflexivity. }
  assert (S : signatureMatches array opusCommentMagicSignature = true).
  { apply signatureMatches_prefix. rewrite E1. reflexivity. }
  unfold parseOpusTags. rewrite S. cbn [negb].
  replace (getInt32LE array 8) with (Ok (len vendor)).
  2:{ symmetry. rewrite E1. apply getInt32LE_field; [reflexivity|lia]. }
  replace (getInt32LE array (12 + len vendor)) with (Ok L).
  2:{ symmetry. rewrite E3. apply getInt32LE_field; [|lia].
      rewrite !len_app. unfold len at 2. rewrite leBytes_length.
      change (len opusCommentMagicSignature) with 8. lia. }
  unfold decode.
  rewrite (slice_middle array _ vendor _ 12 (12 + len vendor) E2);
    [reflexivity| |reflexivity].
  rewrite len_app. unfold len at 2. rewrite leBytes_length. reflexivity.
Qed.

Lemma len_tagsPrefix vendor L : len (tagsPrefix vendor L) = 16 + len vendor.
Proof.
  unfold tagsPrefix, len. rewrite !length_app, !leBytes_length.
  change (length opusCommentMagicSignature) with 8%nat. lia.
Qed.

(** The comment loop spends [commentListLengthLeft] as a number of bytes:
    it reads comments until their sizes, 4 bytes of length field
    included, have used it up. *)
Lemma commentLoop_reads vl L extra :
  forall todo fuel pre acc left,
    len pre = 12 + vl + 4 + (L - left) ->
    Forall (fun c => len c < 2 ^ 31) todo ->
    (forall init last tail, todo = init ++ last :: tail -> budget init < left) ->
    left <= budget todo ->
    (length todo <= fuel)%nat ->
    commentLoop fuel (pre ++ concat (map commentBytes todo) ++ extra)
      vl L left acc
    = Some (Ok (acc ++ todo)).
Proof.
  induction todo as [|c todo IH];
    intros fuel pre acc left Hpre Hall Hinit Hle Hfuel.
  - change (budget []) with 0 in Hle.
    destruct fuel; cbn [commentLoop];
      replace (0 <? left) with false by (symmetry; apply Z.ltb_ge; lia);
      rewrite app_nil_r; reflexivity.
  - destruct fuel as [|fuel]; [cbn [length] in Hfuel; lia|].
    assert (Hpos : 0 < left) by apply (Hinit [] c todo eq_refl).
    pose proof (len_nonneg c) as Hc0.
    assert (Hc : len c < 2 ^ 31) by (inversion Hall; assumption).
    assert (Hall' : Forall (fun c => len c < 2 ^ 31) todo)
      by (inversion Hall; assumption).
    set (rest := concat (map commentBytes todo) ++ extra).
    assert (E : pre ++ concat (map commentBytes (c :: todo)) ++ extra
                = pre ++ leBytes 4 (len c) ++ c ++ rest).
    { cbn [map concat]. unfold commentBytes at 1, rest.
      rewrite <- !app_assoc. reflexivity. }
    assert (E' : pre ++ leBytes 4 (len c) ++ c ++ rest
                 = (pre ++ leBytes 4 (len c)) ++ c ++ rest)
      by (rewrite <- !app_assoc; reflexivity).
    rewrite E. cbn [commentLoop].
    replace (0 <? left) with true by (symmetry; apply Z.ltb_lt; lia).
    cbv zeta.
    rewrite (getInt32LE_field pre (len c) (c ++ rest)) by lia.
    unfold decode.
    rewrite (slice_middle _ _ c rest _ _ E')
      by (try lia; rewrite len_app; unfold len at 2;
          rewrite leBytes_length; lia).
    replace (pre ++ leBytes 4 (len c) ++ c ++ rest)
      with ((pre ++ commentBytes c) ++ rest)
      by (unfold commentBytes; rewrite <- !app_assoc; reflexivity).
    unfold rest. rewrite IH.
    + rewrite <- app_assoc. reflexivity.
    + rewrite len_app, len_commentBytes. lia.
    + assumption.
    + intros init last tail ->.
      specialize (Hinit (c :: init) last tail eq_refl).
      rewrite budget_cons in Hinit. lia.
    + rewrite budget_cons in Hle. lia.
    + cbn [length] in Hfuel. lia.
Qed.

(** A comment header laid out as the parser walks it, with the comment
    list length holding the number of bytes the comments take (each with
    its 4-byte length field), is read back exactly: the vendor string and
    every comment, whatever bytes follow, once the fuel covers one round
    per comment. *)
Theorem parseOpusTags_reads_back :
  forall vendor cs extra fuel,
    len vendor < 2 ^ 31 -> budget cs < 2 ^ 31 -> (length cs <= fuel)%nat ->
    parseOpusTags fuel (Some (tagsBytes vendor cs ++ extra))
    = Some (Ok {| vendorString := vendor; userCommentString := cs |}).
Proof.
  intros vendor cs extra fuel Hv Hb Hfuel.
  pose proof (budget_nonneg cs) as Hb0.
  unfold tagsBytes. rewrite <- app_assoc.
  rewrite parseOpusTags_prefix by lia.
  rewrite (commentLoop_reads (len vendor) (budget cs) extra cs fuel
             (tagsPrefix vendor (budget cs)) [] (budget cs)).
  - reflexivity.
  - rewrite len_tagsPrefix. lia.
  - apply Forall_forall. intros c Hc.
    destruct (in_split _ _ Hc) as (a & b & ->).
    rewrite budget_app, budget_cons in Hb.
    pose proof (budget_nonneg a). pose proof (budget_nonneg b). lia.
  - intros init last tail ->. rewrite budget_app, budget_cons.
    pose proof (budget_nonneg tail). pose proof (len_nonneg last). lia.
  - lia.
  - assumption.
Qed.

Lemma parseOpusTags_reads_back_witness :
  parseOpusTags 2
    (Some (tagsBytes [0x6c; 0x69; 0x62] [[0x61; 0x3d; 0x62]; []] ++ [7; 7]))
  = Some (Ok {| vendorString := [0x6c; 0x69; 0x62];
                userCommentString := [[0x61; 0x3d; 0x62]; []] |}).
Proof.
  apply (parseOpusTags_reads_back [0x6c; 0x69; 0x62]
           [[0x61; 0x3d; 0x62]; []] [7; 7] 2);
    [reflexivity|reflexivity|apply le_n].
Defined.

(** The comment list length is a byte budget, not a number of comments:
    the comments returned are the shortest run whose sizes, length fields
    included, reach it.  With a list length of at most 0 none is read,
    and what follows the run is never looked at. *)
Theorem parseOpusTags_list_length_is_bytes :
  forall vendor L cs extra fuel,
    len vendor < 2 ^ 31 -> - 2 ^ 31 <= L < 2 ^ 31 ->
    Forall (fun c => len c < 2 ^ 31) cs ->
    (forall init last tail, cs = init ++ last :: tail -> budget init < L) ->
    L <= budget cs ->
    (length cs <= fuel)%nat ->
    parseOpusTags fuel
      (Some (tagsPrefix vendor L ++ concat (map commentBytes cs) ++ extra))
    = Some (Ok {| vendorString := vendor; userCommentString := cs |}).
Proof.
  intros vendor L cs extra fuel Hv HL Hall Hinit Hle Hfuel.
  rewrite parseOpusTags_prefix by lia.
  rewrite (commentLoop_reads (len vendor) L extra cs fuel
             (tagsPrefix vendor L) [] L);
    try assumption; [reflexivity|].
  rewrite len_tagsPrefix. lia.
Qed.

Lemma parseOpusTags_list_length_is_bytes_witness :
  parseOpusTags 1
    (Some (tagsPrefix [0x6c] 2
           ++ concat (map commentBytes [[0x61; 0x3d; 0x62]])
           ++ commentBytes [0x63; 0x3d; 0x64]))
  = Some (Ok {| vendorString := [0x6c];
                userCommentString := [[0x61; 0x3d; 0x62]] |}).
Proof.
  apply (parseOpusTags_list_length_is_bytes [0x6c] 2 [[0x61; 0x3d; 0x62]]
           (commentBytes [0x63; 0x3d; 0x64]) 1).
  - reflexivity.
  - split; [discriminate|reflexivity].
  - repeat constructor.
  - intros init last tail E.
    destruct init as [|c0 init]; [reflexivity|].
    destruct init; discriminate.
  - discriminate.
  - apply le_n.
Defined.

(** The loop is left only when the remaining length is at most 0, and a
    comment whose length field holds -4 takes nothing off it: the same
    field is read again and again. *)
Lemma commentLoop_stuck array vl L :
  0 < L -> getInt32LE array (12 + vl + 4 + (L - L)) = Ok (-4) ->
  forall fuel acc, commentLoop fuel array vl L L acc = None.
Proof.
  intros HL Hget. induction fuel as [|fuel IH]; intros acc.
  - cbn [commentLoop].
    replace (0 <? L) with true by (symmetry; apply Z.ltb_lt; lia).
    reflexivity.
  - cbn [commentLoop].
    replace (0 <? L) with true by (symmetry; apply Z.ltb_lt; lia).
    cbv zeta. rewrite Hget.
    replace (L - (-4 + 4)) with L by lia. apply IH.
Qed.

(** A comment header with a positive list length whose first comment
    length field holds -4 (bytes fc ff ff ff) is never finished: each
    round takes [userCommentStringLength + 4 = 0] off the remaining
    length, so no amount of fuel gives a result. *)
Theorem parseOpusTags_never_returns :
  forall vendor L extra fuel,
    len vendor < 2 ^ 31 -> 0 < L < 2 ^ 31 ->
    parseOpusTags fuel (Some (tagsPrefix vendor L ++ leBytes 4 (-4) ++ extra))
    = None.
Proof.
  intros vendor L extra fuel Hv HL.
  rewrite parseOpusTags_prefix by lia.
  rewrite commentLoop_stuck; [reflexivity|lia|].
  apply getInt32LE_field; [|lia]. rewrite len_tagsPrefix. lia.
Qed.

Lemma parseOpusTags_never_returns_witness :
  parseOpusTags 1000
    (Some (tagsPrefix [0x6c] 1 ++ leBytes 4 (-4) ++ [])) = None.
Proof.
  apply (parseOpusTags_never_returns [0x6c] 1 [] 1000);
    [reflexivity|split; reflexivity].
Defined.

(** *** Whole pages *)

Lemma mainLoop_pages fuel rounds rest :
  forall pages out,
    Forall plainPage pages ->
    mainLoop fuel (length pages + rounds)
      (mk [] (concat (map pageBytes pages) ++ rest) out)
    = mainLoop fuel rounds
        (mk [] rest (out ++ map (fun p => LogReport (pageReport p)) pages)).
Proof.
  induction pages as [|p pages IH]; intros out Hall.
  - cbn [length map concat Nat.add app]. now rewrite app_nil_r.
  - inversion Hall as [|p' pages' (Hw & H0 & H1 & H3) Hrest]; subst.
    cbn [length map concat Nat.add]. unfold pageBytes at 1.
    rewrite <- !app_assoc. rewrite mainLoop_page by assumption.
    cbn [app]. rewrite IH by assumption.
    rewrite <- app_assoc. reflexivity.
Qed.

(** A file made of whole pages, none of them numbered 0, 1 or 3, is
    reported page by page in file order.  [cache] is empty again after
    each page, so each computed checksum covers the 26 bytes of that
    page's own header and nothing of the pages before it.  The run then
    goes on with whatever follows the pages, and when nothing follows it
    ends with the end-of-file error. *)
Theorem pages_are_reported_in_order :
  forall pages fuel,
    Forall plainPage pages ->
    (forall rounds rest out,
       mainLoop fuel (length pages + rounds)
         (mk [] (concat (map pageBytes pages) ++ rest) out)
       = mainLoop fuel rounds
           (mk [] rest (out ++ map (fun p => LogReport (pageReport p)) pages)))
    /\ (forall rounds,
          (length pages < rounds)%nat ->
          main fuel rounds (concat (map pageBytes pages))
          = Raise FileStreamFinished
              (mk [] [] (map (fun p => LogReport (pageReport p)) pages))).
Proof.
  intros pages fuel Hall. split.
  - intros rounds rest out. now apply mainLoop_pages.
  - intros rounds Hr. unfold main.
    replace rounds with (length pages + S (rounds - S (length pages)))%nat
      by lia.
    rewrite <- (app_nil_r (concat (map pageBytes pages))).
    change {| cache := []; oggFile := concat (map pageBytes pages) ++ [];
              console := [] |}
      with (mk [] (concat (map pageBytes pages) ++ []) []).
    rewrite mainLoop_pages by assumption.
    apply mainLoop_raise. reflexivity.
Qed.

Lemma pages_are_reported_in_order_witness :
  main 0 3
    (concat (map pageBytes
       [ {| pVersion := 0; pType := 0; pGranule := repeat 0 8;
            pSerial := [1; 0; 0; 0]; pSequence := [2; 0; 0; 0];
            pChecksum := [9; 9; 9; 9]; pSegments := [[7; 7]] |};
         {| pVersion := 0; pType := 4; pGranule := repeat 1 8;
            pSerial := [1; 0; 0; 0]; pSequence := [4; 0; 0; 0];
            pChecksum := [8; 8; 8; 8]; pSegments := [] |} ]))
  = Raise FileStreamFinished
      (mk [] []
         (map (fun p => LogReport (pageReport p))
            [ {| pVersion := 0; pType := 0; pGranule := repeat 0 8;
                 pSerial := [1; 0; 0; 0]; pSequence := [2; 0; 0; 0];
                 pChecksum := [9; 9; 9; 9]; pSegments := [[7; 7]] |};
              {| pVersion := 0; pType := 4; pGranule := repeat 1 8;
                 pSerial := [1; 0; 0; 0]; pSequence := [4; 0; 0; 0];
                 pChecksum := [8; 8; 8; 8]; pSegments := [] |} ])).
Proof.
  refine (proj2 (pages_are_reported_in_order _ 0%nat _) 3%nat _).
  - repeat apply Forall_cons; try apply Forall_nil;
      (split; [|repeat split; discriminate]);
      unfold wellSized, len; cbn;
      repeat split; try lia; repeat constructor; discriminate.
  - cbn. lia.
Defined.

(** *** The codec headers of a stream *)

Lemma dispatch_header fuel seg segs c f out :
  dispatch fuel 0 (seg :: segs) (mk c f out)
  = match parseOpusHeader (Some seg) with
    | Ok h => Done tt (mk [] f (out ++ [LogHeaderPage; LogOpusHeader h]))
    | Throw e => Raise e (mk c f (out ++ [LogHeaderPage]))
    end.
Proof.
  unfold dispatch. cbn [nth_error]. change (0 =? 0) with true.
  change (0 =? 1) with false. change (0 =? 3) with false. cbv iota.
  generalize (parseOpusHeader (Some seg)). intros [h|e].
  - cbv -[app]. rewrite <- app_assoc. reflexivity.
  - reflexivity.
Qed.

Lemma dispatch_tags fuel seg segs c f out :
  dispatch fuel 1 (seg :: segs) (mk c f out)
  = match parseOpusTags fuel (Some seg) with
    | Some (Ok t) => Done tt (mk [] f (out ++ [LogTagsPage; LogOpusTags t]))
    | Some (Throw e) => Raise e (mk c f (out ++ [LogTagsPage]))
    | None => OutOfFuel
    end.
Proof.
  unfold dispatch. cbn [nth_error]. change (1 =? 0) with false.
  change (1 =? 1) with true. change (1 =? 3) with false. cbv iota.
  generalize (parseOpusTags fuel (Some seg)). intros [[t|e]|].
  - cbv -[app]. rewrite <- app_assoc. reflexivity.
  - reflexivity.
  - reflexivity.
Qed.

(** Page 0 and page 1 of a stream.  After the report, the first segment
    of page 0 is decoded as an identification header and the first
    segment of page 1 as a comment header; the other segments are not
    looked at.  When the decoder returns, its record is printed and the
    scan goes on after the page with [cache] empty; when it throws, the
    run ends there with that error, only the announcement printed. *)
Theorem codec_pages_are_decoded :
  forall fuel rounds c out v t g s q k seg segs rest,
    wellSized g s q k (seg :: segs) ->
    let st :=
      mk c (Spec.capturePattern ++ pageBody v t g s q k (seg :: segs) ++ rest)
         out in
    let report :=
      LogReport (reportOf (c ++ singles Spec.capturePattern)
                   v t g s q k (seg :: segs)) in
    let read :=
      (c ++ singles Spec.capturePattern)
      ++ [[v]; [t]; g; s; q; k; [len (seg :: segs)]; map len (seg :: segs)]
      ++ seg :: segs in
    (le32 q = 0 ->
       (forall h, parseOpusHeader (Some seg) = Ok h ->
          mainLoop fuel (S rounds) st
          = mainLoop fuel rounds
              (mk [] rest (out ++ [report; LogHeaderPage; LogOpusHeader h])))
       /\ (forall e, parseOpusHeader (Some seg) = Throw e ->
             mainLoop fuel (S rounds) st
             = Raise e (mk read rest (out ++ [report; LogHeaderPage]))))
    /\ (le32 q = 1 ->
          (forall r, parseOpusTags fuel (Some seg) = Some (Ok r) ->
             mainLoop fuel (S rounds) st
             = mainLoop fuel rounds
                 (mk [] rest (out ++ [report; LogTagsPage; LogOpusTags r])))
          /\ (forall e, parseOpusTags fuel (Some seg) = Some (Throw e) ->
                mainLoop fuel (S rounds) st
                = Raise e (mk read rest (out ++ [report; LogTagsPage])))).
Proof.
  intros fuel rounds c out v t g s q k seg segs rest Hw st report read.
  assert (Hbody : loopBody fuel st
                  = dispatch fuel (le32 q) (seg :: segs)
                      (mk read rest (out ++ [report]))).
  { unfold st. rewrite loopBody_sync, readPage_full by assumption.
    reflexivity. }
  split; intros Hq; rewrite Hq in Hbody; split.
  - intros h Hh. apply mainLoop_next. rewrite Hbody, dispatch_header, Hh.
    rewrite <- app_assoc. reflexivity.
  - intros e He. apply mainLoop_raise. rewrite Hbody, dispatch_header, He.
    rewrite <- app_assoc. reflexivity.
  - intros r Hr. apply mainLoop_next. rewrite Hbody, dispatch_tags, Hr.
    rewrite <- app_assoc. reflexivity.
  - intros e He. apply mainLoop_raise. rewrite Hbody, dispatch_tags, He.
    rewrite <- app_assoc. reflexivity.
Qed.

Lemma codec_pages_are_decoded_witness :
  mainLoop 0 1
    (mk [] (Spec.capturePattern
            ++ pageBody 0 2 (repeat 0 8) [1; 0; 0; 0] [0; 0; 0; 0]
                 [9; 9; 9; 9] [[1; 2; 3]] ++ [5]) [])
  = Raise InvalidMagicSignature
      (mk (([] ++ singles Spec.capturePattern)
           ++ [[0]; [2]; repeat 0 8; [1; 0; 0; 0]; [0; 0; 0; 0];
               [9; 9; 9; 9]; [len [[1; 2; 3]]]; map len [[1; 2; 3]]]
           ++ [[1; 2; 3]])
          [5]
          ([] ++ [LogReport
                    (reportOf ([] ++ singles Spec.capturePattern)
                       0 2 (repeat 0 8) [1; 0; 0; 0] [0; 0; 0; 0]
                       [9; 9; 9; 9] [[1; 2; 3]]);
                  LogHeaderPage])).
Proof.
  refine (proj2 (proj1 (codec_pages_are_decoded 0%nat 0%nat [] [] 0 2
                          (repeat 0 8) [1; 0; 0; 0] [0; 0; 0; 0]
                          [9; 9; 9; 9] [1; 2; 3] [] [5] _) _)
            InvalidMagicSignature _).
  - unfold wellSized, len. cbn.
    repeat split; try lia. repeat constructor; discriminate.
  - reflexivity.
  - reflexivity.
Defined.

(** *** The cache *)

Lemma skipn_repeat {A} (x : A) n m : skipn m (repeat x n) = repeat x (n - m).
Proof.
  revert m. induction n as [|n IH]; intros [|m]; cbn; auto.
Qed.

Lemma readMultiple_done n s a s' :
  readMultiple n s = Done a s' ->
  0 <= n
  /\ a = firstn (Z.to_nat n) (oggFile s)
         ++ repeat 0 (Z.to_nat n - length (oggFile s))
  /\ oggFile s' = skipn (Z.to_nat n) (oggFile s)
  /\ cache s' = cache s ++ [a]
  /\ console s' = console s.
Proof.
  destruct s as [c f out]. unfold readMultiple, bind, lift, Uint8Array.
  destruct (Z.ltb_spec n 0) as [Hn|Hn]; [discriminate|].
  destruct (maxIndex <? n); [discriminate|]. cbn [orb].
  unfold fileRead, FsFile.read. cbn [oggFile cache console].
  destruct (Z.to_nat n) as [|m] eqn:E.
  - cbn [repeat]. unfold cachePush, ret. cbn [oggFile cache console].
    intros H. inversion H; subst. cbn. repeat split; auto.
  - cbn [repeat]. destruct f as [|b f]; [discriminate|].
    unfold cachePush, ret. cbn [oggFile cache console].
    intros H. inversion H; subst. clear H.
    change (0 :: repeat 0 m) with (repeat 0 (S m)).
    rewrite repeat_length, skipn_repeat, length_firstn.
    split; [assumption|]. split; [|repeat split].
    cbn [firstn length app Nat.sub]. do 3 f_equal. lia.
Qed.

(** Every read that returns is recorded, in read order, in [cache]: the
    byte [read] returns is the next byte of the file, and the array
    [readMultiple] returns has the length asked for, holds the next
    bytes of the file followed by zeros for those the file no longer
    has, and is what [getMergedCache] gains at its end.  The console is
    not touched. *)
Theorem reads_are_cached :
  (forall s b s',
      read s = Done b s' ->
      oggFile s = b :: oggFile s'
      /\ cache s' = cache s ++ [[b]]
      /\ console s' = console s)
  /\ (forall n s a s',
        readMultiple n s = Done a s' ->
        len a = n
        /\ a = firstn (Z.to_nat n) (oggFile s)
               ++ repeat 0 (Z.to_nat n - length (oggFile s))
        /\ oggFile s' = skipn (Z.to_nat n) (oggFile s)
        /\ cache s' = cache s ++ [a]
        /\ console s' = console s
        /\ getMergedCache s' = Done (concat (cache s) ++ a) s').
Proof.
  split.
  - intros [c f out] b s'. destruct f as [|x f].
    + pose proof (read_nil c out) as R. unfold mk in R. rewrite R.
      discriminate.
    + pose proof (read_cons c x f out) as R. unfold mk in R. rewrite R.
      intros H. inversion H; subst. repeat split.
  - intros n s a s' H.
    destruct (readMultiple_done n s a s' H) as (Hn & Ha & Hf & Hc & Ho).
    split; [|repeat split; try assumption].
    + rewrite Ha. unfold len.
      rewrite length_app, length_firstn, repeat_length. lia.
    + unfold getMergedCache. rewrite Hc, concat_app. cbn [concat].
      now rewrite app_nil_r.
Qed.

Lemma reads_are_cached_witness :
  len [7; 8; 0] = 3
  /\ [7; 8; 0] = firstn (Z.to_nat 3) (oggFile (mk [[1]] [7; 8] []))
                 ++ repeat 0 (Z.to_nat 3 - length (oggFile (mk [[1]] [7; 8] [])))
  /\ oggFile (mk [[1]; [7; 8; 0]] [] [])
     = skipn (Z.to_nat 3) (oggFile (mk [[1]] [7; 8] []))
  /\ cache (mk [[1]; [7; 8; 0]] [] []) = cache (mk [[1]] [7; 8] []) ++ [[7; 8; 0]]
  /\ console (mk [[1]; [7; 8; 0]] [] []) = console (mk [[1]] [7; 8] [])
  /\ getMergedCache (mk [[1]; [7; 8; 0]] [] [])
     = Done (concat (cache (mk [[1]] [7; 8] [])) ++ [7; 8; 0])
         (mk [[1]; [7; 8; 0]] [] []).
Proof.
  apply (proj2 reads_are_cached 3 (mk [[1]] [7; 8] []) [7; 8; 0]
           (mk [[1]; [7; 8; 0]] [] [])).
  reflexivity.
Defined.

(** *** The checksum *)

Ltac xor_bits :=
  apply Z.bits_inj'; intros ? _; rewrite ?Z.lxor_spec;
  repeat match goal with
         | |- context [Z.testbit ?a ?n] => destruct (Z.testbit a n)
         end;
  reflexivity.

Lemma bitRound_lxor P x y :
  bitRound P (Z.lxor x y) = Z.lxor (bitRound P x) (bitRound P y).
Proof.
  unfold bitRound. rewrite <- !Z.bit0_odd, Z.lxor_spec, Z.shiftr_lxor.
  destruct (Z.testbit x 0), (Z.testbit y 0); cbn [xorb]; xor_bits.
Qed.

Lemma iter_bitRound_lxor P k x y :
  Nat.iter k (bitRound P) (Z.lxor x y)
  = Z.lxor (Nat.iter k (bitRound P) x) (Nat.iter k (bitRound P) y).
Proof.
  induction k as [|k IH]; [reflexivity|].
  rewrite !Nat.iter_succ. now rewrite IH, bitRound_lxor.
Qed.

Lemma bitRound_shiftl P h j :
  0 <= j -> bitRound P (Z.shiftl h (j + 1)) = Z.shiftl h j.
Proof.
  intros H. unfold bitRound.
  rewrite <- Z.bit0_odd, Z.shiftl_spec_low by lia.
  rewrite Z.shiftr_shiftl_l by lia. f_equal. lia.
Qed.

Lemma iter_bitRound_shiftl P h k :
  forall j, 0 <= j ->
    Nat.iter k (bitRound P) (Z.shiftl h (Z.of_nat k + j)) = Z.shiftl h j.
Proof.
  induction k as [|k IH]; intros j Hj; [reflexivity|].
  rewrite Nat.iter_succ.
  replace (Z.of_nat (S k) + j) with (Z.of_nat k + (j + 1)) by lia.
  rewrite IH by lia. now apply bitRound_shiftl.
Qed.

Lemma split_low_byte c :
  c = Z.lxor (Z.land c 255) (Z.shiftl (Z.shiftr c 8) 8).
Proof.
  apply Z.bits_inj'. intros n Hn.
  rewrite Z.lxor_spec, Z.land_spec. change 255 with (Z.ones 8).
  destruct (Z.lt_ge_cases n 8) as [Hlt|Hge].
  - rewrite Z.ones_spec_low, Z.shiftl_spec_low by lia.
    now rewrite andb_true_r, xorb_false_r.
  - rewrite Z.ones_spec_high, Z.shiftl_spec, Z.shiftr_spec by lia.
    rewrite andb_false_r, xorb_false_l. f_equal. lia.
Qed.

(** Eight rounds on a word are eight rounds on its low byte and a shift
    of the rest: what the table is for. *)
Lemma bitByte_table P c :
  Nat.iter 8 (bitRound P) c
  = Z.lxor (Z.shiftr c 8) (Nat.iter 8 (bitRound P) (Z.land c 255)).
Proof.
  rewrite (split_low_byte c) at 1.
  rewrite iter_bitRound_lxor.
  pose proof (iter_bitRound_shiftl P (Z.shiftr c 8) 8 0 ltac:(lia)) as Hs.
  change (Z.of_nat 8 + 0) with 8 in Hs. rewrite Hs.
  rewrite Z.shiftl_0_r. apply Z.lxor_comm.
Qed.

(** The entries of [crcTable], checked one by one. *)
Lemma crcTable_entry n :
  0 <= n < 256 ->
  at0 crcTable n = Nat.iter 8 (bitRound 0x04c11db7) n
  /\ 0 <= at0 crcTable n < 2 ^ 31.
Proof.
  intros H.
  assert (A : forallb
                (fun n => (at0 crcTable n
                           =? Nat.iter 8 (bitRound 0x04c11db7) n)
                          && (0 <=? at0 crcTable n)
                          && (at0 crcTable n <? 2 ^ 31))
                (map Z.of_nat (seq 0 256)) = true) by (vm_compute; reflexivity).
  rewrite forallb_forall in A. specialize (A n).
  assert (Hin : In n (map Z.of_nat (seq 0 256))).
  { apply in_map_iff. exists (Z.to_nat n). split; [lia|]. apply in_seq. lia. }
  apply A in Hin. rewrite !andb_true_iff in Hin.
  destruct Hin as ((H1 & H2) & H3).
  apply Z.eqb_eq in H1. apply Z.leb_le in H2. apply Z.ltb_lt in H3. auto.
Qed.

Lemma lxor_below a b k :
  0 <= k -> 0 <= a < 2 ^ k -> 0 <= b < 2 ^ k -> 0 <= Z.lxor a b < 2 ^ k.
Proof.
  intros Hk Ha Hb.
  assert (H0 : 0 <= Z.lxor a b) by (apply Z.lxor_nonneg; lia).
  split; [exact H0|].
  destruct (Z.eq_dec (Z.lxor a b) 0) as [->|Hne]; [lia|].
  apply Z.log2_lt_pow2; [lia|].
  pose proof (Z.log2_lxor a b ltac:(lia) ltac:(lia)) as Hl.
  assert (Hk0 : 0 < k).
  { destruct (Z.eq_dec k 0) as [->|]; [|lia]. exfalso. apply Hne.
    assert (a = 0) by (cbn in Ha; lia). assert (b = 0) by (cbn in Hb; lia).
    subst. reflexivity. }
  assert (Z.log2 a < k).
  { destruct (Z.eq_dec a 0) as [->|]; [cbn; lia|]. apply Z.log2_lt_pow2; lia. }
  assert (Z.log2 b < k).
  { destruct (Z.eq_dec b 0) as [->|]; [cbn; lia|]. apply Z.log2_lt_pow2; lia. }
  lia.
Qed.

Lemma land_lxor_distr a b c :
  Z.land (Z.lxor a b) c = Z.lxor (Z.land a c) (Z.land b c).
Proof.
  apply Z.bits_inj'. intros n _.
  rewrite Z.lxor_spec, !Z.land_spec, Z.lxor_spec.
  destruct (Z.testbit a n), (Z.testbit b n), (Z.testbit c n); reflexivity.
Qed.

Lemma land_255_mod x : Z.land x 255 = x mod 2 ^ 8.
Proof. change 255 with (Z.ones 8). apply Z.land_ones. lia. Qed.

Lemma mod_256_of_mod x : (x mod 2 ^ 32) mod 2 ^ 8 = x mod 2 ^ 8.
Proof.
  change (2 ^ 32) with (2 ^ 8 * 2 ^ 24).
  rewrite Z.rem_mul_r by lia.
  rewrite (Z.mul_comm (2 ^ 8)), Z.mod_add by lia. apply Z.mod_mod. lia.
Qed.

Lemma ToInt32_unsigned x : ToInt32 x mod 2 ^ 32 = x mod 2 ^ 32.
Proof.
  unfold ToInt32. destruct (x mod 2 ^ 32 <? 2 ^ 31).
  - apply Z.mod_mod. lia.
  - replace (x mod 2 ^ 32 - 2 ^ 32) with (x mod 2 ^ 32 + (-1) * 2 ^ 32) by lia.
    rewrite Z.mod_add by lia. apply Z.mod_mod. lia.
Qed.

Lemma ToInt32_in_range v : - 2 ^ 31 <= v < 2 ^ 31 -> ToInt32 v = v.
Proof.
  intros H. rewrite <- (ToInt32_mod v H) at 2. unfold ToInt32.
  now rewrite Z.mod_mod by lia.
Qed.

(** One step of the table-driven loop on a signed state is eight
    bitwise rounds on the unsigned state, and leaves a state below
    2^31. *)
Lemma crcUpdate_bitByte s b :
  - 2 ^ 31 <= s < 2 ^ 31 -> 0 <= b < 256 ->
  crcUpdate s b = bitByte 0x04c11db7 (s mod 2 ^ 32) b
  /\ 0 <= crcUpdate s b < 2 ^ 31.
Proof.
  intros Hs Hb. set (u := s mod 2 ^ 32).
  assert (Hu : 0 <= u < 2 ^ 32) by (apply Z.mod_pos_bound; lia).
  assert (Hidx : band (bxor s b) 0xff = Z.land (Z.lxor u b) 255).
  { unfold band, bxor. change (ToInt32 255) with 255.
    rewrite !land_255_mod, <- mod_256_of_mod, ToInt32_unsigned, mod_256_of_mod.
    rewrite (ToInt32_in_range s Hs), (ToInt32_small b) by lia.
    rewrite <- !land_255_mod, !land_lxor_distr.
    f_equal. rewrite !land_255_mod. unfold u. symmetry. apply mod_256_of_mod. }
  assert (Hi : 0 <= Z.land (Z.lxor u b) 255 < 256).
  { rewrite land_255_mod. apply Z.mod_pos_bound. lia. }
  destruct (crcTable_entry _ Hi) as (HT & HTr).
  assert (Hsh : shru s 8 = Z.shiftr u 8) by reflexivity.
  assert (Hhi : 0 <= Z.shiftr u 8 < 2 ^ 31).
  { rewrite Z.shiftr_div_pow2 by lia. split; [apply Z.div_pos; lia|].
    apply Z.div_lt_upper_bound; lia. }
  assert (E : crcUpdate s b
              = Z.lxor (Z.shiftr u 8) (at0 crcTable (Z.land (Z.lxor u b) 255))).
  { unfold crcUpdate. rewrite Hidx, Hsh. unfold bxor.
    now rewrite !ToInt32_small by lia. }
  split.
  - rewrite E, HT. unfold bitByte. rewrite (bitByte_table _ (Z.lxor u b)).
    f_equal. rewrite Z.shiftr_lxor.
    replace (Z.shiftr b 8) with 0; [now rewrite Z.lxor_0_r|].
    rewrite Z.shiftr_div_pow2 by lia. symmetry. apply Z.div_small. lia.
  - rewrite E. apply lxor_below; lia.
Qed.

Lemma fold_crcUpdate x :
  bytes x ->
  forall s, - 2 ^ 31 <= s < 2 ^ 31 ->
    (fold_left crcUpdate x s) mod 2 ^ 32
    = fold_left (bitByte 0x04c11db7) x (s mod 2 ^ 32)
    /\ - 2 ^ 31 <= fold_left crcUpdate x s < 2 ^ 31.
Proof.
  induction 1 as [|b x Hb _ IH]; intros s Hs.
  - cbn [fold_left]. split; [reflexivity|exact Hs].
  - cbn [fold_left].
    destruct (crcUpdate_bitByte s b Hs Hb) as (E & R).
    destruct (IH (crcUpdate s b) ltac:(lia)) as (IH1 & IH2).
    split; [|exact IH2].
    rewrite IH1. f_equal. rewrite E. apply Z.mod_small.
    rewrite <- E. lia.
Qed.

(** The table-driven [crc32] is the bit-by-bit, right-shifting checksum
    with initial value and final XOR 0xFFFFFFFF for the constant
    0x04c11db7 the table is built with; the checksum of the
    specification is the same computation for 0xEDB88320.  The result is
    an unsigned 32-bit number. *)
Theorem crc32_is_bitwise :
  (forall x, bytes x -> crc32 x = bitwiseCrc 0x04c11db7 x)
  /\ (forall x, Spec.crc32 x = bitwiseCrc 0xEDB88320 x)
  /\ (forall x, 0 <= crc32 x < 2 ^ 32).
Proof.
  split; [|split].
  - intros x Hx. unfold crc32, bitwiseCrc.
    change (bxor 0 (-1)) with (-1).
    destruct (fold_crcUpdate x Hx (-1) ltac:(lia)) as (E & R).
    change ((-1) mod 2 ^ 32) with 0xFFFFFFFF in E. rewrite <- E.
    set (crc := fold_left crcUpdate x (-1)) in *.
    unfold shru, bxor. change (Z.land (ToUint32 0) 31) with 0.
    rewrite Z.shiftr_0_r. unfold ToUint32.
    rewrite (ToInt32_in_range crc R). change (ToInt32 (-1)) with (-1).
    rewrite <- !Z.land_ones by lia.
    rewrite land_lxor_distr. f_equal.
  - intros x. reflexivity.
  - intros x. unfold crc32, shru. change (Z.land (ToUint32 0) 31) with 0.
    rewrite Z.shiftr_0_r. unfold ToUint32. apply Z.mod_pos_bound. lia.
Qed.

Lemma crc32_is_bitwise_witness :
  crc32 Spec.checkInput = bitwiseCrc 0x04c11db7 Spec.checkInput.
Proof.
  apply (proj1 crc32_is_bitwise Spec.checkInput).
  repeat (apply Forall_cons; [lia|]). apply Forall_nil.
Defined.

End OggMoreFacts.

(** ** More of the chunked-container program *)

Module CafMoreFacts.
Import Js JsFacts ParseCaf CafStreams CafFacts Encodings EncodingFacts CafMore.
Local Open Scope js_scope.

(** *** The number decoders *)

Lemma bigEndian_snoc a b : bigEndian (a ++ [b]) = 2 ^ 8 * bigEndian a + b.
Proof. unfold bigEndian. rewrite fold_left_app. reflexivity. Qed.

Lemma bigEndian_rev l : bigEndian (rev l) = leValue l.
Proof.
  induction l as [|b l IH]; [reflexivity|].
  cbn [rev leValue]. rewrite bigEndian_snoc, IH. lia.
Qed.

Lemma bigEndian_beBytes n v : bigEndian (beBytes n v) = v mod 256 ^ Z.of_nat n.
Proof. unfold beBytes. rewrite bigEndian_rev. apply leValue_leBytes. Qed.

Lemma bytes_rev l : bytes l -> bytes (rev l).
Proof. unfold bytes. apply Forall_rev. Qed.

Lemma beBytes_bytes n v : bytes (beBytes n v).
Proof. apply bytes_rev, leBytes_bytes. Qed.

Lemma beBytes_length n v : length (beBytes n v) = n.
Proof. unfold beBytes. rewrite length_rev. apply leBytes_length. Qed.

Lemma bigEndian_range a : bytes a -> 0 <= bigEndian a < 256 ^ Z.of_nat (length a).
Proof.
  intros H. pose proof (leValue_range (rev a) (bytes_rev a H)) as R.
  rewrite <- bigEndian_rev, rev_involutive, length_rev in R. exact R.
Qed.

Lemma beBytes_bigEndian a : bytes a -> beBytes (length a) (bigEndian a) = a.
Proof.
  intros H. unfold beBytes.
  pose proof (leBytes_leValue (rev a) (bytes_rev a H)) as R.
  rewrite <- bigEndian_rev, rev_involutive, length_rev in R.
  rewrite R. apply rev_involutive.
Qed.

(** The bytes of a value depend on it modulo 256^n only. *)
Lemma leBytes_mod n v : leBytes n (v mod 256 ^ Z.of_nat n) = leBytes n v.
Proof.
  rewrite <- (leValue_leBytes n v).
  rewrite <- (leBytes_length n v) at 1.
  apply leBytes_leValue, leBytes_bytes.
Qed.

Lemma ToInt32_eqm x y : x mod 2 ^ 32 = y mod 2 ^ 32 -> ToInt32 x = ToInt32 y.
Proof. intros H. unfold ToInt32. now rewrite H. Qed.

Lemma ToInt32_mod_eq x : ToInt32 x mod 2 ^ 32 = x mod 2 ^ 32.
Proof.
  unfold ToInt32. destruct (x mod 2 ^ 32 <? 2 ^ 31).
  - apply Z.mod_mod. lia.
  - replace (x mod 2 ^ 32 - 2 ^ 32) with (x mod 2 ^ 32 + (-1) * 2 ^ 32) by lia.
    rewrite Z.mod_add by lia. apply Z.mod_mod. lia.
Qed.

Lemma ToInt32_signed v : - 2 ^ 31 <= v < 2 ^ 31 -> ToInt32 v = v.
Proof.
  intros H. unfold ToInt32.
  destruct (Z.lt_ge_cases v 0) as [Hn|Hp].
  - replace (v mod 2 ^ 32) with (v + 2 ^ 32)
      by (apply (Z.mod_unique _ _ (-1)); [left|]; lia).
    replace (v + 2 ^ 32 <? 2 ^ 31) with false by (symmetry; apply Z.ltb_ge; lia).
    lia.
  - rewrite Z.mod_small by lia.
    replace (v <? 2 ^ 31) with true by (symmetry; apply Z.ltb_lt; lia).
    reflexivity.
Qed.

Lemma ToInt32_range x : - 2 ^ 31 <= ToInt32 x < 2 ^ 31.
Proof.
  unfold ToInt32. pose proof (Z.mod_pos_bound x (2 ^ 32) ltac:(lia)).
  destruct (Z.ltb_spec (x mod 2 ^ 32) (2 ^ 31)); lia.
Qed.

(** One round of the loop of [uint]: the shift wraps, the addition of a
    byte does not leave the signed 32-bit range. *)
Lemma uint_round x b :
  0 <= b < 256 -> shl (ToInt32 x) 8 + b = ToInt32 (2 ^ 8 * x + b).
Proof.
  intros Hb. rewrite shl_8.
  rewrite (ToInt32_eqm (ToInt32 (ToInt32 x) * 256) (x * 256)).
  2:{ rewrite Z.mul_mod, !ToInt32_mod_eq, <- Z.mul_mod by lia. reflexivity. }
  set (w := x mod 2 ^ 24).
  assert (Hw : 0 <= w < 2 ^ 24) by (apply Z.mod_pos_bound; lia).
  assert (E1 : (x * 256) mod 2 ^ 32 = 256 * w).
  { symmetry. apply (Z.mod_unique _ _ (x / 2 ^ 24)); [left; lia|].
    pose proof (Z.div_mod x (2 ^ 24) ltac:(lia)). fold w in H. lia. }
  assert (E2 : (2 ^ 8 * x + b) mod 2 ^ 32 = 256 * w + b).
  { symmetry. apply (Z.mod_unique _ _ (x / 2 ^ 24)); [left; lia|].
    pose proof (Z.div_mod x (2 ^ 24) ltac:(lia)). fold w in H. lia. }
  unfold ToInt32. rewrite E1, E2.
  destruct (Z.ltb_spec (256 * w) (2 ^ 31));
    destruct (Z.ltb_spec (256 * w + b) (2 ^ 31)); lia.
Qed.

Lemma uint_snoc a b : uint (a ++ [b]) = shl (uint a) 8 + b.
Proof. unfold uint. rewrite fold_left_app. reflexivity. Qed.

Lemma uint_ToInt32 a : bytes a -> uint a = ToInt32 (bigEndian a).
Proof.
  induction a as [|b a IH] using rev_ind; intros H; [reflexivity|].
  apply bytes_app in H. destruct H as [Ha Hb].
  inversion Hb as [|? ? Hb0 _]; subst.
  rewrite uint_snoc, bigEndian_snoc, (IH Ha). now apply uint_round.
Qed.

(** [uint] is the big-endian value of the bytes wrapped to a signed
    32-bit number.  Up to three bytes that is the unsigned value itself;
    a four-byte field whose first byte is 0x80 or more comes out
    negative, 2^32 below its unsigned value; and of a longer field only
    the last four bytes count. *)
Theorem uint_wraps_to_int32 :
  (forall a, bytes a -> uint a = ToInt32 (bigEndian a))
  /\ (forall a, bytes a -> (length a <= 3)%nat ->
        uint a = bigEndian a /\ 0 <= uint a < 2 ^ 24)
  /\ (forall b0 b1 b2 b3,
        bytes [b0; b1; b2; b3] -> 128 <= b0 ->
        uint [b0; b1; b2; b3] = bigEndian [b0; b1; b2; b3] - 2 ^ 32
        /\ uint [b0; b1; b2; b3] < 0)
  /\ (forall a last,
        bytes a -> bytes last -> length last = 4%nat ->
        uint (a ++ last) = uint last).
Proof.
  split; [exact uint_ToInt32|]. split; [|split].
  - intros a Ha Hl. rewrite uint_ToInt32 by assumption.
    pose proof (bigEndian_range a Ha) as Hr.
    assert (256 ^ Z.of_nat (length a) <= 256 ^ 3)
      by (apply Z.pow_le_mono_r; lia).
    rewrite ToInt32_small by lia. split; [reflexivity|lia].
  - intros b0 b1 b2 b3 Hb H0. rewrite uint_ToInt32 by assumption.
    pose proof (bigEndian_four_range b0 b1 b2 b3 Hb) as Hr.
    apply bytes_four in Hb. destruct Hb as (? & ? & ? & ?).
    assert (Hge : 2 ^ 31 <= bigEndian [b0; b1; b2; b3]).
    { unfold bigEndian. cbn [fold_left]. lia. }
    unfold ToInt32. rewrite Z.mod_small by lia.
    replace (bigEndian [b0; b1; b2; b3] <? 2 ^ 31) with false
      by (symmetry; apply Z.ltb_ge; lia).
    lia.
  - intros a last Ha Hlast Hl.
    rewrite !uint_ToInt32 by (try apply bytes_app; auto).
    apply ToInt32_eqm.
    destruct last as [|b0 [|b1 [|b2 [|b3 [|? ?]]]]]; try discriminate.
    change [b0; b1; b2; b3] with ([b0] ++ [b1] ++ [b2] ++ [b3]).
    rewrite !app_assoc, !bigEndian_snoc.
    change (bigEndian []) with 0.
    replace (2 ^ 8 * (2 ^ 8 * (2 ^ 8 * (2 ^ 8 * bigEndian a + b0) + b1) + b2)
             + b3)
      with (2 ^ 8 * (2 ^ 8 * (2 ^ 8 * (2 ^ 8 * 0 + b0) + b1) + b2) + b3
            + bigEndian a * 2 ^ 32) by lia.
    apply Z.mod_add. lia.
Qed.

Lemma uint_wraps_to_int32_witness :
  uint [0xff; 0xff; 0xff; 0xfe] = bigEndian [0xff; 0xff; 0xff; 0xfe] - 2 ^ 32
  /\ uint [0xff; 0xff; 0xff; 0xfe] < 0.
Proof.
  apply (proj1 (proj2 (proj2 uint_wraps_to_int32)) 0xff 0xff 0xff 0xfe).
  - repeat (apply Forall_cons; [lia|]). apply Forall_nil.
  - lia.
Defined.

(** [int32] reads exactly four bytes as a big-endian two's-complement
    number: it inverts the 4-byte big-endian encoding in both directions
    and refuses every other length. *)
Theorem int32_round_trip :
  (forall v, - 2 ^ 31 <= v < 2 ^ 31 -> int32 (beBytes 4 v) = Ok v)
  /\ (forall a, bytes a -> length a = 4%nat ->
        exists v, int32 a = Ok v /\ - 2 ^ 31 <= v < 2 ^ 31 /\ beBytes 4 v = a)
  /\ (forall a, length a <> 4%nat -> int32 a = Throw InvalidArrayLength).
Proof.
  split; [|split].
  - intros v Hv. rewrite int32_four by apply beBytes_length.
    rewrite bigEndian_beBytes. f_equal.
    rewrite <- (ToInt32_signed v Hv) at 2. apply ToInt32_eqm.
    apply Z.mod_mod. lia.
  - intros a Ha Hl. exists (ToInt32 (bigEndian a)).
    split; [now apply int32_four|]. split; [apply ToInt32_range|].
    unfold beBytes. rewrite <- (leBytes_mod 4 (ToInt32 _)).
    change (256 ^ Z.of_nat 4) with (2 ^ 32).
    rewrite ToInt32_mod_eq.
    change (2 ^ 32) with (256 ^ Z.of_nat 4). rewrite leBytes_mod.
    rewrite <- Hl. apply (beBytes_bigEndian a Ha).
  - intros a Hl. unfold int32.
    replace (len a =? 4) with false
      by (symmetry; apply Z.eqb_neq; unfold len; lia).
    reflexivity.
Qed.

Lemma int32_round_trip_witness : int32 (beBytes 4 (-2)) = Ok (-2).
Proof. apply (proj1 int32_round_trip (-2)). lia. Defined.

Lemma ToBigInt64_signed v : - 2 ^ 63 <= v < 2 ^ 63 -> ToBigInt64 (v mod 2 ^ 64) = v.
Proof.
  intros H. unfold ToBigInt64. rewrite Z.mod_mod by lia.
  destruct (Z.lt_ge_cases v 0) as [Hn|Hp].
  - replace (v mod 2 ^ 64) with (v + 2 ^ 64)
      by (apply (Z.mod_unique _ _ (-1)); [left|]; lia).
    replace (v + 2 ^ 64 <? 2 ^ 63) with false by (symmetry; apply Z.ltb_ge; lia).
    lia.
  - rewrite Z.mod_small by lia.
    replace (v <? 2 ^ 63) with true by (symmetry; apply Z.ltb_lt; lia).
    reflexivity.
Qed.

Lemma int64_beBytes v :
  - 2 ^ 63 <= v < 2 ^ 63 -> int64 (beBytes 8 v) = Ok (Number v).
Proof.
  intros Hv. rewrite int64_eight by apply beBytes_length.
  rewrite bigEndian_beBytes. change (256 ^ Z.of_nat 8) with (2 ^ 64).
  now rewrite ToBigInt64_signed.
Qed.

Lemma Number_exact v : - 2 ^ 53 < v < 2 ^ 53 -> Number v = v.
Proof.
  intros H. unfold Number.
  replace (Z.abs v <? 2 ^ 53) with true by (symmetry; apply Z.ltb_lt; lia).
  reflexivity.
Qed.

(** What [Number] makes of a value too large to be exact keeps its sign
    and a magnitude of at least 2^53. *)
Lemma Number_large v :
  2 ^ 53 <= Z.abs v -> 2 ^ 53 <= Z.sgn v * Number v.
Proof.
  intros H. unfold Number.
  replace (Z.abs v <? 2 ^ 53) with false by (symmetry; apply Z.ltb_ge; lia).
  cbv zeta. set (a := Z.abs v) in *. set (e := Z.log2 a - 52).
  assert (Hlog : 53 <= Z.log2 a) by (apply Z.log2_le_pow2; lia).
  assert (He : 1 <= e) by (unfold e; lia).
  assert (Hq : 2 ^ 52 <= Z.shiftr a e).
  { rewrite Z.shiftr_div_pow2 by lia.
    apply Z.div_le_lower_bound; [lia|].
    rewrite <- Z.pow_add_r by lia.
    replace (e + 52) with (Z.log2 a) by (unfold e; lia).
    apply Z.log2_spec. lia. }
  set (q := Z.shiftr a e) in *.
  set (q' := if _ : bool then q + 1 else q).
  assert (Hq' : 2 ^ 52 <= q') by (unfold q'; destruct (_ || _); lia).
  rewrite Z.shiftl_mul_pow2 by lia.
  assert (Hs : Z.sgn v * Z.sgn v = 1) by (unfold a in H; lia).
  rewrite Z.mul_assoc, Hs, Z.mul_1_l.
  assert (2 ^ 1 <= 2 ^ e) by (apply Z.pow_le_mono_r; lia).
  change (2 ^ 53) with (2 ^ 52 * 2 ^ 1). nia.
Qed.

(** [int64] reads exactly eight bytes as a big-endian two's-complement
    number and converts it to a double: a value of magnitude below 2^53
    comes back as it is, a larger one as [Number] rounds it, and every
    other length is refused. *)
Theorem int64_round_trip :
  (forall v, - 2 ^ 53 < v < 2 ^ 53 -> int64 (beBytes 8 v) = Ok v)
  /\ (forall v, - 2 ^ 63 <= v < 2 ^ 63 -> int64 (beBytes 8 v) = Ok (Number v))
  /\ (forall a, bytes a -> length a = 8%nat ->
        exists v, - 2 ^ 63 <= v < 2 ^ 63 /\ beBytes 8 v = a
                  /\ int64 a = Ok (Number v))
  /\ (forall a, length a <> 8%nat -> int64 a = Throw InvalidArrayLength).
Proof.
  split; [|split; [|split]].
  - intros v Hv. rewrite int64_beBytes by lia. f_equal. now apply Number_exact.
  - exact int64_beBytes.
  - intros a Ha Hl. exists (ToBigInt64 (bigEndian a)).
    assert (Hr : - 2 ^ 63 <= ToBigInt64 (bigEndian a) < 2 ^ 63).
    { unfold ToBigInt64.
      pose proof (Z.mod_pos_bound (bigEndian a) (2 ^ 64) ltac:(lia)).
      destruct (Z.ltb_spec (bigEndian a mod 2 ^ 64) (2 ^ 63)); lia. }
    split; [exact Hr|]. split; [|now apply int64_eight].
    unfold beBytes. rewrite <- (leBytes_mod 8 (ToBigInt64 _)).
    replace (ToBigInt64 (bigEndian a) mod 256 ^ Z.of_nat 8)
      with (bigEndian a mod 256 ^ Z.of_nat 8).
    + rewrite leBytes_mod, <- Hl. apply (beBytes_bigEndian a Ha).
    + change (256 ^ Z.of_nat 8) with (2 ^ 64). unfold ToBigInt64.
      destruct (bigEndian a mod 2 ^ 64 <? 2 ^ 63).
      * symmetry. apply Z.mod_mod. lia.
      * replace (bigEndian a mod 2 ^ 64 - 2 ^ 64)
          with (bigEndian a mod 2 ^ 64 + (-1) * 2 ^ 64) by lia.
        rewrite Z.mod_add by lia. symmetry. apply Z.mod_mod. lia.
  - intros a Hl. unfold int64.
    replace (len a =? 8) with false
      by (symmetry; apply Z.eqb_neq; unfold len; lia).
    reflexivity.
Qed.

Lemma int64_round_trip_witness : int64 (beBytes 8 (-300)) = Ok (-300).
Proof. apply (proj1 int64_round_trip (-300)). lia. Defined.


Lemma int32_beBytes v : - 2 ^ 31 <= v < 2 ^ 31 -> int32 (beBytes 4 v) = Ok v.
Proof.
  intros Hv. rewrite int32_four by apply beBytes_length.
  rewrite bigEndian_beBytes. f_equal.
  rewrite <- (ToInt32_signed v Hv) at 2. apply ToInt32_eqm.
  apply Z.mod_mod. lia.
Qed.

Lemma int32_ok_len a v : int32 a = Ok v -> len a = 4.
Proof.
  unfold int32. destruct (len a =? 4) eqn:E; cbn [negb]; [|discriminate].
  intros _. now apply Z.eqb_eq.
Qed.

Lemma uint_short a : bytes a -> (length a <= 3)%nat -> uint a = bigEndian a.
Proof.
  intros Ha Hl. rewrite uint_ToInt32 by assumption.
  pose proof (bigEndian_range a Ha) as Hr.
  assert (256 ^ Z.of_nat (length a) <= 256 ^ 3) by (apply Z.pow_le_mono_r; lia).
  apply ToInt32_small. lia.
Qed.

(** *** Slices *)

Lemma slice_app_l a b start stop :
  0 <= start <= stop -> stop <= len a ->
  slice (a ++ b) start stop = slice a start stop.
Proof.
  intros H1 H2. unfold slice, relIndex. pose proof (len_nonneg b).
  replace (start <? 0) with false by (symmetry; apply Z.ltb_ge; lia).
  replace (stop <? 0) with false by (symmetry; apply Z.ltb_ge; lia).
  rewrite len_app.
  rewrite (Z.min_l start (len a + len b)), (Z.min_l stop (len a + len b)),
    (Z.min_l start (len a)), (Z.min_l stop (len a)) by lia.
  rewrite skipn_app, firstn_app.
  replace (Z.to_nat (stop - start) - length (skipn (Z.to_nat start) a))%nat
    with 0%nat by (rewrite length_skipn; unfold len in *; lia).
  cbn [firstn]. apply app_nil_r.
Qed.

Lemma slice_beyond a start stop :
  len a <= start -> slice a start stop = [].
Proof.
  intros H. unfold slice, relIndex. pose proof (len_nonneg a).
  replace (start <? 0) with false by (symmetry; apply Z.ltb_ge; lia).
  rewrite (Z.min_r start (len a)) by lia.
  replace (Z.to_nat ((if stop <? 0 then Z.max (len a + stop) 0
                      else Z.min stop (len a)) - len a)) with 0%nat
    by (destruct (stop <? 0) eqn:E;
        [apply Z.ltb_lt in E|apply Z.ltb_ge in E]; lia).
  reflexivity.
Qed.

Lemma slice_prefix a n : 0 <= n -> slice a 0 n = firstn (Z.to_nat n) a.
Proof.
  intros H. unfold slice, relIndex. pose proof (len_nonneg a).
  replace (n <? 0) with false by (symmetry; apply Z.ltb_ge; lia).
  change (0 <? 0) with false. cbv iota.
  rewrite (Z.min_l 0 (len a)) by lia. cbn [Z.to_nat skipn]. rewrite Z.sub_0_r.
  destruct (Z.le_ge_cases n (len a)) as [Hle|Hge].
  - now rewrite Z.min_l by lia.
  - rewrite Z.min_r by lia. unfold len in *. rewrite Nat2Z.id.
    rewrite firstn_all. symmetry. apply firstn_all2. lia.
Qed.

Lemma sliceFrom_skip a n : 0 <= n -> sliceFrom a n = skipn (Z.to_nat n) a.
Proof.
  intros H. unfold sliceFrom, slice, relIndex. pose proof (len_nonneg a).
  replace (n <? 0) with false by (symmetry; apply Z.ltb_ge; lia).
  replace (len a <? 0) with false by (symmetry; apply Z.ltb_ge; lia).
  rewrite Z.min_id.
  destruct (Z.le_ge_cases n (len a)) as [Hle|Hge].
  - rewrite Z.min_l by lia. apply firstn_all2.
    rewrite length_skipn. unfold len in *. lia.
  - rewrite Z.min_r by lia. unfold len in *. rewrite Nat2Z.id.
    rewrite skipn_all. rewrite skipn_all2 by lia. apply firstn_nil.
Qed.

(** *** The audio format *)

(** [parseAudioFormat] looks at the first 32 bytes only and checks no
    length but that of the sample rate: fewer than 8 bytes are refused,
    bytes after the 32nd are ignored, 32 bytes give the seven fields, and
    from 8 bytes on a field that is not there is read as empty or 0. *)
Theorem parseAudioFormat_reads_32_bytes :
  (forall a, len a < 8 -> parseAudioFormat a = Throw InvalidArrayLength)
  /\ (forall body extra,
        length body = 32%nat ->
        parseAudioFormat (body ++ extra) = parseAudioFormat body)
  /\ (forall sr id ff bp fp cf bc,
        length sr = 8%nat -> length id = 4%nat -> length ff = 4%nat ->
        length bp = 4%nat -> length fp = 4%nat -> length cf = 4%nat ->
        length bc = 4%nat ->
        parseAudioFormat (sr ++ id ++ ff ++ bp ++ fp ++ cf ++ bc)
        = Ok {| sampleRate := Float64 (bigEndian sr);
                formatID := id;
                formatFlags := uint ff;
                bytesPerPacket := uint bp;
                framesPerPacket := uint fp;
                channelsPerFrame := uint cf;
                bitsPerChannel := uint bc |})
  /\ (forall sr,
        length sr = 8%nat ->
        parseAudioFormat sr
        = Ok {| sampleRate := Float64 (bigEndian sr);
                formatID := [];
                formatFlags := 0;
                bytesPerPacket := 0;
                framesPerPacket := 0;
                channelsPerFrame := 0;
                bitsPerChannel := 0 |}).
Proof.
  split; [|split; [|split]].
  - intros a H. pose proof (len_nonneg a). unfold parseAudioFormat, float64.
    rewrite slice_len by lia.
    replace (Z.min 8 (len a) - Z.min 0 (len a) =? 8) with false
      by (symmetry; apply Z.eqb_neq; lia).
    reflexivity.
  - intros body extra H. unfold parseAudioFormat.
    rewrite !slice_app_l by (unfold len; lia). reflexivity.
  - intros sr id ff bp fp cf bc Hsr Hid Hff Hbp Hfp Hcf Hbc.
    set (a := sr ++ id ++ ff ++ bp ++ fp ++ cf ++ bc).
    unfold parseAudioFormat.
    rewrite (slice_middle a [] sr (id ++ ff ++ bp ++ fp ++ cf ++ bc) 0 8)
      by (try reflexivity; unfold len; lia).
    rewrite (slice_middle a sr id (ff ++ bp ++ fp ++ cf ++ bc) 8 12)
      by (try reflexivity; unfold len; lia).
    rewrite (slice_middle a (sr ++ id) ff (bp ++ fp ++ cf ++ bc) 12 16)
      by (try (unfold a; rewrite <- ?app_assoc; reflexivity);
          unfold len; rewrite ?length_app; lia).
    rewrite (slice_middle a (sr ++ id ++ ff) bp (fp ++ cf ++ bc) 16 20)
      by (try (unfold a; rewrite <- ?app_assoc; reflexivity);
          unfold len; rewrite ?length_app; lia).
    rewrite (slice_middle a (sr ++ id ++ ff ++ bp) fp (cf ++ bc) 20 24)
      by (try (unfold a; rewrite <- ?app_assoc; reflexivity);
          unfold len; rewrite ?length_app; lia).
    rewrite (slice_middle a (sr ++ id ++ ff ++ bp ++ fp) cf bc 24 28)
      by (try (unfold a; rewrite <- ?app_assoc; reflexivity);
          unfold len; rewrite ?length_app; lia).
    rewrite (slice_middle a (sr ++ id ++ ff ++ bp ++ fp ++ cf) bc [] 28 32)
      by (try (unfold a; rewrite app_nil_r, <- ?app_assoc; reflexivity);
          unfold len; rewrite ?length_app; lia).
    rewrite float64_eight by (unfold len; lia). reflexivity.
  - intros sr H. unfold parseAudioFormat.
    rewrite (slice_middle sr [] sr [] 0 8)
      by (try (rewrite app_nil_r; reflexivity); unfold len; cbn [length]; lia).
    rewrite !slice_beyond by (unfold len; lia).
    rewrite float64_eight by (unfold len; lia). reflexivity.
Qed.

Lemma parseAudioFormat_reads_32_bytes_witness :
  parseAudioFormat (descBody ++ [1; 2; 3]) = parseAudioFormat descBody.
Proof.
  apply (proj1 (proj2 parseAudioFormat_reads_32_bytes) descBody [1; 2; 3]).
  reflexivity.
Defined.

(** *** The channel layout *)

Lemma parseChannelDescription_fields label flags c1 c2 c3 extra :
  length label = 4%nat -> length flags = 4%nat -> length c1 = 8%nat ->
  length c2 = 8%nat -> length c3 = 8%nat ->
  parseChannelDescription (descriptionBytes label flags c1 c2 c3 ++ extra)
  = Ok (descriptionOf label flags c1 c2 c3).
Proof.
  intros Hl Hf H1 H2 H3.
  set (a := descriptionBytes label flags c1 c2 c3 ++ extra).
  assert (E : a = label ++ flags ++ c1 ++ c2 ++ c3 ++ extra).
  { unfold a, descriptionBytes. rewrite <- !app_assoc. reflexivity. }
  unfold parseChannelDescription.
  rewrite (slice_middle a [] label (flags ++ c1 ++ c2 ++ c3 ++ extra) 0 4)
    by (try exact E; unfold len; cbn [length]; lia).
  rewrite (slice_middle a label flags (c1 ++ c2 ++ c3 ++ extra) 4 8)
    by (try exact E; unfold len; lia).
  rewrite (slice_middle a (label ++ flags) c1 (c2 ++ c3 ++ extra) 8 16)
    by (try (rewrite E, <- ?app_assoc; reflexivity);
        unfold len; rewrite ?length_app; lia).
  rewrite (slice_middle a (label ++ flags ++ c1) c2 (c3 ++ extra) 16 24)
    by (try (rewrite E, <- ?app_assoc; reflexivity);
        unfold len; rewrite ?length_app; lia).
  rewrite (slice_middle a (label ++ flags ++ c1 ++ c2) c3 extra 24 32)
    by (try (rewrite E, <- ?app_assoc; reflexivity);
        unfold len; rewrite ?length_app; lia).
  rewrite !float64_eight by (unfold len; lia). reflexivity.
Qed.

Lemma parseChannelDescription_whole d :
  length d = 32%nat -> exists r, parseChannelDescription d = Ok r.
Proof.
  intros H. unfold parseChannelDescription.
  rewrite !float64_eight by (rewrite slice_len; unfold len; lia).
  eexists. reflexivity.
Qed.

Lemma mapR_ok {A B} (f : A -> result B) l :
  Forall (fun x => exists y, f x = Ok y) l ->
  exists ys, mapR f l = Ok ys /\ length ys = length l.
Proof.
  induction 1 as [|x l [y Hy] _ (ys & IH & Hl)].
  - exists []. split; reflexivity.
  - exists (y :: ys). cbn [mapR]. rewrite Hy, IH. cbn [length].
    split; [reflexivity|congruence].
Qed.

Lemma mapR_map {A B C} (g : A -> B) (f : B -> result C) l :
  mapR f (map g l) = mapR (fun x => f (g x)) l.
Proof.
  induction l as [|x l IH]; [reflexivity|].
  cbn [map mapR]. now rewrite IH.
Qed.

Lemma mapR_ext_in {A B} (f g : A -> result B) l :
  (forall x, In x l -> f x = g x) -> mapR f l = mapR g l.
Proof.
  induction l as [|x l IH]; intros H; [reflexivity|].
  cbn. rewrite (H x) by now left.
  rewrite IH by (intros y Hy; apply H; now right). reflexivity.
Qed.

(** The description loop hands each record its own 32 bytes. *)
Lemma descriptions_each descs :
  Forall (fun d => length d = 32%nat) descs ->
  forall pre extra,
    mapR (fun i =>
            parseChannelDescription
              (slice (pre ++ concat descs ++ extra)
                 (len pre + Z.of_nat i * 32) (len pre + (Z.of_nat i + 1) * 32)))
         (seq 0 (length descs))
    = mapR parseChannelDescription descs.
Proof.
  induction 1 as [|d descs Hd _ IH]; intros pre extra; [reflexivity|].
  cbn [length seq mapR concat].
  rewrite (slice_middle _ pre d (concat descs ++ extra))
    by (try (rewrite <- app_assoc; reflexivity); unfold len; lia).
  rewrite <- seq_shift, mapR_map.
  rewrite (mapR_ext_in _
             (fun i =>
                parseChannelDescription
                  (slice ((pre ++ d) ++ concat descs ++ extra)
                     (len (pre ++ d) + Z.of_nat i * 32)
                     (len (pre ++ d) + (Z.of_nat i + 1) * 32)))).
  - now rewrite IH.
  - intros i _. rewrite <- !app_assoc, len_app.
    replace (len d) with 32 by (unfold len; lia).
    f_equal. f_equal; lia.
Qed.

Lemma layout_count tag bitmap n rest :
  length tag = 4%nat -> length bitmap = 4%nat -> 0 <= n < 2 ^ 31 ->
  uint (slice (tag ++ bitmap ++ beBytes 4 n ++ rest) 8 12) = n.
Proof.
  intros Ht Hb Hn.
  assert (Hc : length (beBytes 4 n) = 4%nat) by apply beBytes_length.
  rewrite (slice_middle _ (tag ++ bitmap) (beBytes 4 n) rest 8 12)
    by (try (rewrite <- ?app_assoc; reflexivity);
        unfold len; rewrite ?length_app; lia).
  rewrite uint_ToInt32 by apply beBytes_bytes.
  rewrite bigEndian_beBytes. change (256 ^ Z.of_nat 4) with (2 ^ 32).
  rewrite Z.mod_small by lia. apply ToInt32_small. lia.
Qed.

(** A channel description is read from 32 bytes, field by field, and a
    channel layout that is all there is read completely when the engine
    can hold an array of as many elements as descriptions are declared:
    the three header fields, then one description per declared record,
    each from its own 32 bytes, whatever follows the last one.  When the
    engine cannot, [Array(n).fill(0)] throws a [RangeError] before any
    record is read, whether the records are there or not. *)
Theorem parseChannelLayout_complete :
  (forall label flags c1 c2 c3 extra,
      length label = 4%nat -> length flags = 4%nat -> length c1 = 8%nat ->
      length c2 = 8%nat -> length c3 = 8%nat ->
      parseChannelDescription (descriptionBytes label flags c1 c2 c3 ++ extra)
      = Ok (descriptionOf label flags c1 c2 c3))
  /\ (forall maxFill tag bitmap descs extra,
        length tag = 4%nat -> length bitmap = 4%nat ->
        Forall (fun d => length d = 32%nat) descs ->
        len descs < 2 ^ 31 -> len descs <= maxFill ->
        exists ds,
          mapR parseChannelDescription descs = Ok ds
          /\ length ds = length descs
          /\ parseChannelLayout maxFill
               (tag ++ bitmap ++ beBytes 4 (len descs) ++ concat descs ++ extra)
             = Ok {| channelLayoutTag := uint tag;
                     channelBitmap := uint bitmap;
                     numberChannelDescriptions := len descs;
                     channelDescriptions := ds |})
  /\ (forall maxFill tag bitmap n rest,
        length tag = 4%nat -> length bitmap = 4%nat ->
        0 <= n < 2 ^ 31 -> maxFill < n ->
        parseChannelLayout maxFill (tag ++ bitmap ++ beBytes 4 n ++ rest)
        = Throw RangeError).
Proof.
  split; [exact parseChannelDescription_fields|]. split.
  - intros maxFill tag bitmap descs extra Ht Hb Hd Hn Hmax.
    destruct (mapR_ok parseChannelDescription descs) as (ds & Hds & Hlen).
    { eapply Forall_impl; [|exact Hd]. apply parseChannelDescription_whole. }
    exists ds. split; [exact Hds|]. split; [exact Hlen|].
    pose proof (len_nonneg descs) as Hn0.
    pose proof (layout_count tag bitmap (len descs) (concat descs ++ extra)
                  Ht Hb ltac:(lia)) as Hu.
    set (count := beBytes 4 (len descs)) in *.
    assert (Hc : length count = 4%nat) by apply beBytes_length.
    set (a := tag ++ bitmap ++ count ++ concat descs ++ extra) in *.
    unfold parseChannelLayout.
    rewrite (slice_middle a [] tag
               (bitmap ++ count ++ concat descs ++ extra) 0 4)
      by (try reflexivity; unfold len; cbn [length]; lia).
    rewrite (slice_middle a tag bitmap (count ++ concat descs ++ extra) 4 8)
      by (try reflexivity; unfold len; lia).
    rewrite Hu. unfold ArrayFill.
    replace ((len descs <? 0) || (2 ^ 32 - 1 <? len descs)) with false
      by (symmetry; apply orb_false_iff; split; apply Z.ltb_ge; lia).
    replace (maxFill <? len descs) with false
      by (symmetry; apply Z.ltb_ge; lia).
    cbn [rbind]. unfold len at 1. rewrite Nat2Z.id, mapR_map.
    rewrite (mapR_ext_in _
               (fun i =>
                  parseChannelDescription
                    (slice ((tag ++ bitmap ++ count) ++ concat descs ++ extra)
                       (len (tag ++ bitmap ++ count) + Z.of_nat i * 32)
                       (len (tag ++ bitmap ++ count)
                        + (Z.of_nat i + 1) * 32)))).
    + rewrite descriptions_each by exact Hd. rewrite Hds. reflexivity.
    + intros i _. unfold a. rewrite <- !app_assoc.
      replace (len (tag ++ bitmap ++ count)) with 12
        by (unfold len; rewrite !length_app; lia).
      reflexivity.
  - intros maxFill tag bitmap n rest Ht Hb Hn Hmax.
    unfold parseChannelLayout.
    rewrite (layout_count tag bitmap n rest Ht Hb Hn). unfold ArrayFill.
    replace ((n <? 0) || (2 ^ 32 - 1 <? n)) with false
      by (symmetry; apply orb_false_iff; split; apply Z.ltb_ge; lia).
    replace (maxFill <? n) with true by (symmetry; apply Z.ltb_lt; lia).
    reflexivity.
Qed.

Lemma parseChannelLayout_complete_witness :
  exists ds,
    mapR parseChannelDescription [repeat 1 32; repeat 2 32] = Ok ds
    /\ length ds = length [repeat 1 32; repeat 2 32]
    /\ parseChannelLayout exampleMaxFill
         ([0; 0; 0; 9] ++ [0; 0; 0; 3]
          ++ beBytes 4 (len [repeat 1 32; repeat 2 32])
          ++ concat [repeat 1 32; repeat 2 32] ++ [7])
       = Ok {| channelLayoutTag := uint [0; 0; 0; 9];
               channelBitmap := uint [0; 0; 0; 3];
               numberChannelDescriptions := len [repeat 1 32; repeat 2 32];
               channelDescriptions := ds |}.
Proof.
  apply (proj1 (proj2 parseChannelLayout_complete) exampleMaxFill
           [0; 0; 0; 9] [0; 0; 0; 3] [repeat 1 32; repeat 2 32] [7]).
  - reflexivity.
  - reflexivity.
  - repeat constructor.
  - reflexivity.
  - discriminate.
Defined.

(** *** The data chunk and the packet table *)

(** [parseData] cannot fail: the edit count is [uint] of the first four
    bytes, or of as many as there are, and the data is everything after
    them. *)
Theorem parseData_splits :
  (forall a,
      parseData a = {| editCount := uint (firstn 4 a); data := skipn 4 a |})
  /\ (forall ec payload,
        length ec = 4%nat ->
        parseData (ec ++ payload) = {| editCount := uint ec; data := payload |})
  /\ (forall a, (length a <= 4)%nat ->
        parseData a = {| editCount := uint a; data := [] |}).
Proof.
  assert (G : forall a,
             parseData a
             = {| editCount := uint (firstn 4 a); data := skipn 4 a |}).
  { intros a. unfold parseData.
    rewrite slice_prefix, sliceFrom_skip by lia. reflexivity. }
  split; [exact G|]. split.
  - intros ec payload H. rewrite G.
    rewrite firstn_app, skipn_app, H.
    replace (4 - 4)%nat with 0%nat by reflexivity.
    rewrite firstn_O, skipn_O, app_nil_r.
    rewrite (firstn_all2 ec), (skipn_all2 ec) by lia. reflexivity.
  - intros a H. rewrite G.
    rewrite firstn_all2, skipn_all2 by lia. reflexivity.
Qed.

Lemma parseData_splits_witness :
  parseData ([0; 0; 0; 1] ++ [5; 6; 7])
  = {| editCount := uint [0; 0; 0; 1]; data := [5; 6; 7] |}.
Proof.
  apply (proj1 (proj2 parseData_splits) [0; 0; 0; 1] [5; 6; 7]). reflexivity.
Defined.

(** The packet table header is two 8-byte and two 4-byte big-endian
    signed numbers: its 24-byte encoding is read back, the region after
    it goes to [packetsTable], and an input of fewer than 24 bytes is
    refused by the decoder of the first field that is not all there. *)
Theorem parsePacketTable_header_fields :
  (forall np nf pf rf region,
      - 2 ^ 53 < np < 2 ^ 53 -> - 2 ^ 53 < nf < 2 ^ 53 ->
      - 2 ^ 31 <= pf < 2 ^ 31 -> - 2 ^ 31 <= rf < 2 ^ 31 ->
      parsePacketTable
        (beBytes 8 np ++ beBytes 8 nf ++ beBytes 4 pf ++ beBytes 4 rf
         ++ region)
      = Ok {| header := {| numberPackets := np;
                           numberValidFrames := nf;
                           primingFrames := pf;
                           remainderFrames := rf |};
              body := packetsTable region |})
  /\ (forall a, len a < 24 -> parsePacketTable a = Throw InvalidArrayLength).
Proof.
  split.
  - intros np nf pf rf region Hnp Hnf Hpf Hrf.
    set (A := beBytes 8 np). set (B := beBytes 8 nf).
    set (C := beBytes 4 pf). set (D := beBytes 4 rf).
    assert (HA : length A = 8%nat) by apply beBytes_length.
    assert (HB : length B = 8%nat) by apply beBytes_length.
    assert (HC : length C = 4%nat) by apply beBytes_length.
    assert (HD : length D = 4%nat) by apply beBytes_length.
    set (hdr := A ++ B ++ C ++ D).
    assert (Hh : length hdr = 24%nat)
      by (unfold hdr; rewrite !length_app; lia).
    set (a := A ++ B ++ C ++ D ++ region).
    assert (E : a = hdr ++ region)
      by (unfold a, hdr; rewrite <- !app_assoc; reflexivity).
    unfold parsePacketTable, parsePacketTableHeader.
    rewrite (slice_middle a [] hdr region 0 24)
      by (try exact E; unfold len; cbn [length]; lia).
    unfold sliceFrom.
    rewrite (slice_middle a hdr region [] 24 (len a))
      by (try (rewrite app_nil_r; exact E);
          try (rewrite E, len_app); unfold len; lia).
    rewrite (slice_middle hdr [] A (B ++ C ++ D) 0 8)
      by (try reflexivity; unfold len; cbn [length]; lia).
    rewrite (slice_middle hdr A B (C ++ D) 8 16)
      by (try reflexivity; unfold len; lia).
    rewrite (slice_middle hdr (A ++ B) C D 16 20)
      by (try (unfold hdr; rewrite <- ?app_assoc; reflexivity);
          unfold len; rewrite ?length_app; lia).
    rewrite (slice_middle hdr (A ++ B ++ C) D [] 20 24)
      by (try (unfold hdr; rewrite app_nil_r, <- ?app_assoc; reflexivity);
          unfold len; rewrite ?length_app; lia).
    unfold A, B, C, D.
    rewrite !int64_beBytes, !int32_beBytes by lia.
    rewrite !Number_exact by lia. reflexivity.
  - intros a H. pose proof (len_nonneg a) as H0.
    destruct (parsePacketTable a) as [r|e] eqn:E.
    + exfalso. unfold parsePacketTable, parsePacketTableHeader, rbind in E.
      destruct (int64 (slice (slice a 0 24) 0 8)); [|discriminate].
      destruct (int64 (slice (slice a 0 24) 8 16)); [|discriminate].
      destruct (int32 (slice (slice a 0 24) 16 20)); [|discriminate].
      destruct (int32 (slice (slice a 0 24) 20 24)) eqn:E4; [|discriminate].
      apply int32_ok_len in E4.
      rewrite slice_len in E4 by lia. rewrite slice_len in E4 by lia. lia.
    + f_equal. eapply parsePacketTable_error; eauto.
Qed.

Lemma parsePacketTable_header_fields_witness :
  parsePacketTable
    (beBytes 8 3 ++ beBytes 8 2880 ++ beBytes 4 312 ++ beBytes 4 (-1)
     ++ [0x82; 0x2c])
  = Ok {| header := {| numberPackets := 3;
                       numberValidFrames := 2880;
                       primingFrames := 312;
                       remainderFrames := -1 |};
          body := packetsTable [0x82; 0x2c] |}.
Proof.
  apply (proj1 parsePacketTable_header_fields 3 2880 312 (-1) [0x82; 0x2c]);
    lia.
Defined.

(** *** The traversal *)

Lemma fileRead_skips p f out :
  exists p', fileRead p (mk f out) = Done p' (mk (skipn (length p) f) out).
Proof.
  unfold fileRead, FsFile.read. cbn [cafFile console mk].
  destruct p as [|p0 p]; [eexists; reflexivity|].
  destruct f as [|b f]; eexists; reflexivity.
Qed.

Lemma readCafHeader_skips f out :
  exists h, readCafHeader (mk f out) = Done h (mk (skipn 8 f) out).
Proof.
  assert (U4 : Uint8Array 4 = Ok (repeat 0 4)) by reflexivity.
  assert (U2 : Uint8Array 2 = Ok (repeat 0 2)) by reflexivity.
  destruct (fileRead_skips (repeat 0 4) f out) as (a & E1).
  destruct (fileRead_skips (repeat 0 2) (skipn 4 f) out) as (b & E2).
  destruct (fileRead_skips (repeat 0 2) (skipn 2 (skipn 4 f)) out) as (c & E3).
  cbn [length repeat] in E1, E2, E3.
  unfold readCafHeader, bind, lift. rewrite U4, U2. cbv beta iota.
  cbn [repeat]. rewrite E1, E2, E3. eexists. rewrite !skipn_skipn. reflexivity.
Qed.

Lemma main_header {maxFill} ft fv ff rest rounds :
  length ft = 4%nat -> length fv = 2%nat -> length ff = 2%nat ->
  main maxFill rounds (ft ++ fv ++ ff ++ rest)
  = chunkLoop maxFill rounds
      (mk rest [LogFileHeader {| fileType := ft; fileVersion := uint fv;
                                 fileFlags := uint ff |}]).
Proof.
  intros H4 H2 H2'. unfold main. unfold bind at 1.
  change {| cafFile := ft ++ fv ++ ff ++ rest; console := [] |}
    with (mk (ft ++ fv ++ ff ++ rest) []).
  rewrite (readCafHeader_full ft fv ff rest [] H4 H2 H2').
  reflexivity.
Qed.

(** The file header is read and printed, never checked: any eight bytes
    are taken as file type, version and flags, the two numbers unsigned,
    and the chunk loop starts after them; a file of eight bytes or fewer
    is a header and nothing else, and the run ends normally. *)
Theorem file_header_is_not_checked :
  (forall maxFill ft fv ff rest rounds,
      length ft = 4%nat -> length fv = 2%nat -> length ff = 2%nat ->
      bytes fv -> bytes ff ->
      main maxFill rounds (ft ++ fv ++ ff ++ rest)
      = chunkLoop maxFill rounds
          (mk rest [LogFileHeader {| fileType := ft;
                                     fileVersion := bigEndian fv;
                                     fileFlags := bigEndian ff |}]))
  /\ (forall maxFill bs rounds,
        (length bs <= 8)%nat ->
        exists h,
          main maxFill (S rounds) bs = Done tt (mk [] [LogFileHeader h])).
Proof.
  split.
  - intros maxFill ft fv ff rest rounds H4 H2 H2' Bv Bf.
    rewrite main_header by assumption.
    rewrite (uint_short fv), (uint_short ff) by (assumption || lia).
    reflexivity.
  - intros maxFill bs rounds H. unfold main. unfold bind at 1.
    destruct (readCafHeader_skips bs []) as (h & E).
    unfold mk in E. rewrite E. rewrite skipn_all2 by exact H.
    exists h. reflexivity.
Qed.

Lemma file_header_is_not_checked_witness :
  main exampleMaxFill 1 ([1; 2; 3; 4] ++ [0; 7] ++ [0xff; 0xff] ++ [])
  = chunkLoop exampleMaxFill 1
      (mk [] [LogFileHeader {| fileType := [1; 2; 3; 4];
                               fileVersion := bigEndian [0; 7];
                               fileFlags := bigEndian [0xff; 0xff] |}]).
Proof.
  apply (proj1 file_header_is_not_checked exampleMaxFill [1; 2; 3; 4] [0; 7]
           [0xff; 0xff] [] 1%nat); try reflexivity;
    repeat (apply Forall_cons; [lia|]); apply Forall_nil.
Defined.

Lemma readChunkHeader_chunk tag v rest out :
  length tag = 4%nat -> - 2 ^ 63 <= v < 2 ^ 63 ->
  readChunkHeader (mk (tag ++ beBytes 8 v ++ rest) out)
  = Done {| chunkType := str tag; chunkSize := Number v |} (mk rest out).
Proof.
  intros Ht Hv.
  rewrite readChunkHeader_full by (assumption || apply beBytes_length).
  rewrite int64_beBytes by assumption. reflexivity.
Qed.

(** A chunk size that is negative, or 2^53 or more, cannot be allocated:
    the run is aborted by a [RangeError] right after the chunk header,
    before the header is printed and with none of the body read. *)
Theorem chunk_size_out_of_range :
  forall maxFill rounds tag v rest out,
    length tag = 4%nat -> - 2 ^ 63 <= v < 2 ^ 63 -> v < 0 \/ 2 ^ 53 <= v ->
    chunkLoop maxFill (S rounds) (mk (tag ++ beBytes 8 v ++ rest) out)
    = Raise RangeError (mk rest out).
Proof.
  intros maxFill rounds tag v rest out Ht Hv Hout.
  cbn [chunkLoop]. unfold bind at 1.
  rewrite readChunkHeader_chunk by assumption.
  cbn [chunkSize]. unfold bind at 1, readChunk, bind, lift.
  rewrite Z.quot_mul by lia.
  assert (Hn : Number v < 0 \/ maxIndex < Number v).
  { destruct (Z.lt_ge_cases (Z.abs v) (2 ^ 53)) as [Hs|Hl].
    - rewrite Number_exact by lia. lia.
    - pose proof (Number_large v Hl) as HN.
      destruct Hout as [Hneg|Hbig].
      + left. rewrite Z.sgn_neg in HN by lia. lia.
      + right. rewrite Z.sgn_pos in HN by lia. unfold maxIndex. lia. }
  unfold Uint8Array.
  replace ((Number v <? 0) || (maxIndex <? Number v)) with true.
  - reflexivity.
  - symmetry. apply orb_true_iff.
    destruct Hn; [left|right]; apply Z.ltb_lt; assumption.
Qed.

Lemma chunk_size_out_of_range_witness :
  chunkLoop exampleMaxFill 1 (mk (tag_data ++ beBytes 8 (-1) ++ [1; 2; 3]) [])
  = Raise RangeError (mk [1; 2; 3] []).
Proof.
  apply (chunk_size_out_of_range exampleMaxFill 0 tag_data (-1) [1; 2; 3] []);
    [reflexivity|lia|lia].
Defined.

(** A whole chunk with a body: the round up to the dispatch on its
    type. *)
Lemma chunkLoop_whole {maxFill} rounds tag body rest out :
  length tag = 4%nat -> body <> [] -> len body <= maxIndex ->
  chunkLoop maxFill (S rounds) (mk (chunkBytes tag body ++ rest) out)
  = (log (LogChunkHeader (chunkHeaderOf tag body)) ;;;
     (if textEq tag tag_desc then
        descChunk <- lift (parseAudioFormat body) ;;
        log (LogAudioFormat descChunk)
      else ret tt) ;;;
     (if textEq tag tag_chan then
        chanChunk <- lift (parseChannelLayout maxFill body) ;;
        log (LogChannelLayout chanChunk)
      else ret tt) ;;;
     (if textEq tag tag_data then
        log (LogData (parseData body))
      else ret tt) ;;;
     (if textEq tag tag_pakt then
        paktChunk <- lift (parsePacketTable body) ;;
        log (LogPacketTable paktChunk)
      else ret tt) ;;;
     chunkLoop maxFill rounds) (mk rest out).
Proof.
  intros Ht Hne Hmax.
  assert (Hpos : 0 < len body).
  { unfold len. destruct body; [congruence|cbn [length]; lia]. }
  cbn [chunkLoop]. unfold bind at 1.
  unfold chunkBytes. rewrite <- !app_assoc.
  rewrite readChunkHeader_chunk by (unfold maxIndex in Hmax; assumption || lia).
  rewrite Number_exact by (unfold maxIndex in Hmax; lia).
  cbn [chunkSize chunkType]. unfold bind at 1.
  unfold len at 1.
  rewrite (readChunk_full (length body) body rest out eq_refl Hmax).
  replace (len body =? 0) with false by (symmetry; apply Z.eqb_neq; lia).
  reflexivity.
Qed.

Lemma textEq_refl a : textEq a a = true.
Proof. unfold textEq. destruct (list_eq_dec Z.eq_dec a a); congruence. Qed.

Lemma textEq_neq a b : a <> b -> textEq a b = false.
Proof. intros H. unfold textEq. destruct (list_eq_dec Z.eq_dec a b); congruence. Qed.

(** One round on a whole chunk with a body.  Its header is printed
    first.  A chunk of a type without decoder is skipped, its body read
    and dropped; a data chunk always gives a record; for the three other
    types the decoder's record is printed, or its error ends the run
    with only the chunk header printed.  In every case the whole body
    has been taken from the file. *)
Theorem chunks_are_dispatched_by_type :
  forall maxFill rounds tag body rest out,
    length tag = 4%nat -> body <> [] -> len body <= maxIndex ->
    let st := mk (chunkBytes tag body ++ rest) out in
    let shown := out ++ [LogChunkHeader (chunkHeaderOf tag body)] in
    (otherTag tag ->
       chunkLoop maxFill (S rounds) st = chunkLoop maxFill rounds (mk rest shown))
    /\ (tag = tag_data ->
          chunkLoop maxFill (S rounds) st
          = chunkLoop maxFill rounds (mk rest (shown ++ [LogData (parseData body)])))
    /\ (tag = tag_desc ->
          chunkLoop maxFill (S rounds) st
          = match parseAudioFormat body with
            | Ok d => chunkLoop maxFill rounds (mk rest (shown ++ [LogAudioFormat d]))
            | Throw e => Raise e (mk rest shown)
            end)
    /\ (tag = tag_chan ->
          chunkLoop maxFill (S rounds) st
          = match parseChannelLayout maxFill body with
            | Ok c => chunkLoop maxFill rounds (mk rest (shown ++ [LogChannelLayout c]))
            | Throw e => Raise e (mk rest shown)
            end)
    /\ (tag = tag_pakt ->
          chunkLoop maxFill (S rounds) st
          = match parsePacketTable body with
            | Ok p => chunkLoop maxFill rounds (mk rest (shown ++ [LogPacketTable p]))
            | Throw e => Raise e (mk rest shown)
            end).
Proof.
  intros maxFill rounds tag body rest out Ht Hne Hmax st shown. unfold st.
  rewrite (chunkLoop_whole rounds tag body rest out Ht Hne Hmax).
  split; [|split; [|split; [|split]]].
  - intros (H1 & H2 & H3 & H4).
    rewrite !textEq_neq by assumption. reflexivity.
  - intros ->. reflexivity.
  - intros ->.
    change (textEq tag_desc tag_desc) with true.
    change (textEq tag_desc tag_chan) with false.
    change (textEq tag_desc tag_data) with false.
    change (textEq tag_desc tag_pakt) with false. cbv iota.
    unfold bind, log, lift, ret. cbn [cafFile console mk].
    destruct (parseAudioFormat body); reflexivity.
  - intros ->.
    change (textEq tag_chan tag_desc) with false.
    change (textEq tag_chan tag_chan) with true.
    change (textEq tag_chan tag_data) with false.
    change (textEq tag_chan tag_pakt) with false. cbv iota.
    unfold bind, log, lift, ret. cbn [cafFile console mk].
    destruct (parseChannelLayout maxFill body); reflexivity.
  - intros ->.
    change (textEq tag_pakt tag_desc) with false.
    change (textEq tag_pakt tag_chan) with false.
    change (textEq tag_pakt tag_data) with false.
    change (textEq tag_pakt tag_pakt) with true. cbv iota.
    unfold bind, log, lift, ret. cbn [cafFile console mk].
    destruct (parsePacketTable body); reflexivity.
Qed.

Lemma chunks_are_dispatched_by_type_witness :
  chunkLoop exampleMaxFill 1 (mk (chunkBytes tag_pakt [1; 2; 3] ++ [9]) [])
  = match parsePacketTable [1; 2; 3] with
    | Ok p =>
        chunkLoop exampleMaxFill 0
          (mk [9] (([] ++ [LogChunkHeader (chunkHeaderOf tag_pakt [1; 2; 3])])
                   ++ [LogPacketTable p]))
    | Throw e =>
        Raise e
          (mk [9] ([] ++ [LogChunkHeader (chunkHeaderOf tag_pakt [1; 2; 3])]))
    end.
Proof.
  refine (proj2 (proj2 (proj2 (proj2
            (chunks_are_dispatched_by_type exampleMaxFill 0 tag_pakt
               [1; 2; 3] [9] []
               _ _ _)))) _).
  - reflexivity.
  - discriminate.
  - unfold maxIndex, len. cbn [length]. lia.
  - reflexivity.
Defined.

Lemma chunkLoop_other {maxFill} rounds tag body rest out :
  length tag = 4%nat -> otherTag tag -> body <> [] -> len body <= maxIndex ->
  chunkLoop maxFill (S rounds) (mk (chunkBytes tag body ++ rest) out)
  = chunkLoop maxFill rounds
      (mk rest (out ++ [LogChunkHeader (chunkHeaderOf tag body)])).
Proof.
  intros Ht (H1 & H2 & H3 & H4) Hne Hmax.
  rewrite (chunkLoop_whole rounds tag body rest out Ht Hne Hmax).
  rewrite !textEq_neq by assumption. reflexivity.
Qed.

Lemma chunkLoop_others {maxFill} rounds rest :
  forall chunks out,
    Forall (fun c => length (fst c) = 4%nat /\ otherTag (fst c)
                     /\ snd c <> [] /\ len (snd c) <= maxIndex) chunks ->
    chunkLoop maxFill (length chunks + rounds)
      (mk (concat (map (fun c => chunkBytes (fst c) (snd c)) chunks) ++ rest)
          out)
    = chunkLoop maxFill rounds
        (mk rest
            (out ++ map (fun c => LogChunkHeader (chunkHeaderOf (fst c) (snd c)))
                      chunks)).
Proof.
  induction chunks as [|[tag body] chunks IH]; intros out Hall.
  - cbn [length map concat Nat.add app]. now rewrite app_nil_r.
  - inversion Hall as [|c cs (Ht & Ho & Hne & Hmax) Hrest]; subst.
    cbn [fst snd] in *.
    cbn [length map concat Nat.add fst snd]. rewrite <- app_assoc.
    rewrite chunkLoop_other by assumption.
    rewrite IH by assumption. rewrite <- app_assoc. reflexivity.
Qed.

(** Chunks of types without decoder are visited in file order, one round
    each, and only their headers are printed.  A file made of any eight
    header bytes and such chunks is listed to its end, where the run ends
    normally. *)
Theorem unknown_chunks_are_listed :
  forall maxFill chunks,
    Forall (fun c => length (fst c) = 4%nat /\ otherTag (fst c)
                     /\ snd c <> [] /\ len (snd c) <= maxIndex) chunks ->
    (forall rounds rest out,
       chunkLoop maxFill (length chunks + rounds)
         (mk (concat (map (fun c => chunkBytes (fst c) (snd c)) chunks) ++ rest)
             out)
       = chunkLoop maxFill rounds
           (mk rest
               (out ++ map (fun c =>
                              LogChunkHeader (chunkHeaderOf (fst c) (snd c)))
                         chunks)))
    /\ (forall ft fv ff,
          length ft = 4%nat -> length fv = 2%nat -> length ff = 2%nat ->
          main maxFill (S (length chunks))
            (ft ++ fv ++ ff
             ++ concat (map (fun c => chunkBytes (fst c) (snd c)) chunks))
          = Done tt
              (mk []
                 (LogFileHeader {| fileType := ft; fileVersion := uint fv;
                                   fileFlags := uint ff |}
                  :: map (fun c =>
                            LogChunkHeader (chunkHeaderOf (fst c) (snd c)))
                       chunks))).
Proof.
  intros maxFill chunks Hall. split.
  - intros rounds rest out. now apply chunkLoop_others.
  - intros ft fv ff H4 H2 H2'.
    rewrite main_header by assumption.
    replace (S (length chunks)) with (length chunks + 1)%nat by lia.
    rewrite <- (app_nil_r (concat _)).
    rewrite chunkLoop_others by assumption. reflexivity.
Qed.

Lemma unknown_chunks_are_listed_witness :
  main exampleMaxFill 3
    ([0x63; 0x61; 0x66; 0x66] ++ [0; 1] ++ [0; 0]
     ++ concat (map (fun c => chunkBytes (fst c) (snd c))
                  [([0x66; 0x72; 0x65; 0x65], [0; 0; 0]);
                   ([0x69; 0x6e; 0x66; 0x6f], [1])]))
  = Done tt
      (mk []
         (LogFileHeader {| fileType := [0x63; 0x61; 0x66; 0x66];
                           fileVersion := uint [0; 1];
                           fileFlags := uint [0; 0] |}
          :: map (fun c => LogChunkHeader (chunkHeaderOf (fst c) (snd c)))
               [([0x66; 0x72; 0x65; 0x65], [0; 0; 0]);
                ([0x69; 0x6e; 0x66; 0x6f], [1])])).
Proof.
  refine (proj2 (unknown_chunks_are_listed exampleMaxFill
                   [([0x66; 0x72; 0x65; 0x65], [0; 0; 0]);
                    ([0x69; 0x6e; 0x66; 0x6f], [1])] _)
            [0x63; 0x61; 0x66; 0x66] [0; 1] [0; 0] eq_refl eq_refl eq_refl).
  repeat apply Forall_cons; try apply Forall_nil;
    (split; [reflexivity|]; split;
     [repeat split; discriminate|split; [discriminate|]]);
    unfold maxIndex, len; cbn [length snd]; lia.
Defined.

(** *** The binary dump *)

Lemma byte_digits b :
  0 <= b < 256 ->
  let s := padStart (toString2 b) 8 0x30 in
  length s = 8%nat
  /\ Forall (fun c => c = 0x30 \/ c = 0x31) s
  /\ readBinary s = b.
Proof.
  intros H.
  assert (A : forallb
                (fun b =>
                   let s := padStart (toString2 b) 8 0x30 in
                   Nat.eqb (length s) 8
                   && forallb (fun c => (c =? 0x30) || (c =? 0x31)) s
                   && (readBinary s =? b))
                (map Z.of_nat (seq 0 256)) = true) by (vm_compute; reflexivity).
  rewrite forallb_forall in A. specialize (A b).
  assert (Hin : In b (map Z.of_nat (seq 0 256))).
  { apply in_map_iff. exists (Z.to_nat b). split; [lia|]. apply in_seq. lia. }
  apply A in Hin. cbv zeta in Hin. rewrite !andb_true_iff in Hin.
  destruct Hin as ((H1 & H2) & H3).
  cbv zeta. split; [now apply Nat.eqb_eq|]. split; [|now apply Z.eqb_eq].
  apply Forall_forall. intros c Hc.
  rewrite forallb_forall in H2. specialize (H2 c Hc).
  apply orb_true_iff in H2. destruct H2 as [E|E]; apply Z.eqb_eq in E; auto.
Qed.

(** [inspectBinary] writes every byte as exactly eight binary digits,
    most significant first, so the text has eight characters per byte,
    all "0" or "1", and reading its groups of eight as binary numerals
    gives the bytes back. *)
Theorem inspectBinary_eight_digits_per_byte :
  forall a,
    bytes a ->
    len (inspectBinary a) = 8 * len a
    /\ Forall (fun c => c = 0x30 \/ c = 0x31) (inspectBinary a)
    /\ map readBinary (groups (length a) (inspectBinary a)) = a.
Proof.
  induction 1 as [|b a Hb _ (IH1 & IH2 & IH3)].
  - repeat split. constructor.
  - destruct (byte_digits b Hb) as (L & D & R). cbv zeta in L, D, R.
    unfold inspectBinary in *. cbn [map concat length groups].
    set (s := padStart (toString2 b) 8 48) in *.
    split; [|split].
    + rewrite len_app. unfold len in *. cbn [length]. lia.
    + apply Forall_app. split; assumption.
    + rewrite firstn_app, skipn_app, L, Nat.sub_diag.
      rewrite firstn_O, skipn_O, app_nil_r.
      rewrite <- L at 1 2. rewrite firstn_all, skipn_all. cbn [app].
      now rewrite R, IH3.
Qed.

Lemma inspectBinary_eight_digits_per_byte_witness :
  len (inspectBinary [0; 5; 255]) = 8 * len [0; 5; 255]
  /\ Forall (fun c => c = 0x30 \/ c = 0x31) (inspectBinary [0; 5; 255])
  /\ map readBinary (groups (length [0; 5; 255]) (inspectBinary [0; 5; 255]))
     = [0; 5; 255].
Proof.
  apply (inspectBinary_eight_digits_per_byte [0; 5; 255]).
  repeat (apply Forall_cons; [lia|]). apply Forall_nil.
Defined.

(** *** The packet sizes beyond 31 bits *)

Lemma ToInt32_idem x : ToInt32 (ToInt32 x) = ToInt32 x.
Proof. apply ToInt32_signed, ToInt32_range. Qed.

(** One step of the accumulator: the shift and the OR work modulo 2^32
    and give a signed number. *)
Lemma accumulate_wraps w d :
  0 <= d < 128 -> bor (shl (ToInt32 w) 7) d = ToInt32 (w * 128 + d).
Proof.
  intros Hd. unfold bor, shl.
  change (Z.land (ToUint32 7) 31) with 7.
  rewrite Z.shiftl_mul_pow2 by lia.
  rewrite !ToInt32_idem. rewrite (ToInt32_small d) by lia.
  rewrite (ToInt32_eqm (ToInt32 w * 2 ^ 7) (w * 128)).
  2:{ change (2 ^ 7) with 128.
      rewrite Z.mul_mod, ToInt32_mod_eq, <- Z.mul_mod by lia. reflexivity. }
  set (u := w mod 2 ^ 25).
  assert (Hu : 0 <= u < 2 ^ 25) by (apply Z.mod_pos_bound; lia).
  pose proof (Z.div_mod w (2 ^ 25) ltac:(lia)) as Hw. fold u in Hw.
  assert (E1 : (w * 128) mod 2 ^ 32 = 128 * u).
  { symmetry. apply (Z.mod_unique _ _ (w / 2 ^ 25)); [left; lia|lia]. }
  assert (E2 : (w * 128 + d) mod 2 ^ 32 = 128 * u + d).
  { symmetry. apply (Z.mod_unique _ _ (w / 2 ^ 25)); [left; lia|lia]. }
  assert (Hm : exists k, ToInt32 (w * 128) = k * 2 ^ 7
                         /\ ToInt32 (w * 128 + d) = k * 2 ^ 7 + d).
  { unfold ToInt32. rewrite E1, E2.
    destruct (Z.ltb_spec (128 * u) (2 ^ 31));
      destruct (Z.ltb_spec (128 * u + d) (2 ^ 31)); try lia.
    - exists u. lia.
    - exists (u - 2 ^ 25). lia. }
  destruct Hm as (k & -> & ->).
  pose proof (Z.add_lor_land (k * 2 ^ 7) d) as A.
  rewrite land_shifted_digit in A by lia. lia.
Qed.

Lemma packetsLoop_leading_wraps n :
  forall w rest,
    0 <= w < 2 ^ Z.of_nat n ->
    packetsLoop (Spec.leadingDigits n w ++ rest) 0
    = packetsLoop rest (ToInt32 w).
Proof.
  induction n as [|n IH]; intros w rest Hw.
  - cbn in Hw. assert (w = 0) by lia. subst. reflexivity.
  - cbn [Spec.leadingDigits]. destruct (w =? 0) eqn:E.
    + apply Z.eqb_eq in E. subst. reflexivity.
    + rewrite Nat2Z.inj_succ, Z.pow_succ_r in Hw by lia.
      assert (Hq : 0 <= w / 128 < 2 ^ Z.of_nat n).
      { split; [apply Z.div_pos; lia|].
        apply Z.div_lt_upper_bound; lia. }
      assert (Hd : 0 <= w mod 128 < 128) by (apply Z.mod_pos_bound; lia).
      rewrite <- app_assoc, (IH (w / 128)) by assumption.
      destruct (digit_bits (w mod 128) Hd) as (_ & _ & Hc & Hl).
      cbn [app packetsLoop]. apply Z.eqb_neq in Hc. rewrite Hc, Hl.
      rewrite accumulate_wraps by assumption.
      f_equal. f_equal. pose proof (Z.div_mod w 128). lia.
Qed.

Lemma packetsLoop_encode_wraps v rest :
  0 <= v ->
  packetsLoop (Spec.encodeValue v ++ rest) 0 = ToInt32 v :: packetsLoop rest 0.
Proof.
  intros Hv. unfold Spec.encodeValue.
  assert (Hd : 0 <= v mod 128 < 128) by (apply Z.mod_pos_bound; lia).
  assert (Hn : 0 <= v / 128 < 2 ^ Z.of_nat (Z.to_nat (Z.log2_up (v + 1)))).
  { split; [apply Z.div_pos; lia|].
    rewrite Z2Nat.id by apply Z.log2_up_nonneg.
    assert (v + 1 <= 2 ^ Z.log2_up (v + 1)).
    { destruct (Z.eq_dec v 0) as [->|Hne]; [cbn; lia|].
      apply Z.log2_up_spec. lia. }
    assert (v / 128 <= v) by (apply Z.div_le_upper_bound; lia).
    lia. }
  rewrite <- app_assoc, packetsLoop_leading_wraps by assumption.
  destruct (digit_bits (v mod 128) Hd) as (Ht & Hl & _ & _).
  cbn [app packetsLoop]. rewrite Ht, Hl. cbn [Z.eqb].
  rewrite accumulate_wraps by assumption.
  f_equal. f_equal. pose proof (Z.div_mod v 128). lia.
Qed.

Lemma terminator_bit b : 0 <= b < 256 -> (band b 0x80 =? 0) = (b <? 128).
Proof.
  intros H.
  assert (A : forallb (fun b => Bool.eqb (band b 0x80 =? 0) (b <? 128))
                (map Z.of_nat (seq 0 256)) = true) by (vm_compute; reflexivity).
  rewrite forallb_forall in A. specialize (A b).
  assert (Hin : In b (map Z.of_nat (seq 0 256))).
  { apply in_map_iff. exists (Z.to_nat b). split; [lia|]. apply in_seq. lia. }
  apply A in Hin. now apply eqb_prop in Hin.
Qed.

(** The accumulator of [packetsTable] has 32 bits.  The encoding of any
    value, however large, decodes to that value wrapped to a signed
    32-bit number, so a size of 2^31 or more does not come back; and
    whatever the bytes are, one number is produced per byte below 0x80
    and none for the others. *)
Theorem packetsTable_wraps_values :
  (forall values tail,
      Forall (fun v => 0 <= v) values ->
      Forall (fun b => band b 0x80 <> 0) tail ->
      packetsTable (concat (map Spec.encodeValue values) ++ tail)
      = map ToInt32 values)
  /\ (forall v rest, 2 ^ 31 <= v < 2 ^ 32 ->
        packetsTable (Spec.encodeValue v ++ rest)
        = (v - 2 ^ 32) :: packetsTable rest)
  /\ (forall data, bytes data ->
        length (packetsTable data)
        = length (filter (fun b => b <? 128) data)).
Proof.
  split; [|split].
  - intros values tail Hv Ht. unfold packetsTable.
    induction Hv as [|v values Hv0 _ IH].
    + cbn [map concat app]. now apply packetsLoop_incomplete.
    + cbn [map concat]. rewrite <- app_assoc.
      rewrite packetsLoop_encode_wraps by assumption. now rewrite IH.
  - intros v rest Hv. unfold packetsTable.
    rewrite packetsLoop_encode_wraps by lia. f_equal.
    unfold ToInt32. rewrite Z.mod_small by lia.
    replace (v <? 2 ^ 31) with false by (symmetry; apply Z.ltb_ge; lia).
    reflexivity.
  - intros data Hb. unfold packetsTable. generalize 0.
    induction Hb as [|b data Hb0 _ IH]; intros cur; [reflexivity|].
    cbn [packetsLoop filter]. rewrite terminator_bit by assumption.
    destruct (b <? 128); cbn [length]; now rewrite IH.
Qed.

Lemma packetsTable_wraps_values_witness :
  packetsTable (Spec.encodeValue (2 ^ 31 + 5) ++ [1])
  = (2 ^ 31 + 5 - 2 ^ 32) :: packetsTable [1].
Proof.
  apply (proj1 (proj2 packetsTable_wraps_values) (2 ^ 31 + 5) [1]). lia.
Defined.

End CafMoreFacts.

(** ** How the scanner's runs end, what it checksums, and what the
    comment decoder does with lengths *)

Module OggScanFacts.
Import Js JsFacts ParseOgg OggPages OggFacts Encodings EncodingFacts.
Import OggMore OggMoreFacts.
Import CafStreams(bytes).
Local Open Scope js_scope.

(** *** Steps that throw nothing but an ending *)


Lemma sound_weaken fuel {A} (m : M state A) (P Q : A -> Prop) :
  sound fuel m P -> (forall a, P a -> Q a) -> sound fuel m Q.
Proof.
  intros Hm HPQ s Hs. specialize (Hm s Hs).
  destruct (m s) as [a s'|e s'|]; [|exact Hm|exact I].
  destruct Hm as [Hs' Ha]. auto.
Qed.






















(** *** The errors of the two decoders *)







(** *** A page that the file ends inside of *)








(** *** How a run ends *)



(** *** The bytes the checksum is computed over *)

Lemma dispatch_done fuel sequence segs st st' :
  dispatch fuel sequence segs st = Done tt st' -> cache st' = [].
Proof.
  unfold dispatch, bind.
  destruct (sequence =? 0).
  - unfold log, lift, bind.
    destruct (parseOpusHeader _); try discriminate.
    destruct (sequence =? 1).
    + unfold liftFuel. destruct (parseOpusTags _ _) as [[|]|]; try discriminate.
      destruct (sequence =? 3); cbn; intros H; inversion H; reflexivity.
    + destruct (sequence =? 3); cbn; intros H; inversion H; reflexivity.
  - destruct (sequence =? 1).
    + unfold log, liftFuel, bind.
      destruct (parseOpusTags _ _) as [[|]|]; try discriminate.
      destruct (sequence =? 3); cbn; intros H; inversion H; reflexivity.
    + destruct (sequence =? 3); cbn; intros H; inversion H; reflexivity.
Qed.

Lemma singles_app a b : singles (a ++ b) = singles a ++ singles b.
Proof. apply map_app. Qed.

(** C2, amended.  The buffer whose CRC the report of a page gives as
    [pageRealChecksum] is everything read since [cache] was last emptied,
    which is not always the page from its capture pattern on: the rounds
    that fail to match the capture pattern before the page leave the
    bytes they consumed in [cache].  For a run that starts with [cache]
    holding [c], skips the bytes [skipped] in [n] failed rounds and then
    finds a whole page, the run is the one that has logged the page's
    report and goes on with the page's dispatch; the report's
    [pageChecksum] is the checksum field, its [pageRealChecksum] is
    [crc32] of the contents of [c], then [skipped], then the page from
    its capture pattern through its checksum field (segment count, table
    and bodies are not in it, and the checksum field is in it as read),
    and its [checksumPassed] compares the two.  A dispatch that completes
    leaves [cache] empty, so that for a page whose sequence number is
    none of 0, 1 and 3 the run continues after the page with an empty
    [cache]. *)
Theorem checksum_buffer_since_last_page :
  forall fuel rounds c out n skipped v t g s q k segs rest,
    Skipped n skipped -> wellSized g s q k segs ->
    let fields := v :: t :: g ++ s ++ q ++ k in
    let page := Spec.capturePattern ++ pageBody v t g s q k segs in
    let buffer := concat c ++ skipped ++ Spec.capturePattern ++ fields in
    exists report,
      mainLoop fuel (n + S rounds) (mk c (skipped ++ page ++ rest) out)
      = (dispatch fuel (le32 q) segs ;;; mainLoop fuel rounds)
          (mk ((c ++ singles (skipped ++ Spec.capturePattern))
               ++ [[v]; [t]; g; s; q; k; [len segs]; map len segs] ++ segs)
              rest (out ++ [LogReport report]))
      /\ pageChecksum report = le32 k
      /\ pageRealChecksum report = crc32 buffer
      /\ checksumPassed report = (le32 k =? crc32 buffer)
      /\ (forall st st',
            dispatch fuel (le32 q) segs st = Done tt st' -> cache st' = [])
      /\ (le32 q <> 0 -> le32 q <> 1 -> le32 q <> 3 ->
          mainLoop fuel (n + S rounds) (mk c (skipped ++ page ++ rest) out)
          = mainLoop fuel rounds (mk [] rest (out ++ [LogReport report]))).
Proof.
  intros fuel rounds c out n skipped v t g s q k segs rest Hsk Hw.
  cbv zeta.
  exists (reportOf (c ++ singles (skipped ++ Spec.capturePattern))
            v t g s q k segs).
  assert (Hbuf :
    concat (c ++ singles (skipped ++ Spec.capturePattern))
      ++ v :: t :: g ++ s ++ q ++ k
    = concat c ++ skipped ++ Spec.capturePattern
        ++ v :: t :: g ++ s ++ q ++ k).
  { rewrite concat_app, concat_singles. now rewrite <- !app_assoc. }
  assert (Hrun :
    mainLoop fuel (n + S rounds)
      (mk c (skipped ++ (Spec.capturePattern ++ pageBody v t g s q k segs)
             ++ rest) out)
    = (dispatch fuel (le32 q) segs ;;; mainLoop fuel rounds)
        (mk ((c ++ singles (skipped ++ Spec.capturePattern))
             ++ [[v]; [t]; g; s; q; k; [len segs]; map len segs] ++ segs)
            rest
            (out ++ [LogReport
                       (reportOf (c ++ singles (skipped ++ Spec.capturePattern))
                          v t g s q k segs)]))).
  { rewrite (mainLoop_skip _ _ _ _ Hsk).
    cbn [mainLoop]. unfold bind at 1.
    rewrite <- (app_assoc Spec.capturePattern).
    rewrite loopBody_sync, readPage_full by assumption.
    rewrite singles_app, (app_assoc c). reflexivity. }
  split; [exact Hrun|].
  split; [reflexivity|].
  split; [cbn [pageRealChecksum reportOf]; now rewrite Hbuf|].
  split; [cbn [checksumPassed reportOf]; now rewrite Hbuf|].
  split; [intros st st'; apply dispatch_done|].
  intros H0 H1 H3. rewrite Hrun.
  unfold bind. now rewrite dispatch_other.
Qed.

Lemma checksum_buffer_since_last_page_witness :
  exists report,
    mainLoop 0 (3 + 1) (mk [] ([1; 2; 3] ++ examplePage 2 ++ []) [])
    = mainLoop 0 0 (mk [] [] ([] ++ [LogReport report]))
    /\ pageRealChecksum report
       = crc32 ([1; 2; 3] ++ Spec.capturePattern
                ++ 0 :: 2 :: repeat 0 8 ++ [1; 0; 0; 0] ++ [2; 0; 0; 0]
                ++ [9; 9; 9; 9]).
Proof.
  destruct (checksum_buffer_since_last_page 0 0 [] [] 3 [1; 2; 3]
              0 2 (repeat 0 8) [1; 0; 0; 0] [2; 0; 0; 0] [9; 9; 9; 9]
              [] [])
    as (report & _ & _ & Hreal & _ & _ & Hnext).
  - apply (Skipped_no_0x4f [1; 2; 3]).
    repeat (apply Forall_cons; [lia|]). apply Forall_nil.
  - unfold wellSized, len. cbn. repeat split; try lia. constructor.
  - exists report. split.
    + apply Hnext; discriminate.
    + exact Hreal.
Defined.

(** *** Length fields of the comment header *)

Lemma getInt32LE_in_view a off v :
  getInt32LE a off = Ok v -> 0 <= off /\ off + 4 <= len a.
Proof.
  unfold getInt32LE, getUint32LE, inView.
  destruct (Z.leb_spec 0 off); destruct (Z.leb_spec (off + 4) (len a));
    cbn; try discriminate.
  intros _. lia.
Qed.

Lemma getInt32LE_before buf off :
  off < 0 -> getInt32LE buf off = Throw RangeError.
Proof.
  intros H. unfold getInt32LE, getUint32LE, inView.
  replace (0 <=? off) with false by (symmetry; apply Z.leb_gt; lia).
  reflexivity.
Qed.

Lemma getInt32LE_bytes pre a b c d rest :
  getInt32LE (pre ++ [a; b; c; d] ++ rest) (len pre)
  = Ok (ToInt32 (le32 [a; b; c; d])).
Proof.
  unfold getInt32LE. pose proof (len_nonneg pre) as Hp. cbn [app].
  rewrite (getUint32LE_nth _ _ a b c d).
  - reflexivity.
  - lia.
  - rewrite <- (Z.add_0_r (len pre)), nth_error_after by lia. reflexivity.
  - rewrite nth_error_after by lia. reflexivity.
  - rewrite nth_error_after by lia. reflexivity.
  - rewrite nth_error_after by lia. reflexivity.
Qed.

Lemma slice_empty a start stop :
  0 <= stop <= start -> slice a start stop = [].
Proof.
  intros H. unfold slice, relIndex.
  replace (start <? 0) with false by (symmetry; apply Z.ltb_ge; lia).
  replace (stop <? 0) with false by (symmetry; apply Z.ltb_ge; lia).
  replace (Z.to_nat (Z.min stop (len a) - Z.min start (len a))) with 0%nat
    by lia.
  reflexivity.
Qed.

Lemma slice_to_the_end a start stop :
  0 <= start -> len a < stop ->
  slice a start stop = skipn (Z.to_nat start) a.
Proof.
  intros Hs He. unfold slice, relIndex.
  replace (start <? 0) with false by (symmetry; apply Z.ltb_ge; lia).
  replace (stop <? 0) with false
    by (symmetry; apply Z.ltb_ge; pose proof (len_nonneg a); lia).
  rewrite (Z.min_r stop) by lia.
  destruct (Z.le_gt_cases start (len a)) as [Hle|Hgt].
  - rewrite Z.min_l by lia. apply firstn_all2.
    rewrite length_skipn. unfold len in *. lia.
  - rewrite Z.min_r by lia. rewrite Z.sub_diag. cbn [Z.to_nat firstn].
    symmetry. apply skipn_all2. unfold len in *. lia.
Qed.

Lemma commentLoop_past_the_end fuel array vsl ucl left strs l :
  0 < left ->
  getInt32LE array (12 + vsl + 4 + (ucl - left)) = Ok l ->
  len array < 12 + vsl + 8 + (ucl - left) + l ->
  commentLoop (S (S fuel)) array vsl ucl left strs
  = if 0 <? left - (l + 4) then Some (Throw RangeError)
    else Some (Ok (strs
                   ++ [decode (skipn (Z.to_nat (12 + vsl + 8 + (ucl - left)))
                                 array)])).
Proof.
  intros Hleft Hl Hlen.
  destruct (getInt32LE_in_view _ _ _ Hl) as [Hoff _].
  cbn [commentLoop].
  replace (0 <? left) with true by (symmetry; apply Z.ltb_lt; lia).
  rewrite Hl.
  destruct (0 <? left - (l + 4)) eqn:E.
  - now rewrite getInt32LE_outside by lia.
  - now rewrite slice_to_the_end by lia.
Qed.

(** C9, amended.  The length fields of the comment header are read as
    signed 32-bit integers: a field of four bytes has the value
    [ToInt32] of its little-endian value, so ff ff ff ff is the length
    -1, not a length past the end.  When the vendor-string length so read
    puts the 4-byte comment-list length outside the payload, beyond its
    end or before its start, decoding throws a [RangeError], which is
    none of the four kinds of error.  When the vendor-string length is 0
    or negative and decoding returns, the vendor string is empty; the
    payload of the signature, ff ff ff ff and 00 00 80 is decoded to an
    empty vendor string and no comments.  When a comment's declared
    length runs past the end of the payload, the comment is kept, cut off
    at the end of the payload; decoding then returns if the list length
    is used up, and throws a [RangeError] at the next length field if it
    is not.  When the first comment's length field holds -4 (fc ff ff ff)
    and the list length is positive, decoding never returns. *)
Theorem opus_tags_past_the_end :
  (forall pre a b c d rest,
      getInt32LE (pre ++ [a; b; c; d] ++ rest) (len pre)
      = Ok (ToInt32 (le32 [a; b; c; d])))
  /\ ToInt32 (le32 [0xff; 0xff; 0xff; 0xff]) = -1
  /\ ToInt32 (le32 [0xfc; 0xff; 0xff; 0xff]) = -4
  /\ (forall fuel array vendorStringLength,
        signatureMatches array opusCommentMagicSignature = true ->
        getInt32LE array 8 = Ok vendorStringLength ->
        len array < 12 + vendorStringLength + 4
        \/ 12 + vendorStringLength < 0 ->
        parseOpusTags fuel (Some array) = Some (Throw RangeError))
  /\ (forall fuel array vendorStringLength tags,
        getInt32LE array 8 = Ok vendorStringLength ->
        vendorStringLength <= 0 ->
        parseOpusTags fuel (Some array) = Some (Ok tags) ->
        vendorString tags = [])
  /\ (forall fuel,
        parseOpusTags fuel
          (Some (opusCommentMagicSignature ++ [0xff; 0xff; 0xff; 0xff]
                 ++ [0x00; 0x00; 0x80]))
        = Some (Ok {| vendorString := []; userCommentString := [] |}))
  /\ (forall fuel array vendorStringLength listLength left strings declared,
        0 < left ->
        let start := 12 + vendorStringLength + 8 + (listLength - left) in
        getInt32LE array (start - 4) = Ok declared ->
        len array < start + declared ->
        commentLoop (S (S fuel)) array vendorStringLength listLength left
          strings
        = if 0 <? left - (declared + 4) then Some (Throw RangeError)
          else Some (Ok (strings ++ [decode (skipn (Z.to_nat start) array)])))
  /\ (forall fuel array vendorStringLength listLength declared,
        signatureMatches array opusCommentMagicSignature = true ->
        getInt32LE array 8 = Ok vendorStringLength ->
        getInt32LE array (12 + vendorStringLength) = Ok listLength ->
        0 < listLength ->
        getInt32LE array (12 + vendorStringLength + 4) = Ok declared ->
        len array < 12 + vendorStringLength + 8 + declared ->
        parseOpusTags (S (S fuel)) (Some array)
        = if 0 <? listLength - (declared + 4) then Some (Throw RangeError)
          else Some (Ok {| vendorString :=
                             decode (slice array 12 (12 + vendorStringLength));
                           userCommentString :=
                             [decode (skipn
                                        (Z.to_nat (12 + vendorStringLength + 8))
                                        array)] |}))
  /\ (forall fuel array vendorStringLength listLength,
        signatureMatches array opusCommentMagicSignature = true ->
        getInt32LE array 8 = Ok vendorStringLength ->
        getInt32LE array (12 + vendorStringLength) = Ok listLength ->
        0 < listLength ->
        getInt32LE array (12 + vendorStringLength + 4) = Ok (-4) ->
        parseOpusTags fuel (Some array) = None)
  /\ Spec.classify RangeError = None.
Proof.
  split; [exact getInt32LE_bytes|].
  split; [reflexivity|].
  split; [reflexivity|].
  split.
  { intros fuel array vsl Hsig Hv Hout. unfold parseOpusTags.
    rewrite Hsig, Hv. cbn [negb].
    destruct Hout as [Hout|Hout].
    - now rewrite (getInt32LE_outside array (12 + vsl)) by lia.
    - now rewrite (getInt32LE_before array (12 + vsl)) by lia. }
  split.
  { intros fuel array vsl tags Hv Hneg. unfold parseOpusTags.
    destruct (negb _); [discriminate|]. rewrite Hv.
    destruct (getInt32LE array (12 + vsl)) as [ucl|e] eqn:Hu; [|discriminate].
    destruct (getInt32LE_in_view _ _ _ Hu) as [Hoff _].
    destruct (commentLoop _ _ _ _ _ _) as [[cs|e]|]; try discriminate.
    intros H.
    assert (E : tags
                = {| vendorString := decode (slice array 12 (12 + vsl));
                     userCommentString := cs |}) by congruence.
    rewrite E. cbn [vendorString]. unfold decode.
    apply slice_empty. lia. }
  split.
  { intros fuel. destruct fuel; reflexivity. }
  split.
  { intros fuel array vsl ucl left strs l Hleft start Hl Hlen.
    subst start.
    replace (12 + vsl + 8 + (ucl - left) - 4)
      with (12 + vsl + 4 + (ucl - left)) in Hl by lia.
    now apply commentLoop_past_the_end. }
  split.
  { intros fuel array vsl ucl l Hsig Hv Hu Hpos Hl Hlen.
    unfold parseOpusTags. rewrite Hsig, Hv, Hu. cbn [negb].
    rewrite (commentLoop_past_the_end fuel array vsl ucl ucl [] l Hpos)
      by (rewrite Z.sub_diag, ?Z.add_0_r; assumption).
    rewrite Z.sub_diag, !Z.add_0_r.
    destruct (0 <? ucl - (l + 4)); reflexivity. }
  split; [|reflexivity].
  intros fuel array vsl ucl Hsig Hv Hu Hpos Hl.
  unfold parseOpusTags. rewrite Hsig, Hv, Hu. cbn [negb].
  rewrite commentLoop_stuck; [reflexivity|assumption|].
  now rewrite Z.sub_diag, Z.add_0_r.
Qed.

Lemma opus_tags_past_the_end_witness :
  parseOpusTags 1 (Some (shortTags 200)) = Some (Throw RangeError).
Proof.
  refine (proj1 (proj2 (proj2 (proj2 opus_tags_past_the_end)))
            1%nat (shortTags 200) 200 _ _ _).
  - reflexivity.
  - reflexivity.
  - left. vm_compute. reflexivity.
Defined.

End OggScanFacts.
